(** * ng2-rike: a shallow embedding of the bundle [ng2-rike.devel.js]

    The development follows the modules of the bundle:
    - [Options]  : [ng2-rike/options]  ([relativeUrl] and its regular expression);
    - [JS]       : the JavaScript values the library passes around;
    - [Error]    : [ng2-rike/error]    ([toErrorResponse] and its helpers);
    - [Event]    : [ng2-rike/event]    (the four event classes and their getters);
    - [Protocol] : [ng2-rike/protocol] (the decoration chain, as objects in a store);
    - [Target]   : [ng2-rike/rike]     ([RikeTargetImpl] and the verb template of
                                        [RikeOperationImpl]);
    - [Rike]     : [ng2-rike/rike]     (the service: request methods, request
                                        options, targets);
    - [Status]   : [ng2-rike/status]   ([RikeStatus] and the text of its component).

    Definitions come first, module by module; the theorems follow. *)

From Stdlib Require Import List String Ascii ZArith Bool Lia Arith DecimalString.
Import ListNotations.
Open Scope string_scope.

(* ================================================================== *)
(** ** Completions: a call either returns a value or throws one *)
(* ================================================================== *)

Inductive Completion (E A : Type) : Type :=
| Normal (a : A)
| Throw (e : E).
Arguments Normal {E A} a.
Arguments Throw {E A} e.

Definition bindC {E A B} (c : Completion E A) (k : A -> Completion E B)
  : Completion E B :=
  match c with
  | Normal a => k a
  | Throw e => Throw e
  end.

(* ================================================================== *)
(** ** Module [ng2-rike/options] *)
(* ================================================================== *)

Module Options.

(** Regular expressions, as far as the literal [/^(\w*:)?\/\//] needs them. *)
Inductive regex : Type :=
| Empty
| Eps
| Chr (c : ascii)
| Cls (p : ascii -> bool)
| Seq (r1 r2 : regex)
| Alt (r1 r2 : regex)
| Star (r : regex).

Definition Opt (r : regex) : regex := Alt r Eps.

(** The words of a regular expression. *)
Inductive Matches : regex -> string -> Prop :=
| MEps : Matches Eps ""
| MChr c : Matches (Chr c) (String c "")
| MCls p c : p c = true -> Matches (Cls p) (String c "")
| MSeq r1 r2 s1 s2 :
    Matches r1 s1 -> Matches r2 s2 -> Matches (Seq r1 r2) (s1 ++ s2)
| MAltL r1 r2 s : Matches r1 s -> Matches (Alt r1 r2) s
| MAltR r1 r2 s : Matches r2 s -> Matches (Alt r1 r2) s
| MStar0 r : Matches (Star r) ""
| MStarS r s1 s2 :
    Matches r s1 -> Matches (Star r) s2 -> Matches (Star r) (s1 ++ s2).

Fixpoint nullable (r : regex) : bool :=
  match r with
  | Empty => false
  | Eps => true
  | Chr _ => false
  | Cls _ => false
  | Seq r1 r2 => nullable r1 && nullable r2
  | Alt r1 r2 => nullable r1 || nullable r2
  | Star _ => true
  end.

Fixpoint deriv (a : ascii) (r : regex) : regex :=
  match r with
  | Empty => Empty
  | Eps => Empty
  | Chr c => if Ascii.eqb a c then Eps else Empty
  | Cls p => if p a then Eps else Empty
  | Seq r1 r2 =>
      if nullable r1
      then Alt (Seq (deriv a r1) r2) (deriv a r2)
      else Seq (deriv a r1) r2
  | Alt r1 r2 => Alt (deriv a r1) (deriv a r2)
  | Star r1 => Seq (deriv a r1) (Star r1)
  end.

(** [s.match(r)] for a pattern anchored with [^] and without [$]: some prefix
    of [s] is a word of [r]. *)
Fixpoint match_prefix (r : regex) (s : string) : bool :=
  nullable r ||
  match s with
  | EmptyString => false
  | String c s' => match_prefix (deriv c r) s'
  end.

Definition in_range (lo hi c : ascii) : bool :=
  Nat.leb (nat_of_ascii lo) (nat_of_ascii c)
  && Nat.leb (nat_of_ascii c) (nat_of_ascii hi).

(** The class [\w]: [[A-Za-z0-9_]]. *)
Definition is_word (c : ascii) : bool :=
  in_range "A"%char "Z"%char c || in_range "a"%char "z"%char c
  || in_range "0"%char "9"%char c || Ascii.eqb c "_"%char.

(** The literal [/^(\w*:)?\/\//]. *)
Definition FULL_URL : regex :=
  Seq (Opt (Seq (Star (Cls is_word)) (Chr ":"%char))) (Seq (Chr "/"%char) (Chr "/"%char)).

(** [!baseUrl]: the base is [undefined] ([None]) or the empty string. *)
Definition not_baseUrl (baseUrl : option string) : bool :=
  match baseUrl with
  | None => true
  | Some b => String.eqb b ""
  end.

(** [url[0] === "/"]. *)
Definition starts_with_slash (url : string) : bool :=
  match url with
  | String c _ => Ascii.eqb c "/"%char
  | EmptyString => false
  end.

Definition relativeUrl (baseUrl : option string) (url : string) : string :=
  match baseUrl with
  | None => url
  | Some b =>
      if String.eqb b "" then url
      else if starts_with_slash url then url (* Absolute URL *)
      else if match_prefix FULL_URL url then url (* Full URL *)
      else b ++ "/" ++ url
  end.

(** The words of the specification, for comparison with the literal:
    [url] is [scheme://...] for a scheme of word characters, or [//...]. *)
Fixpoint all_word (s : string) : bool :=
  match s with
  | EmptyString => true
  | String c s' => is_word c && all_word s'
  end.

Definition scheme_prefixed (url : string) : Prop :=
  exists scheme rest, all_word scheme = true /\ url = scheme ++ "://" ++ rest.

Definition protocol_relative (url : string) : Prop :=
  exists rest, url = "//" ++ rest.

End Options.

(* ================================================================== *)
(** ** JavaScript values *)
(* ================================================================== *)

Module JS.

(** [ResponseType] of [@angular/http]. *)
Inductive ResponseType : Type := Basic | Cors | Default | Error | Opaque.

(** An instance of [Response] of [@angular/http], by what the library reads of
    it: the numeric status, the status text (a string or [null]), the headers
    (absent when the response was built without any), the URL, and the outcome
    of calling [json()] on it (a value, or the exception it throws). *)
Record ResponseOf (V : Type) : Type := mkResponse {
  type : ResponseType;
  status : Z;
  statusText : option string;
  headers : option (list (string * string));
  url : option string;
  json : Completion V V
}.
Arguments mkResponse {V}.
Arguments type {V}.
Arguments status {V}.
Arguments statusText {V}.
Arguments headers {V}.
Arguments url {V}.
Arguments json {V}.

(** The values that reach the library: JSON data (numbers are the integer
    ones; objects are the list of their own enumerable properties, in
    enumeration order, and inherit from [Object.prototype] what they do not
    define themselves), and instances of the classes [Response] and
    [ErrorResponse]. *)
#[warnings="-register-all"]
Inductive JSValue : Type :=
| JUndefined
| JNull
| JBool (b : bool)
| JNumber (n : Z)
| JString (s : string)
| JArray (elems : list JSValue)
| JObject (props : list (string * JSValue))
| JResponse (r : ResponseOf JSValue)
| JErrorResponse (response errors : JSValue).

Definition Response : Type := ResponseOf JSValue.

(** A call returns a value or throws one. *)
Definition Result (A : Type) : Type := Completion JSValue A.

Definition TypeError (message : string) : JSValue :=
  JObject [("name", JString "TypeError"); ("message", JString message)].

(** [v == null]. *)
Definition nullish (v : JSValue) : bool :=
  match v with
  | JUndefined | JNull => true
  | _ => false
  end.

(** [!!v]. *)
Definition truthy (v : JSValue) : bool :=
  match v with
  | JUndefined | JNull => false
  | JBool b => b
  | JNumber n => negb (Z.eqb n 0)
  | JString s => negb (String.eqb s "")
  | _ => true
  end.

(** [typeof v === "object"]. *)
Definition typeof_object (v : JSValue) : bool :=
  match v with
  | JNull | JArray _ | JObject _ | JResponse _ | JErrorResponse _ _ => true
  | _ => false
  end.

(** [typeof v === "string"]. *)
Definition typeof_string (v : JSValue) : bool :=
  match v with
  | JString _ => true
  | _ => false
  end.

(** [v === "<s>"] for a string literal. *)
Definition is_string (s : string) (v : JSValue) : bool :=
  match v with
  | JString s' => String.eqb s' s
  | _ => false
  end.

Fixpoint lookup (name : string) (props : list (string * JSValue)) : JSValue :=
  match props with
  | [] => JUndefined
  | (k, v) :: rest => if String.eqb k name then v else lookup name rest
  end.

(** The names every object inherits from [Object.prototype]. *)
Definition Object_prototype_names : list string :=
  ["constructor"; "hasOwnProperty"; "isPrototypeOf"; "propertyIsEnumerable";
   "toLocaleString"; "toString"; "valueOf"; "__proto__";
   "__defineGetter__"; "__defineSetter__"; "__lookupGetter__";
   "__lookupSetter__"].

Definition inherited (name : string) : bool :=
  existsb (String.eqb name) Object_prototype_names.

(** [name] is an own property: a property of that name shadows the inherited
    one, and a value of the data is no function. *)
Fixpoint has_own (name : string) (props : list (string * JSValue)) : bool :=
  match props with
  | [] => false
  | (k, _) :: rest => String.eqb k name || has_own name rest
  end.

(** [obj[name] = v] on the property list of an object. *)
Fixpoint assign (name : string) (v : JSValue) (props : list (string * JSValue))
  : list (string * JSValue) :=
  match props with
  | [] => [(name, v)]
  | (k, w) :: rest =>
      if String.eqb k name then (k, v) :: rest else (k, w) :: assign name v rest
  end.

Definition opt_string (s : option string) : JSValue :=
  match s with
  | Some x => JString x
  | None => JNull
  end.

(** The own enumerable properties a [for ... in] loop visits; for an instance
    of [Response], the fields this model keeps of it. *)
Definition own_props (v : JSValue) : list (string * JSValue) :=
  match v with
  | JObject props => props
  | JErrorResponse response errors => [("response", response); ("errors", errors)]
  | JResponse r =>
      [("status", JNumber (status r)); ("statusText", opt_string (statusText r));
       ("url", opt_string (url r))]
  | _ => []
  end.

(** [v.name], for a [v] that is neither [null] nor [undefined], and a [name]
    that no prototype defines ([message], [code], [response], [errors]). *)
Definition prop (v : JSValue) (name : string) : JSValue :=
  match v with
  | JObject props => lookup name props
  | JErrorResponse _ _ => lookup name (own_props v)
  | _ => JUndefined
  end.

(** The integers a number holds exactly: up to [2^53] in absolute value. *)
Definition safe_integer (n : Z) : bool :=
  Z.leb (Z.abs n) 9007199254740992.

(** [n.toString()] for such an integer: all its digits.  (Beyond them a
    number is rounded, and from [1e21] on it prints with an exponent.) *)
Definition number_toString (n : Z) : string :=
  NilZero.string_of_int (Z.to_int n).

Definition join (sep : string) (parts : list string) : string :=
  match parts with
  | [] => ""
  | p :: rest => fold_left (fun acc q => acc ++ sep ++ q) rest p
  end.

Definition toString_opt (s : option string) : string :=
  match s with
  | Some x => x
  | None => "null"
  end.

(** [Response.prototype.toString] of [@angular/http]. *)
Definition Response_toString (r : Response) : string :=
  "Response with status: " ++ number_toString (status r) ++ " "
  ++ toString_opt (statusText r) ++ " for URL: " ++ toString_opt (url r).

(** [v.toString()].  [null] and [undefined] have no properties; an object
    with an own property [toString] has no function under that name (the
    values of the data are no functions); inside an array, [null] and
    [undefined] elements print as nothing and an object is converted through
    its [toString] all the same. *)
Fixpoint toString (v : JSValue) : Result string :=
  match v with
  | JUndefined =>
      Throw (TypeError "Cannot read property 'toString' of undefined")
  | JNull => Throw (TypeError "Cannot read property 'toString' of null")
  | JBool true => Normal "true"
  | JBool false => Normal "false"
  | JNumber n => Normal (number_toString n)
  | JString s => Normal s
  | JArray elems =>
      bindC
        ((fix each (l : list JSValue) : Result (list string) :=
            match l with
            | [] => Normal []
            | x :: rest =>
                bindC
                  (match x with
                   | JUndefined | JNull => Normal ""
                   | JObject props =>
                       if has_own "toString" props
                       then Throw
                              (TypeError
                                 "Cannot convert object to primitive value")
                       else toString x
                   | _ => toString x
                   end)
                  (fun s => bindC (each rest) (fun ss => Normal (s :: ss)))
            end) elems)
        (fun parts => Normal (join "," parts))
  | JObject props =>
      if has_own "toString" props
      then Throw (TypeError "toString is not a function")
      else Normal "[object Object]"
  | JResponse r => Normal (Response_toString r)
  | JErrorResponse _ _ => Normal "[object Object]"
  end.

(** The values that print: [toString] returns on them. *)
Fixpoint printable (v : JSValue) : bool :=
  match v with
  | JUndefined | JNull => false
  | JArray elems =>
      (fix each (l : list JSValue) : bool :=
         match l with
         | [] => true
         | x :: rest =>
             match x with
             | JUndefined | JNull => true
             | _ => printable x
             end && each rest
         end) elems
  | JObject props => negb (has_own "toString" props)
  | _ => true
  end.

(** Plain data: JSON data (no instance of [Response] or [ErrorResponse] in
    it) in which no object has a property named like a member of
    [Object.prototype]. *)
Fixpoint plain (v : JSValue) : bool :=
  match v with
  | JArray elems =>
      (fix each (l : list JSValue) : bool :=
         match l with
         | [] => true
         | x :: rest => plain x && each rest
         end) elems
  | JObject props =>
      (fix each (l : list (string * JSValue)) : bool :=
         match l with
         | [] => true
         | (k, x) :: rest => negb (inherited k) && plain x && each rest
         end) props
  | JResponse _ | JErrorResponse _ _ => false
  | _ => true
  end.

Definition lower (c : ascii) : ascii :=
  let n := nat_of_ascii c in
  if Nat.leb 65 n && Nat.leb n 90 then ascii_of_nat (n + 32) else c.

(** [s.toLowerCase()] of a string of ASCII characters. *)
Fixpoint toLowerCase (s : string) : string :=
  match s with
  | EmptyString => EmptyString
  | String c s' => String (lower c) (toLowerCase s')
  end.

End JS.

(* ================================================================== *)
(** ** Module [ng2-rike/error] *)
(* ================================================================== *)

Module Error.
Import JS.

(** [headers.get(name)] of [@angular/http]: the value of the header, or [null]. *)
Fixpoint Headers_get (name : string) (hs : list (string * string)) : option string :=
  match hs with
  | [] => None
  | (k, v) :: rest => if String.eqb k name then Some v else Headers_get name rest
  end.

Definition instanceof_Response (v : JSValue) : bool :=
  match v with
  | JResponse _ => true
  | _ => false
  end.

Definition instanceof_Array (v : JSValue) : bool :=
  match v with
  | JArray _ => true
  | _ => false
  end.

Definition instanceof_ErrorResponse (v : JSValue) : bool :=
  match v with
  | JErrorResponse _ _ => true
  | _ => false
  end.

(** [new ErrorResponse(opts)]. *)
Definition new_ErrorResponse (opts : JSValue) : JSValue :=
  JErrorResponse (prop opts "response") (prop opts "errors").

Definition notEmptyError (item : JSValue) : bool :=
  truthy item && (truthy (prop item "message") || truthy (prop item "code")).

Definition toFieldError (data : JSValue) : Result JSValue :=
  if nullish data then Normal (JObject [("message", JString "")])
  else
    let fieldError := data in
    if typeof_string (prop fieldError "message")
       && (nullish (prop fieldError "code")
           || is_string "string" (prop fieldError "code"))
    then Normal fieldError
    else if negb (nullish (prop fieldError "message")) then
      bindC
        (if negb (nullish (prop fieldError "code"))
         then bindC (toString (prop fieldError "code"))
                (fun code => Normal (JString code))
         else Normal JUndefined)
        (fun code =>
           bindC (toString (prop fieldError "message"))
             (fun message =>
                Normal (JObject [("code", code); ("message", JString message)])))
    else
      bindC (toString fieldError)
        (fun message => Normal (JObject [("message", JString message)])).

(** [data.map(toFieldError)]. *)
Fixpoint map_toFieldError (data : list JSValue) : Result (list JSValue) :=
  match data with
  | [] => Normal []
  | x :: rest =>
      bindC (toFieldError x)
        (fun e => bindC (map_toFieldError rest) (fun es => Normal (e :: es)))
  end.

Definition toFieldErrorArray (data : JSValue) : Result (list JSValue) :=
  if nullish data then Normal []
  else
    match data with
    | JArray elems =>
        bindC (map_toFieldError elems)
          (fun es => Normal (filter notEmptyError es))
    | _ =>
        bindC (toFieldError data) (fun e => Normal (filter notEmptyError [e]))
    end.

(** [fieldErrors.length ? {"*": fieldErrors} : undefined]. *)
Definition under_star (fieldErrors : list JSValue) : JSValue :=
  match fieldErrors with
  | [] => JUndefined
  | _ => JObject [("*", JArray fieldErrors)]
  end.

(** [result[field] = errorArray]: for the name [__proto__] the assignment sets
    the prototype of [result] and not a property. *)
Definition file_under (field : string) (errorArray : list JSValue)
    (result : list (string * JSValue)) : list (string * JSValue) :=
  if String.eqb field "__proto__" then result
  else assign field (JArray errorArray) result.

(** The [for (var field in errors)] loop of [toFieldErrors], on the pair
    ([result], [hasErrors]); [errors] are the own properties of the data, on
    which the loop calls [hasOwnProperty]. *)
Fixpoint collect (errors fields : list (string * JSValue))
    (acc : list (string * JSValue) * bool)
  : Result (list (string * JSValue) * bool) :=
  match fields with
  | [] => Normal acc
  | (field, v) :: rest =>
      if has_own "hasOwnProperty" errors then
        Throw (TypeError "errors.hasOwnProperty is not a function")
      else
        bindC (toFieldErrorArray v)
          (fun errorArray =>
             match errorArray with
             | [] => collect errors rest acc
             | _ =>
                 collect errors rest
                   (file_under field errorArray (fst acc), true)
             end)
  end.

Definition toFieldErrors (data : JSValue) : Result JSValue :=
  if nullish data then Normal JUndefined
  else
    match data with
    | JArray elems =>
        bindC (map_toFieldError elems)
          (fun es => Normal (under_star (filter notEmptyError es)))
    | _ =>
        if negb (typeof_object data) then
          bindC (toString data)
            (fun message =>
               Normal
                 (under_star
                    (filter notEmptyError
                       [JObject [("message", JString message)]])))
        else
          bindC (collect (own_props data) (own_props data) ([], false))
            (fun r => Normal (if snd r then JObject (fst r) else JUndefined))
    end.

(** The response [syntheticResponse] builds around a status text. *)
Definition synthetic (statusText : option string) : Response :=
  mkResponse Error 500
    (match statusText with
     | Some s => if String.eqb s "" then Some "Unknown error" else Some s
     | None => Some "Unknown error"
     end)
    None None (Normal JUndefined).

Definition syntheticResponse (error : JSValue) : Result Response :=
  bindC
    (if negb (nullish error)
     then bindC (toString error) (fun s => Normal (Some s))
     else Normal None)
    (fun statusText => Normal (synthetic statusText)).

(** [response.statusText && response.statusText.toLowerCase() != "ok"]. *)
Definition has_status_suffix (response : Response) : bool :=
  match statusText response with
  | None => false
  | Some s => negb (String.eqb s "") && negb (String.eqb (toLowerCase s) "ok")
  end.

Definition default_message (response : Response) : string :=
  let message := "ERROR " ++ number_toString (status response) in
  if has_status_suffix response
  then message ++ ": " ++ toString_opt (statusText response)
  else message.

Definition defaultErrorResponse (response : Response) : JSValue :=
  JErrorResponse (JResponse response)
    (JObject
       [("*",
         JArray
           [JObject
              [("code", JString ("HTTP" ++ number_toString (status response)));
               ("message", JString (default_message response))]])]).

(** The attempt to parse the JSON body: [body] stays [undefined] unless the
    content type is [application/json] and [response.json()] returns. *)
Definition parse_body (response : Response) (hs : list (string * string))
  : JSValue :=
  match Headers_get "Content-Type" hs with
  | Some contentType =>
      if String.eqb contentType "application/json" then
        match json response with
        | Normal body => body
        | Throw _ => JUndefined
        end
      else JUndefined
  | None => JUndefined
  end.

Definition toErrorResponse (error : JSValue) : Result JSValue :=
  if instanceof_ErrorResponse error then
    (* Error is already of the desired type. *)
    Normal error
  else
    match error with
    | JResponse response =>
        match headers response with
        | None => Throw (TypeError "Cannot read property 'get' of null")
        | Some hs =>
            let body := parse_body response hs in
            bindC (toFieldErrors body)
              (fun fieldErrors =>
                 if truthy fieldErrors
                 then Normal (JErrorResponse (JResponse response) fieldErrors)
                 else Normal (defaultErrorResponse response))
        end
    | _ =>
        if nullish error then
          Throw (TypeError "Cannot read property 'response' of null")
        else
          let errorOpts := error in
          if instanceof_Response (prop errorOpts "response")
             && instanceof_Array (prop errorOpts "errors")
          then Normal (new_ErrorResponse errorOpts)
          else
            bindC (toFieldErrors error)
              (fun fieldErrors =>
                 if truthy fieldErrors
                 then
                   bindC (syntheticResponse JNull)
                     (fun response =>
                        Normal (JErrorResponse (JResponse response) fieldErrors))
                 else
                   bindC (syntheticResponse error)
                     (fun response => Normal (defaultErrorResponse response)))
    end.

(** A scalar error value: a string, a number or a boolean. *)
Definition scalar (v : JSValue) : bool :=
  match v with
  | JBool _ | JNumber _ | JString _ => true
  | _ => false
  end.

(** The string form of a scalar. *)
Definition scalar_text (v : JSValue) : string :=
  match v with
  | JBool true => "true"
  | JBool false => "false"
  | JNumber n => number_toString n
  | JString s => s
  | _ => ""
  end.

(** [[{message: <the scalar as a string>}]]: the singleton error list the
    specification gives a scalar, with no [code] property. *)
Definition singleton_error (v : JSValue) : JSValue :=
  JArray [JObject [("message", JString (scalar_text v))]].

(** A scalar whose string form is not empty; a number among them is an
    integer that prints as it is. *)
Definition nonempty_scalar (v : JSValue) : bool :=
  scalar v && negb (String.eqb (scalar_text v) "")
  && match v with
     | JNumber n => safe_integer n
     | _ => true
     end.

(** A field name under which the loop of [toFieldErrors] files errors as the
    property of that name: [hasOwnProperty] as a field shadows the function
    the loop calls, and [__proto__] names no property. *)
Definition field_name (name : string) : bool :=
  negb (String.eqb name "hasOwnProperty") && negb (String.eqb name "__proto__").






Definition singleton_errors (fields : list (string * JSValue))
  : list (string * JSValue) :=
  map (fun kv => (fst kv, singleton_error (snd kv))) fields.

End Error.

(* ================================================================== *)
(** ** Module [ng2-rike/event] *)
(* ================================================================== *)

Module Event.
Import JS.

(** A reference to a protocol object in the store of module [Protocol]. *)
Definition ref : Type := nat.

(** An operation ([RikeOperationImpl]) as the events see it: the unique id of
    its target, its name and its protocol. *)
Record RikeOperation : Type := mkOperation {
  op_target : string;
  op_name : string;
  op_protocol : ref
}.

(** What an event carries and what is thrown around the target: a plain value
    or an event (a cancelled observer receives the cancel event as its error,
    and may throw it back). *)
Inductive Any : Type :=
| Val (v : JSValue)
| Ev (e : RikeEvent)
with RikeEvent : Type :=
| RikeOperationEvent (_operation : RikeOperation)
| RikeSuccessEvent (_operation : RikeOperation) (_result : Any)
| RikeErrorEvent (_operation : RikeOperation) (_error : Any)
| RikeCancelEvent (_operation : RikeOperation) (_error : Any) (_cancelledBy : Any).

Definition undefined : Any := Val JUndefined.

(** [!!x]. *)
Definition truthy (x : Any) : bool :=
  match x with
  | Val v => JS.truthy v
  | Ev _ => true
  end.

(** [new RikeCancelEvent(operation, _cancelledBy)]: the constructor hands
    [_cancelledBy || "cancel"] to the constructor of [RikeErrorEvent]. *)
Definition new_RikeCancelEvent (operation : RikeOperation) (_cancelledBy : Any)
  : RikeEvent :=
  RikeCancelEvent operation
    (if truthy _cancelledBy then _cancelledBy else Val (JString "cancel"))
    _cancelledBy.

(** The getters. *)
Definition operation (e : RikeEvent) : RikeOperation :=
  match e with
  | RikeOperationEvent o => o
  | RikeSuccessEvent o _ => o
  | RikeErrorEvent o _ => o
  | RikeCancelEvent o _ _ => o
  end.

Definition target (e : RikeEvent) : string := op_target (operation e).

Definition complete (e : RikeEvent) : bool :=
  match e with
  | RikeOperationEvent _ => false
  | _ => true
  end.

Definition cancel (e : RikeEvent) : bool :=
  match e with
  | RikeCancelEvent _ _ _ => true
  | _ => false
  end.

Definition cancelledBy (e : RikeEvent) : Any :=
  match e with
  | RikeCancelEvent _ _ c => c
  | _ => undefined
  end.

Definition error (e : RikeEvent) : Any :=
  match e with
  | RikeOperationEvent _ => undefined
  | RikeSuccessEvent _ _ => undefined
  | RikeErrorEvent _ err => err
  | RikeCancelEvent _ _ _ => cancelledBy e
  end.

Definition result (e : RikeEvent) : Any :=
  match e with
  | RikeSuccessEvent _ r => r
  | _ => undefined
  end.

End Event.

(* ================================================================== *)
(** ** Module [ng2-rike/protocol] *)
(* ================================================================== *)

(** What the protocols take from [@angular/http] and the JSON built-in:
    [new RequestOptions(options).merge(args)] and [JSON.stringify(request)]. *)
Class Angular : Type := {
  RequestOptions_merge : JS.JSValue -> JS.JSValue -> JS.JSValue;
  JSON_stringify : JS.JSValue -> JS.Result JS.JSValue
}.

Module Protocol.
Import JS.

Definition ref : Type := Event.ref.

(** The hooks: [prepareRequest(options)], [readResponse(response)] and
    [handleError(error)] take one argument, [writeRequest(request, options)]
    two; each returns or throws. *)
Definition Hook1 : Type := JSValue -> Result JSValue.
Definition Hook2 : Type := JSValue -> JSValue -> Result JSValue.

(** The functions a [PrepareRequestProtocol] is built with: one the caller
    gave, or the closure [function (options) { return
    _this.protocol.prepareRequest(options); }] of [RikeTargetImpl.operation],
    which holds the target's protocol. *)
Inductive PrepareFn : Type :=
| UserPrepare (prepare : Hook1)
| TargetPrepare (target_protocol : ref).

(** The functions a [WriteRequestProtocol] is built with: one the caller gave,
    or the closure of [updateRequestWith], which holds [_this] and its two
    arguments. *)
Inductive WriteFn : Type :=
| UserWrite (writeRequest : Hook2)
| UpdateRequest (_this : ref) (updateRequest : Hook2) (after : bool).

(** The protocol objects, class by class.  [CustomProtocol] stands for a
    subclass of [Protocol] written by the user of the library.  The decorators
    hold a reference to the object they wrap and their own [handleError]
    field, assigned once by the constructor. *)
Inductive Obj : Type :=
| JsonProtocol
| HttpProtocol
| CustomProtocol (prepareRequest : Hook1) (writeRequest : Hook2)
    (readResponse : Hook1) (handleError : option Hook1)
| PrepareRequestProtocol (_protocol : ref) (_prepare : PrepareFn) (_after : bool)
    (handleError : option Hook1)
| WriteRequestProtocol (_responseProtocol : ref) (_writeRequest : WriteFn)
    (handleError : option Hook1)
| ReadResponseProtocol (_requestProtocol : ref) (_readResponse : Hook1)
    (handleError : option Hook1)
| HandleErrorProtocol (_protocol : ref) (handleError : option Hook1).

(** The store of protocol objects, the newest first: the object at the head
    of a store of [n + 1] objects has the reference [n].  An object refers to
    objects that existed when it was built, so a method call at the head only
    ever continues in the tail. *)
Definition Store : Type := list Obj.

Definition alloc (st : Store) (o : Obj) : Store * ref := (o :: st, List.length st).

Fixpoint deref (st : Store) (p : ref) : option Obj :=
  match st with
  | [] => None
  | o :: older => if Nat.eqb p (List.length older) then Some o else deref older p
  end.

(** The module creates [JSON_PROTOCOL] and then [HTTP_PROTOCOL]. *)
Definition JSON_PROTOCOL : ref := 0.
Definition HTTP_PROTOCOL : ref := 1.
Definition initial_store : Store := [HttpProtocol; JsonProtocol].

Definition dangling : JSValue := TypeError "Cannot read property of undefined".

(** [p.handleError]: a field of the object (the leaf classes have none). *)
Definition handleError (st : Store) (p : ref) : option Hook1 :=
  match deref st p with
  | Some (CustomProtocol _ _ _ h) => h
  | Some (PrepareRequestProtocol _ _ _ h) => h
  | Some (WriteRequestProtocol _ _ h) => h
  | Some (ReadResponseProtocol _ _ h) => h
  | Some (HandleErrorProtocol _ h) => h
  | _ => None
  end.

Fixpoint prepareRequest (st : Store) (p : ref) (options : JSValue) {struct st}
  : Result JSValue :=
  match st with
  | [] => Throw dangling
  | o :: older =>
      if Nat.eqb p (List.length older) then
        match o with
        | JsonProtocol | HttpProtocol => Normal options
        | CustomProtocol prepare _ _ _ => prepare options
        | PrepareRequestProtocol _protocol _prepare _after _ =>
            let prepare := fun x =>
              match _prepare with
              | UserPrepare f => f x
              | TargetPrepare target_protocol =>
                  prepareRequest older target_protocol x
              end in
            if _after
            then bindC (prepareRequest older _protocol options) prepare
            else bindC (prepare options) (prepareRequest older _protocol)
        | WriteRequestProtocol _responseProtocol _ _ =>
            prepareRequest older _responseProtocol options
        | ReadResponseProtocol _requestProtocol _ _ =>
            prepareRequest older _requestProtocol options
        | HandleErrorProtocol _protocol _ =>
            prepareRequest older _protocol options
        end
      else prepareRequest older p options
  end.

Fixpoint readResponse (st : Store) (p : ref) (response : JSValue) {struct st}
  : Result JSValue :=
  match st with
  | [] => Throw dangling
  | o :: older =>
      if Nat.eqb p (List.length older) then
        match o with
        | JsonProtocol =>
            match response with
            | JResponse r => json r
            | _ => Throw (TypeError "response.json is not a function")
            end
        | HttpProtocol => Normal response
        | CustomProtocol _ _ read _ => read response
        | PrepareRequestProtocol _protocol _ _ _ =>
            readResponse older _protocol response
        | WriteRequestProtocol _responseProtocol _ _ =>
            readResponse older _responseProtocol response
        | ReadResponseProtocol _ _readResponse _ => _readResponse response
        | HandleErrorProtocol _protocol _ =>
            readResponse older _protocol response
        end
      else readResponse older p response
  end.

Section WithAngular.
Context `{Angular}.

Definition JsonProtocol_writeRequest (request options : JSValue) : Result JSValue :=
  bindC (JSON_stringify request) (fun body =>
    let opts := RequestOptions_merge options (JObject [("body", body)]) in
    let headers :=
      if truthy (prop opts "headers") then prop opts "headers" else JObject [] in
    Normal
      (JObject
         (assign "headers"
            (JObject
               (assign "Content-Type" (JString "application/json")
                  (own_props headers)))
            (own_props opts)))).

Definition HttpProtocol_writeRequest (request options : JSValue) : Result JSValue :=
  Normal (RequestOptions_merge options (JObject [("body", request)])).

Fixpoint writeRequest (st : Store) (p : ref) (request options : JSValue)
    {struct st} : Result JSValue :=
  match st with
  | [] => Throw dangling
  | o :: older =>
      if Nat.eqb p (List.length older) then
        match o with
        | JsonProtocol => JsonProtocol_writeRequest request options
        | HttpProtocol => HttpProtocol_writeRequest request options
        | CustomProtocol _ write _ _ => write request options
        | PrepareRequestProtocol _protocol _ _ _ =>
            writeRequest older _protocol request options
        | WriteRequestProtocol _ _writeRequest _ =>
            match _writeRequest with
            | UserWrite f => f request options
            | UpdateRequest _this updateRequest after =>
                if negb after
                then bindC (updateRequest request options)
                       (writeRequest older _this request)
                else bindC (writeRequest older _this request options)
                       (updateRequest request)
            end
        | ReadResponseProtocol _requestProtocol _ _ =>
            writeRequest older _requestProtocol request options
        | HandleErrorProtocol _protocol _ =>
            writeRequest older _protocol request options
        end
      else writeRequest older p request options
  end.

End WithAngular.

(** The combinators: each builds one object and returns the store with it. *)
Definition prepareRequestWith (st : Store) (this : ref) (prepare : Hook1)
    (after : bool) : Store * ref :=
  alloc st (PrepareRequestProtocol this (UserPrepare prepare) after
              (handleError st this)).

Definition writeRequestWith (st : Store) (this : ref) (writeRequest : Hook2)
  : Store * ref :=
  alloc st (WriteRequestProtocol this (UserWrite writeRequest)
              (handleError st this)).

Definition updateRequestWith (st : Store) (this : ref) (updateRequest : Hook2)
    (after : bool) : Store * ref :=
  alloc st (WriteRequestProtocol this (UpdateRequest this updateRequest after)
              (handleError st this)).

(** [ReadResponseProtocol] overrides [readResponseWith] to wrap what it wraps. *)
Definition readResponseWith (st : Store) (this : ref) (readResponse : Hook1)
  : Store * ref :=
  match deref st this with
  | Some (ReadResponseProtocol _requestProtocol _ _) =>
      alloc st (ReadResponseProtocol _requestProtocol readResponse
                  (handleError st _requestProtocol))
  | _ =>
      alloc st (ReadResponseProtocol this readResponse (handleError st this))
  end.

(** [HandleErrorProtocol] overrides [handleErrorWith] likewise. *)
Definition handleErrorWith (st : Store) (this : ref) (errorHandler : option Hook1)
  : Store * ref :=
  match deref st this with
  | Some (HandleErrorProtocol _protocol _) =>
      alloc st (HandleErrorProtocol _protocol errorHandler)
  | _ => alloc st (HandleErrorProtocol this errorHandler)
  end.

(** A stand-in for [@angular/http], to run the protocols on examples: later
    properties win in [merge], and [JSON.stringify] is taken to print a value
    as [toString] does. *)
Definition plain_angular : Angular := {|
  RequestOptions_merge := fun options args =>
    JObject
      (fold_left (fun acc kv => assign (fst kv) (snd kv) acc)
         (own_props args) (own_props options));
  JSON_stringify := fun v => bindC (toString v) (fun s => Normal (JString s))
|}.

End Protocol.

(* ================================================================== *)
(** ** Module [ng2-rike/rike] *)
(* ================================================================== *)

Module Target.
Import JS Event.

(** An observer handed to the subscribe function of a wrapped response, by
    what its three callbacks do when called: return ([None]) or throw.  (They
    are taken not to call the target themselves.) *)
Record Observer : Type := mkObserver {
  observer_id : nat;
  next_throws : Any -> option Any;
  error_throws : Any -> option Any;
  complete_throws : option Any
}.

(** A response observable of the transport, by reference. *)
Definition Observable : Type := nat.

(** The subscription [response.subscribe(...)] returns.  Its three callbacks
    close over the operation and the observer of the wrapped response. *)
Record Subscription : Type := mkSubscription {
  sub_response : Observable;
  sub_operation : RikeOperation;
  sub_observer : Observer
}.

(** The calls the target's emitter took: [emit(event)] and [error(event)]. *)
Inductive Signal : Type :=
| Emit (e : RikeEvent)
| Error (e : RikeEvent).

Definition is_Error (s : Signal) : bool :=
  match s with
  | Error _ => true
  | Emit _ => false
  end.

Definition event_of (s : Signal) : RikeEvent :=
  match s with
  | Emit e => e
  | Error e => e
  end.

(** The calls made on observers, on subscriptions and on the console. *)
Inductive Delivery : Type :=
| ObserverNext (observer : nat) (value : Any)
| ObserverError (observer : nat) (error : Any)
| ObserverComplete (observer : nat)
| Unsubscribe (response : Observable)
| ConsoleError (message : string) (error : Any).

(** [RikeTargetImpl].  The emitter [_rikeEvents] is the list of the calls it
    took, the oldest first: an [EventEmitter] is terminated by the first
    [error(event)] it takes, and every later call on it throws.  (Its
    subscribers are taken to return.)  [delivered] lists the calls made on
    observers, on subscriptions and on the console. *)
Record RikeTargetImpl : Type := mkTarget {
  _uniqueId : string;
  _protocol : ref;
  _baseUrl : option string;
  _rikeEvents : list Signal;
  _operation : option RikeEvent;
  _response : option Observable;
  _observer : option Observer;
  _subscr : option Subscription;
  delivered : list Delivery
}.

(** Methods of the target: they change the target, and return or throw. *)
Definition M (A : Type) : Type := RikeTargetImpl -> Completion Any A * RikeTargetImpl.

Definition ret {A} (a : A) : M A := fun t => (Normal a, t).

Definition throw {A} (e : Any) : M A := fun t => (Throw e, t).

Definition bind {A B} (m : M A) (k : A -> M B) : M B :=
  fun t =>
    match m t with
    | (Normal a, t') => k a t'
    | (Throw e, t') => (Throw e, t')
    end.

Notation "x <- m ;; k" := (bind m (fun x => k))
  (at level 61, m at next level, right associativity).
Notation "m ;; k" := (bind m (fun _ => k))
  (at level 61, right associativity).

(** [try { body } catch (e) { handler }]. *)
Definition try_catch {A} (body : M A) (handler : Any -> M A) : M A :=
  fun t =>
    match body t with
    | (Normal a, t') => (Normal a, t')
    | (Throw e, t') => handler e t'
    end.

(** [try { body } finally { final }]. *)
Definition try_finally {A} (body : M A) (final : M unit) : M A :=
  fun t =>
    let '(r, t') := body t in
    match final t' with
    | (Normal _, t'') => (r, t'')
    | (Throw e, t'') => (Throw e, t'')
    end.

Definition lift {A} (r : Result A) : M A :=
  fun t =>
    match r with
    | Normal a => (Normal a, t)
    | Throw e => (Throw (Val e), t)
    end.

Definition gets {A} (field : RikeTargetImpl -> A) : M A := fun t => (Normal (field t), t).

Definition set_operation (v : option RikeEvent) : M unit :=
  fun t => (Normal tt,
            mkTarget (_uniqueId t) (_protocol t) (_baseUrl t) (_rikeEvents t)
              v (_response t) (_observer t) (_subscr t) (delivered t)).

Definition set_response (v : option Observable) : M unit :=
  fun t => (Normal tt,
            mkTarget (_uniqueId t) (_protocol t) (_baseUrl t) (_rikeEvents t)
              (_operation t) v (_observer t) (_subscr t) (delivered t)).

Definition set_observer (v : option Observer) : M unit :=
  fun t => (Normal tt,
            mkTarget (_uniqueId t) (_protocol t) (_baseUrl t) (_rikeEvents t)
              (_operation t) (_response t) v (_subscr t) (delivered t)).

Definition set_subscr (v : option Subscription) : M unit :=
  fun t => (Normal tt,
            mkTarget (_uniqueId t) (_protocol t) (_baseUrl t) (_rikeEvents t)
              (_operation t) (_response t) (_observer t) v (delivered t)).

Definition signal (s : Signal) : M unit :=
  fun t => (Normal tt,
            mkTarget (_uniqueId t) (_protocol t) (_baseUrl t)
              (_rikeEvents t ++ [s])
              (_operation t) (_response t) (_observer t) (_subscr t)
              (delivered t)).

Definition deliver (d : Delivery) : M unit :=
  fun t => (Normal tt,
            mkTarget (_uniqueId t) (_protocol t) (_baseUrl t) (_rikeEvents t)
              (_operation t) (_response t) (_observer t) (_subscr t)
              (delivered t ++ [d])).

(** The emitter is closed once it took an error. *)
Definition closed (t : RikeTargetImpl) : bool :=
  existsb is_Error (_rikeEvents t).

(** What a call on a closed emitter throws. *)
Definition ObjectUnsubscribedError : Any :=
  Val (JObject [("name", JString "ObjectUnsubscribedError");
                ("message", JString "object unsubscribed")]).

(** [this._rikeEvents.emit(event)] and [this._rikeEvents.error(event)]. *)
Definition rikeEvents_emit (e : RikeEvent) : M unit :=
  c <- gets closed ;;
  if c then throw ObjectUnsubscribedError else signal (Emit e).

Definition rikeEvents_error (e : RikeEvent) : M unit :=
  c <- gets closed ;;
  if c then throw ObjectUnsubscribedError else signal (Error e).

Definition raise_if (outcome : option Any) : M unit :=
  match outcome with
  | Some e => throw e
  | None => ret tt
  end.

(** [observer.next(value)], [observer.error(error)], [observer.complete()]. *)
Definition observer_next (o : Observer) (value : Any) : M unit :=
  deliver (ObserverNext (observer_id o) value) ;; raise_if (next_throws o value).

Definition observer_error (o : Observer) (error : Any) : M unit :=
  deliver (ObserverError (observer_id o) error) ;; raise_if (error_throws o error).

Definition observer_complete (o : Observer) : M unit :=
  deliver (ObserverComplete (observer_id o)) ;; raise_if (complete_throws o).

(** [subscr.unsubscribe()]. *)
Definition unsubscribe (s : Subscription) : M unit :=
  deliver (Unsubscribe (sub_response s)).

Definition undefined_read : Any :=
  Val (TypeError "Cannot read property of undefined").

(** [this._operation.operation] and [this._observer], where the source reads
    them without a test. *)
Definition this_operation : M RikeOperation :=
  e <- gets _operation ;;
  match e with
  | Some ev => ret (operation ev)
  | None => throw undefined_read
  end.

Definition this_observer : M Observer :=
  o <- gets _observer ;;
  match o with
  | Some obs => ret obs
  | None => throw undefined_read
  end.

(** The getter [currentOperation]. *)
Definition currentOperation (t : RikeTargetImpl) : option RikeOperation :=
  match _operation t with
  | Some ev => Some (operation ev)
  | None => None
  end.

Definition _cancel (cause : Any) : M bool :=
  op <- gets _operation ;;
  match op with
  | None => ret false
  | Some _ =>
      set_response None ;;
      try_finally
        (obs <- gets _observer ;;
         match obs with
         | None => ret tt
         | Some _ =>
             try_finally
               (try_catch
                  (o <- this_operation ;;
                   let cancel := new_RikeCancelEvent o cause in
                   observer <- this_observer ;;
                   observer_error observer (Ev cancel) ;;
                   rikeEvents_error cancel)
                  (fun e =>
                     o <- this_operation ;;
                     rikeEvents_error (RikeErrorEvent o e) ;;
                     throw e))
               (set_operation None ;;
                try_finally
                  (observer <- this_observer ;; observer_complete observer)
                  (set_observer None))
         end)
        (s <- gets _subscr ;;
         match s with
         | Some subscr => unsubscribe subscr ;; set_subscr None
         | None => ret tt
         end) ;;
      ret true
  end.

Definition cancel : M bool := _cancel undefined.

Definition startOperation (operation : RikeOperation) : M unit :=
  let event := RikeOperationEvent operation in
  _cancel (Ev event) ;;
  rikeEvents_emit event ;;
  set_operation (Some event).

(** The observable [wrapResponse] returns: subscribing to it runs
    [subscribe_wrapped] with the operation and the response it closes over. *)
Record Wrapped : Type := mkWrapped {
  wrapped_operation : RikeOperation;
  wrapped_response : Observable
}.

Definition wrapResponse (operation : RikeOperation) (response : Observable)
  : M Wrapped :=
  set_response (Some response) ;;
  ret (mkWrapped operation response).

Definition same_response (r : option Observable) (response : Observable) : bool :=
  match r with
  | Some r' => Nat.eqb r' response
  | None => false
  end.

(** The subscribe function of the wrapped observable, for a transport that
    calls none of the three handlers below before [response.subscribe]
    returned: it delivers the response later. *)
Definition subscribe_wrapped (w : Wrapped) (responseObserver : Observer) : M unit :=
  r <- gets _response ;;
  if negb (same_response r (wrapped_response w)) then
    ret tt (* Another request already initiated *)
  else
    set_observer (Some responseObserver) ;;
    set_subscr
      (Some (mkSubscription (wrapped_response w) (wrapped_operation w)
               responseObserver)).

Definition cleanup : M unit :=
  set_response None ;;
  set_operation None ;;
  s <- gets _subscr ;;
  match s with
  | Some subscr => unsubscribe subscr ;; set_subscr None
  | None => ret tt
  end.

Definition on_next (st : Protocol.Store) (s : Subscription) (httpResponse : JSValue)
  : M unit :=
  let operation := sub_operation s in
  try_catch
    (response_1 <- lift (Protocol.readResponse st (op_protocol operation)
                           httpResponse) ;;
     observer_next (sub_observer s) (Val response_1) ;;
     rikeEvents_emit (RikeSuccessEvent operation (Val response_1)))
    (fun e => rikeEvents_error (RikeErrorEvent operation e)).

(** The error handler.  It first writes to the console; [target] is the
    outcome of converting the target value to a string for that message: the
    string, or what the conversion throws. *)
Definition on_error (s : Subscription) (error : Any)
    (target : Completion Any string) : M unit :=
  let operation := sub_operation s in
  text <- (fun t => (target, t)) ;;
  deliver
    (ConsoleError ("[" ++ text ++ "] " ++ op_name operation ++ " failed") error) ;;
  try_finally
    (try_catch
       (observer_error (sub_observer s) error ;;
        rikeEvents_emit (RikeErrorEvent operation error))
       (fun e => rikeEvents_error (RikeErrorEvent operation e)))
    cleanup.

Definition on_complete (s : Subscription) : M unit :=
  let operation := sub_operation s in
  try_finally
    (try_catch
       (observer_complete (sub_observer s))
       (fun e => rikeEvents_error (RikeErrorEvent operation e)))
    cleanup.

(** The template of the verb methods of [RikeOperationImpl] ([load], [send],
    [get], [post], [put], [delete], [patch], [head]).  [setup] is the outcome
    of what the method does between [startOperation] and [wrapResponse]
    ([requestOptions], [writeRequest], [requestUrl] and the call of the
    transport, none of which touches the target): the response observable, or
    the exception thrown. *)
Definition verb (operation : RikeOperation) (setup : Completion Any Observable)
  : M Wrapped :=
  try_catch
    (startOperation operation ;;
     response <- (fun t => (setup, t)) ;;
     wrapResponse operation response)
    (fun e => rikeEvents_error (RikeErrorEvent operation e) ;; throw e).

(** [new RikeTargetImpl(rike, internals, target, protocol)]. *)
Definition new_RikeTargetImpl (uniqueId : string) (protocol : ref) : RikeTargetImpl :=
  mkTarget uniqueId protocol None [] None None None None [].

(** [RikeTargetImpl.prototype.operation]. *)
Definition operation (st : Protocol.Store) (t : RikeTargetImpl) (name : string)
    (protocol : option ref) : Protocol.Store * RikeOperation :=
  match protocol with
  | None => (st, mkOperation (_uniqueId t) name (_protocol t))
  | Some p =>
      if Nat.eqb (_protocol t) Protocol.HTTP_PROTOCOL
      then (st, mkOperation (_uniqueId t) name p)
      else
        let '(st', q) :=
          Protocol.alloc st
            (Protocol.PrepareRequestProtocol p
               (Protocol.TargetPrepare (_protocol t)) false
               (Protocol.handleError st p)) in
        (st', mkOperation (_uniqueId t) name q)
  end.

(** What happens to a target, one call after the other. *)
Inductive Action : Type :=
| Invoke (operation : RikeOperation) (setup : Completion Any Observable)
| Subscribe (w : Wrapped) (responseObserver : Observer)
| Next (s : Subscription) (httpResponse : JSValue)
| Fail (s : Subscription) (error : Any) (target : Completion Any string)
| Complete (s : Subscription)
| Cancel.

Definition step (st : Protocol.Store) (a : Action) (t : RikeTargetImpl)
  : RikeTargetImpl :=
  match a with
  | Invoke operation setup => snd (verb operation setup t)
  | Subscribe w responseObserver => snd (subscribe_wrapped w responseObserver t)
  | Next s httpResponse => snd (on_next st s httpResponse t)
  | Fail s error target => snd (on_error s error target t)
  | Complete s => snd (on_complete s t)
  | Cancel => snd (cancel t)
  end.

Definition run (st : Protocol.Store) (actions : list Action) (t : RikeTargetImpl)
  : RikeTargetImpl :=
  fold_left (fun t a => step st a t) actions t.

Definition is_Subscribe (a : Action) : bool :=
  match a with
  | Subscribe _ _ => true
  | _ => false
  end.

(** The number of cancel events among the calls on an emitter. *)
Definition count_cancel (signals : list Signal) : nat :=
  List.length (filter (fun s => Event.cancel (event_of s)) signals).

(** The calls a method makes on the emitter of the target it runs on. *)
Definition emitted_by {A} (m : M A) (t : RikeTargetImpl) : list Signal :=
  skipn (List.length (_rikeEvents t)) (_rikeEvents (snd (m t))).

(** Values for examples: a fresh target on [HTTP_PROTOCOL], two operations on
    it, an observer whose callbacks return, and the target after [load] was
    invoked, before and after the returned observable was subscribed. *)
Definition fresh_target : RikeTargetImpl :=
  new_RikeTargetImpl "1" Protocol.HTTP_PROTOCOL.

Definition load_operation : RikeOperation :=
  mkOperation "1" "load" Protocol.HTTP_PROTOCOL.

Definition save_operation : RikeOperation :=
  mkOperation "1" "save" Protocol.HTTP_PROTOCOL.

Definition quiet_observer : Observer :=
  mkObserver 0 (fun _ => None) (fun _ => None) None.

Definition loading_unsubscribed : RikeTargetImpl :=
  run Protocol.initial_store [Invoke load_operation (Normal 1)] fresh_target.

Definition loading_subscribed : RikeTargetImpl :=
  run Protocol.initial_store
    [Invoke load_operation (Normal 1);
     Subscribe (mkWrapped load_operation 1) quiet_observer]
    fresh_target.

End Target.

From Stdlib Require DecimalZ DecimalPos.

(* ================================================================== *)
(** ** What a target keeps true between calls *)
(* ================================================================== *)

Module Lifecycle.
Import Event Target.

(** A live subscription is the one of the current response, its observer is
    the attached one, and a response is only held under an operation
    record. *)
Definition consistent (t : RikeTargetImpl) : Prop :=
  match _subscr t with
  | Some s =>
      _response t = Some (sub_response s) /\ _observer t = Some (sub_observer s)
  | None => True
  end
  /\ match _response t with
     | Some _ => _operation t <> None
     | None => True
     end.

End Lifecycle.

(* ================================================================== *)
(** ** Stores of protocol objects as the combinators build them *)
(* ================================================================== *)

Module Chain.
Import Protocol.

(** The objects an object holds a reference to. *)
Definition refs (o : Obj) : list ref :=
  match o with
  | PrepareRequestProtocol p (TargetPrepare q) _ _ => [p; q]
  | PrepareRequestProtocol p (UserPrepare _) _ _ => [p]
  | WriteRequestProtocol p (UpdateRequest q _ _) _ => [p; q]
  | WriteRequestProtocol p (UserWrite _) _ => [p]
  | ReadResponseProtocol p _ _ => [p]
  | HandleErrorProtocol p _ => [p]
  | _ => []
  end.

(** What the constructors guarantee of an object built over a store: it
    refers to objects of that store, and a decorator other than
    [HandleErrorProtocol] has the [handleError] of what it decorates. *)
Definition built_on (older : Store) (o : Obj) : Prop :=
  Forall (fun r => r < List.length older) (refs o)
  /\ match o with
     | PrepareRequestProtocol p _ _ h => h = handleError older p
     | WriteRequestProtocol p _ h => h = handleError older p
     | ReadResponseProtocol p _ h => h = handleError older p
     | _ => True
     end.

Fixpoint well_formed (st : Store) : Prop :=
  match st with
  | [] => True
  | o :: older => built_on older o /\ well_formed older
  end.

End Chain.

(* ================================================================== *)
(** ** The shape of field errors *)
(* ================================================================== *)

Module Shape.
Import JS Error.

(** A list of errors as [toFieldErrors] files them under a field: an array of
    at least one error, each with a non-empty message or code. *)
Definition error_list (v : JSValue) : bool :=
  match v with
  | JArray (e :: rest) => forallb notEmptyError (e :: rest)
  | _ => false
  end.

(** Field errors: an object of at least one field, each holding such a list. *)
Definition field_errors (v : JSValue) : bool :=
  match v with
  | JObject (f :: rest) => forallb (fun kv => error_list (snd kv)) (f :: rest)
  | _ => false
  end.

(** A single error in normal form: an object whose [message] is a string and
    whose [code] is a string, [null] or [undefined]. *)
Definition normal_error (v : JSValue) : bool :=
  typeof_string (prop v "message")
  && (nullish (prop v "code") || typeof_string (prop v "code")).

(** Data whose fields can be filed in an object under their own names:
    [__proto__] is none of them (an assignment to that name sets the
    prototype of the object, not a property). *)
Definition ordinary_fields (data : JSValue) : bool :=
  match data with
  | JObject fields =>
      forallb (fun kv => negb (String.eqb (fst kv) "__proto__")) fields
  | _ => true
  end.


End Shape.

(* ================================================================== *)
(** ** Module [ng2-rike/rike]: the service *)
(* ================================================================== *)

(** [RequestMethod] of [@angular/http]. *)
Module RequestMethod.
Inductive t : Type := Get | Post | Put | Delete | Options | Head | Patch.
End RequestMethod.

Module Rike.
Import JS.

Definition REQUEST_METHODS : list (string * RequestMethod.t) :=
  [("GET", RequestMethod.Get);
   ("POST", RequestMethod.Post);
   ("PUT", RequestMethod.Put);
   ("DELETE", RequestMethod.Delete);
   ("OPTIONS", RequestMethod.Options);
   ("HEAD", RequestMethod.Head);
   ("PATCH", RequestMethod.Patch)].

Fixpoint method_named (name : string) (table : list (string * RequestMethod.t))
  : option RequestMethod.t :=
  match table with
  | [] => None
  | (k, m) :: rest => if String.eqb k name then Some m else method_named name rest
  end.

Definition upper (c : ascii) : ascii :=
  let n := nat_of_ascii c in
  if Nat.leb 97 n && Nat.leb n 122 then ascii_of_nat (n - 32) else c.

(** [s.toUpperCase()], on the characters of ASCII. *)
Fixpoint toUpperCase (s : string) : string :=
  match s with
  | EmptyString => EmptyString
  | String c s' => String (upper c) (toUpperCase s')
  end.

(** A method as the callers give it: by name, or a [RequestMethod] value. *)
Inductive MethodArg : Type :=
| ByName (name : string)
| ByValue (m : RequestMethod.t).

(** [new Error(message)]. *)
Definition new_Error (message : string) : JSValue :=
  JObject [("name", JString "Error"); ("message", JString message)].

Definition requestMethod (method : MethodArg) : Result RequestMethod.t :=
  match method with
  | ByValue m => Normal m
  | ByName name =>
      match method_named (toUpperCase name) REQUEST_METHODS with
      | Some result => Normal result
      | None => Throw (new_Error ("Unsupported HTTP request method: " ++ name))
      end
  end.

(** The name a [RequestMethod] value has in [REQUEST_METHODS]. *)
Definition name_of (m : RequestMethod.t) : string :=
  match m with
  | RequestMethod.Get => "GET"
  | RequestMethod.Post => "POST"
  | RequestMethod.Put => "PUT"
  | RequestMethod.Delete => "DELETE"
  | RequestMethod.Options => "OPTIONS"
  | RequestMethod.Head => "HEAD"
  | RequestMethod.Patch => "PATCH"
  end.

(** The characters of ASCII. *)
Fixpoint is_ascii (s : string) : bool :=
  match s with
  | EmptyString => true
  | String c s' => Nat.ltb (nat_of_ascii c) 128 && is_ascii s'
  end.

(** [RequestOptionsArgs] of [@angular/http], by its typed fields; [others]
    are the properties an options object has beside them. *)
Record RequestOptionsArgs : Type := mkOptions {
  url : option string;
  method : option MethodArg;
  search : JSValue;
  headers : JSValue;
  body : JSValue;
  withCredentials : JSValue;
  others : list (string * JSValue)
}.

(** The service, by the fields its methods use: the counter of unique ids
    and, of its options, the base URL and the default error handler. *)
Record Rike : Type := mkRike {
  _uniqueIdSeq : nat;
  baseUrl : option string;
  defaultErrorHandler : option Protocol.Hook1
}.

(** [++n] on a number that counts up from zero: beyond [2^53] the sum with
    one is rounded back to [2^53]. *)
Definition increment (n : nat) : nat :=
  if Z.ltb (Z.of_nat n) 9007199254740992 then S n else n.

(** [generateUniqueId]: ["" + ++_this._uniqueIdSeq]. *)
Definition generateUniqueId (rike : Rike) : Rike * string :=
  let n := increment (_uniqueIdSeq rike) in
  (mkRike n (baseUrl rike) (defaultErrorHandler rike),
   number_toString (Z.of_nat n)).

(** [Rike.prototype.target]. *)
Definition target (st : Protocol.Store) (rike : Rike) (protocol : option Protocol.ref)
  : Protocol.Store * Rike * Target.RikeTargetImpl :=
  let proto :=
    match protocol with
    | Some p => p
    | None => Protocol.HTTP_PROTOCOL
    end in
  let '(st', proto') :=
    match Protocol.handleError st proto with
    | Some _ => (st, proto)
    | None =>
        match defaultErrorHandler rike with
        | Some h => Protocol.handleErrorWith st proto (Some h)
        | None => (st, proto)
        end
    end in
  let '(rike', uniqueId) := generateUniqueId rike in
  (st', rike', Target.new_RikeTargetImpl uniqueId proto').

(** [Rike.prototype.json]. *)
Definition json (st : Protocol.Store) (rike : Rike)
  : Protocol.Store * Rike * Target.RikeTargetImpl :=
  target st rike (Some Protocol.JSON_PROTOCOL).

(** The targets a service creates one after the other, the first first. *)
Fixpoint targets (st : Protocol.Store) (rike : Rike)
    (protocols : list (option Protocol.ref)) : list Target.RikeTargetImpl :=
  match protocols with
  | [] => []
  | protocol :: rest =>
      let '(st', rike', t) := target st rike protocol in
      t :: targets st' rike' rest
  end.

(** [Rike.prototype.updateRequestOptions]. *)
Definition updateRequestOptions (rike : Rike) (options : option RequestOptionsArgs)
  : option RequestOptionsArgs :=
  match options with
  | None => options
  | Some o =>
      match url o with
      | Some u =>
          let newUrl := Options.relativeUrl (baseUrl rike) u in
          if negb (String.eqb newUrl u) then
            Some (mkOptions (Some newUrl) (method o) (search o) (headers o)
                    (body o) (withCredentials o) [])
          else options
      | None => options
      end
  end.

(** A base URL that is itself absolute: it begins with a slash or with
    [scheme://] or [//]. *)
Definition absolute (url : string) : bool :=
  Options.starts_with_slash url || Options.match_prefix Options.FULL_URL url.

End Rike.

(* ================================================================== *)
(** ** Module [ng2-rike/status] *)
(* ================================================================== *)

Module Status.
Import JS Event.

(** *** Objects used as maps

    The own properties of an object in the order a [for ... in] loop visits
    them: the keys that are array indices in ascending order, then the other
    keys in the order they were created.  The unique ids of targets, decimal
    numbers, are array indices. *)
Section Maps.
Context {V : Type}.

Definition digit (c : ascii) : option N :=
  let n := nat_of_ascii c in
  if Nat.leb 48 n && Nat.leb n 57 then Some (N.of_nat (n - 48)) else None.

Fixpoint digits_value (s : string) (acc : N) : option N :=
  match s with
  | EmptyString => Some acc
  | String c rest =>
      match digit c with
      | Some d => digits_value rest (10 * acc + d)
      | None => None
      end
  end.

(** The array index a key is, if it is one: a canonical decimal number below
    [2^32 - 1]. *)
Definition array_index (k : string) : option N :=
  match k with
  | EmptyString => None
  | String c rest =>
      if Ascii.eqb c "0"%char then
        if String.eqb rest "" then Some 0%N else None
      else if Nat.ltb 10 (String.length k) then None
      else
        match digits_value k 0 with
        | Some n => if N.ltb n 4294967295 then Some n else None
        | None => None
        end
  end.

Fixpoint get (k : string) (props : list (string * V)) : option V :=
  match props with
  | [] => None
  | (k', v) :: rest => if String.eqb k' k then Some v else get k rest
  end.

Fixpoint replace (k : string) (v : V) (props : list (string * V))
  : list (string * V) :=
  match props with
  | [] => []
  | (k', v') :: rest =>
      if String.eqb k' k then (k', v) :: rest else (k', v') :: replace k v rest
  end.

Fixpoint insert_index (n : N) (k : string) (v : V) (props : list (string * V))
  : list (string * V) :=
  match props with
  | [] => [(k, v)]
  | (k', v') :: rest =>
      match array_index k' with
      | Some m =>
          if N.ltb n m then (k, v) :: props
          else (k', v') :: insert_index n k v rest
      | None => (k, v) :: props
      end
  end.

(** [props[k] = v]. *)
Definition put (k : string) (v : V) (props : list (string * V))
  : list (string * V) :=
  match get k props with
  | Some _ => replace k v props
  | None =>
      match array_index k with
      | Some n => insert_index n k v props
      | None => (props ++ [(k, v)])%list
      end
  end.

End Maps.

(** *** Labels *)

(** A label: a string, or a function of the target that gives one (the target
    is given by its unique id).  The empty string is the falsy label. *)
Inductive Label : Type :=
| LabelText (text : string)
| LabelFn (labelFn : string -> string).

Record StatusLabels : Type := mkLabels {
  processing : option Label;
  failed : option Label;
  cancelled : option Label;
  succeed : option Label
}.

Definition StatusLabelMap : Type := list (string * StatusLabels).

Definition DEFAULT_STATUS_LABELS : StatusLabelMap :=
  [("*", mkLabels (Some (LabelText "Processing")) (Some (LabelText "Error"))
           (Some (LabelText "Cancelled")) None);
   ("load", mkLabels (Some (LabelText "Loading")) None None None);
   ("send", mkLabels (Some (LabelText "Sending")) None None
              (Some (LabelText "Sent")));
   ("read", mkLabels (Some (LabelText "Loading")) None None None);
   ("create", mkLabels (Some (LabelText "Creating")) None None
                (Some (LabelText "Created")));
   ("update", mkLabels (Some (LabelText "Updating")) None None
                (Some (LabelText "Updated")));
   ("delete", mkLabels (Some (LabelText "Deleting")) None None
                (Some (LabelText "Deleted")))].

(** The status of a target: its start event and, once the operation ended,
    its end event. *)
Record TargetStatus : Type := mkStatus {
  start : RikeEvent;
  end_ : option RikeEvent
}.

(** What [labelOf] returns when it returns a label: the label and the one
    flag that is set. *)
Record RikeStatusLabel : Type := mkLabel {
  label : string;
  label_processing : bool;
  label_failed : bool;
  label_cancelled : bool;
  label_succeed : bool
}.

(** The combined status. *)
Record CombinedStatus : Type := mkCombined {
  combined_labels : list string;
  combined_processing : bool;
  combined_failed : bool;
  combined_cancelled : bool;
  combined_succeed : bool
}.

(** [evalLabel]; [None] stands for a falsy result. *)
Definition evalLabel (status : TargetStatus) (l : option Label) : option string :=
  match l with
  | None => None
  | Some (LabelText text) => if String.eqb text "" then None else Some text
  | Some (LabelFn labelFn) =>
      let text := labelFn (Event.target (start status)) in
      if String.eqb text "" then None else Some text
  end.

(** [a || b] on labels. *)
Definition or_else {A} (a b : option A) : option A :=
  match a with
  | Some _ => a
  | None => b
  end.

(** [labelOf].  A status that has no end event of its own reads [status.end]
    from its prototype, [Object.prototype]: [inherited_end] is the property
    [end] of that object, if it has been given one. *)
Definition labelOf (inherited_end : option RikeEvent) (status : TargetStatus)
    (labels : option StatusLabels) : option RikeStatusLabel :=
  match labels with
  | None => None
  | Some labels =>
      match or_else (end_ status) inherited_end with
      | None =>
          match evalLabel status (processing labels) with
          | Some text => Some (mkLabel text true false false false)
          | None => None
          end
      | Some e =>
          if Event.cancel e then
            match evalLabel status (cancelled labels) with
            | Some text => Some (mkLabel text false false true false)
            | None => None
            end
          else if Event.truthy (Event.error e) then
            match evalLabel status (failed labels) with
            | Some text => Some (mkLabel text false true false false)
            | None => None
            end
          else
            match evalLabel status (succeed labels) with
            | Some text => Some (mkLabel text false false false true)
            | None => None
            end
      end
  end.

Fixpoint mem (l : string) (labels : list string) : bool :=
  match labels with
  | [] => false
  | l' :: rest => String.eqb l' l || mem l rest
  end.

Definition combineLabels (combined : option CombinedStatus)
    (l : option RikeStatusLabel) : option CombinedStatus :=
  match l with
  | None => combined
  | Some l =>
      let lbl := label l in
      match combined with
      | None =>
          Some (mkCombined [lbl] (label_processing l) (label_failed l)
                  (label_cancelled l) (label_succeed l))
      | Some c =>
          let labels :=
            if mem lbl (combined_labels c) then combined_labels c
            else (combined_labels c ++ [lbl])%list in
          Some (mkCombined labels
                  (combined_processing c || label_processing l)
                  (combined_failed c || label_failed l)
                  (combined_cancelled c || label_cancelled l)
                  (combined_succeed c || label_succeed l))
      end
  end.

(** [RikeStatus].

    [_targetStatuses] holds the own properties of the object of that name,
    and [_targetStatuses_proto] its prototype once an assignment to the key
    [__proto__] has replaced it; until then the prototype is
    [Object.prototype].  [Object_prototype_end] is the property [end] of
    [Object.prototype], which an assignment through that key can create; it
    is shared by all objects of the program, and is followed here for the
    status that assigns it.

    [_labels] is read at given keys only, and the values the library finds
    there are used for their four labels.  What such a read finds up the
    prototype chain (a member of [Object.prototype], or a label of the
    labels an assignment to [__proto__] has made the prototype) has none of
    the four, like an absent entry, and a read of [__proto__] finds the
    labels assigned to it: so the list of the assignments stands for that
    object at every key. *)
Record RikeStatus : Type := mkRikeStatus {
  _targetStatuses : list (string * TargetStatus);
  _targetStatuses_proto : option TargetStatus;
  _labels : StatusLabelMap;
  _combined : option CombinedStatus;
  Object_prototype_end : option RikeEvent
}.

Definition new_RikeStatus : RikeStatus := mkRikeStatus [] None [] None None.

(** [withLabels(labels)] and [withLabels(operation, labels)]. *)
Definition withLabels (operation : option string) (labels : StatusLabels)
    (this : RikeStatus) : RikeStatus :=
  let id := match operation with Some op => op | None => "*" end in
  mkRikeStatus (_targetStatuses this) (_targetStatuses_proto this)
    (put id labels (_labels this)) None (Object_prototype_end this).

(** What [this._targetStatuses[uniqueId]] reads: an own property; the
    prototype of the object, at the key [__proto__]; a property found up the
    prototype chain, which is an object or a function; or [undefined]. *)
Inductive Slot : Type :=
| Own (targetStatus : TargetStatus)
| Prototype
| Inherited
| Undefined.

(** The keys found up the prototype chain: the members of [Object.prototype],
    with [end] when it has been created there, and the properties of the
    status that replaced the prototype. *)
Definition up_the_chain (this : RikeStatus) (key : string) : bool :=
  JS.inherited key
  || (String.eqb key "end"
      && match Object_prototype_end this with Some _ => true | None => false end)
  || match _targetStatuses_proto this with
     | Some p =>
         String.eqb key "start"
         || (String.eqb key "end"
             && match end_ p with Some _ => true | None => false end)
     | None => false
     end.

Definition read (uniqueId : string) (this : RikeStatus) : Slot :=
  match get uniqueId (_targetStatuses this) with
  | Some targetStatus => Own targetStatus
  | None =>
      if String.eqb uniqueId "__proto__" then Prototype
      else if up_the_chain this uniqueId then Inherited
      else Undefined
  end.

(** [this._targetStatuses[uniqueId] = status]: at the key [__proto__] the
    assignment replaces the prototype, at every other key it sets an own
    property. *)
Definition store (uniqueId : string) (status : TargetStatus)
    (this : RikeStatus) : RikeStatus :=
  if String.eqb uniqueId "__proto__" then
    mkRikeStatus (_targetStatuses this) (Some status) (_labels this)
      (_combined this) (Object_prototype_end this)
  else
    mkRikeStatus (put uniqueId status (_targetStatuses this))
      (_targetStatuses_proto this) (_labels this) (_combined this)
      (Object_prototype_end this).

(** [targetStatus.end = event] on what was read at [uniqueId].  On the
    prototype it changes the status that replaced it, or [Object.prototype]
    itself; on another inherited value (a function, or an event) it changes
    nothing the status reads. *)
Definition set_end (uniqueId : string) (slot : Slot) (event : RikeEvent)
    (this : RikeStatus) : RikeStatus :=
  match slot with
  | Own targetStatus =>
      mkRikeStatus
        (put uniqueId (mkStatus (start targetStatus) (Some event))
           (_targetStatuses this))
        (_targetStatuses_proto this) (_labels this) (_combined this)
        (Object_prototype_end this)
  | Prototype =>
      match _targetStatuses_proto this with
      | Some p =>
          mkRikeStatus (_targetStatuses this)
            (Some (mkStatus (start p) (Some event))) (_labels this)
            (_combined this) (Object_prototype_end this)
      | None =>
          mkRikeStatus (_targetStatuses this) None (_labels this)
            (_combined this) (Some event)
      end
  | Inherited => this
  | Undefined => this
  end.

Definition applyEvent (event : RikeEvent) (this : RikeStatus) : RikeStatus :=
  let this :=
    mkRikeStatus (_targetStatuses this) (_targetStatuses_proto this)
      (_labels this) None (Object_prototype_end this) in
  let uniqueId := Event.target event in
  if negb (Event.complete event) then
    store uniqueId (mkStatus event None) this
  else
    match read uniqueId this with
    | Undefined => store uniqueId (mkStatus event (Some event)) this
    | targetStatus => set_end uniqueId targetStatus event this
    end.

(** [combined && combined.flag || false] and [combined && combined.labels || []]
    of a combined status. *)
Definition flag_of (f : CombinedStatus -> bool) (c : option CombinedStatus)
  : bool :=
  match c with
  | Some c => f c
  | None => false
  end.

Definition labels_of (c : option CombinedStatus) : list string :=
  match c with
  | Some c => combined_labels c
  | None => []
  end.

Section Services.

(** [target.rike.options.defaultStatusLabels] of the target with the given
    unique id: the default labels of the service the target belongs to, when
    its options give some.  (An event gives its target by the unique id, so
    the targets a status follows are taken to differ in it, as the targets
    of one service do.) *)
Variable defaultStatusLabels : string -> option StatusLabelMap.

Definition labelFor (this : RikeStatus) (status : TargetStatus)
  : option RikeStatusLabel :=
  let operationName := op_name (Event.operation (start status)) in
  let labelOf := labelOf (Object_prototype_end this) in
  let l :=
    or_else (labelOf status (get operationName (_labels this)))
      (labelOf status (get "*" (_labels this))) in
  match l with
  | Some _ => l
  | None =>
      let defaultLabels :=
        match defaultStatusLabels (Event.target (start status)) with
        | Some labels => labels
        | None => DEFAULT_STATUS_LABELS
        end in
      or_else (labelOf status (get operationName defaultLabels))
        (labelOf status (get "*" defaultLabels))
  end.

(** The loop of the getter [combined] over the own properties. *)
Definition combine_loop (this : RikeStatus) : option CombinedStatus :=
  fold_left (fun combined entry => combineLabels combined (labelFor this (snd entry)))
    (_targetStatuses this) None.

(** The loop with its calls of [this._targetStatuses.hasOwnProperty]: what
    that name finds is a status, and no function, once the object has an own
    property of that name. *)
Definition combine_all (this : RikeStatus) : Result (option CombinedStatus) :=
  match get "hasOwnProperty" (_targetStatuses this) with
  | Some _ =>
      Throw (TypeError "this._targetStatuses.hasOwnProperty is not a function")
  | None => Normal (combine_loop this)
  end.

(** The getter [combined]: it returns the combined status and remembers it. *)
Definition combined (this : RikeStatus)
  : Result (option CombinedStatus) * RikeStatus :=
  match _combined this with
  | Some c => (Normal (Some c), this)
  | None =>
      match combine_all this with
      | Normal c =>
          (Normal c,
           mkRikeStatus (_targetStatuses this) (_targetStatuses_proto this)
             (_labels this) c (Object_prototype_end this))
      | Throw e => (Throw e, this)
      end
  end.

Definition get_labels (this : RikeStatus) : Result (list string) :=
  bindC (fst (combined this)) (fun c => Normal (labels_of c)).

Definition flag (f : CombinedStatus -> bool) (this : RikeStatus) : Result bool :=
  bindC (fst (combined this)) (fun c => Normal (flag_of f c)).

Definition get_processing : RikeStatus -> Result bool := flag combined_processing.
Definition get_failed : RikeStatus -> Result bool := flag combined_failed.
Definition get_cancelled : RikeStatus -> Result bool := flag combined_cancelled.
Definition get_succeed : RikeStatus -> Result bool := flag combined_succeed.

(** What is done to a status, one call after the other; [ReadCombined] is a
    read of [combined] or of one of the getters built on it, which leave the
    status as that read does. *)
Inductive Call : Type :=
| ApplyEvent (event : RikeEvent)
| WithLabels (operation : option string) (labels : StatusLabels)
| ReadCombined.

Definition call (c : Call) (this : RikeStatus) : RikeStatus :=
  match c with
  | ApplyEvent event => applyEvent event this
  | WithLabels operation labels => withLabels operation labels this
  | ReadCombined => snd (combined this)
  end.

Definition calls (cs : list Call) (this : RikeStatus) : RikeStatus :=
  fold_left (fun s c => call c s) cs this.

(** The getter [text] of [RikeStatusComponent], with the label text it has
    by default ([label.toString()]). *)
Definition text (this : RikeStatus) : Result (option string) :=
  bindC (get_labels this) (fun labels =>
  let this := snd (combined this) in
  match labels with
  | [] => Normal None
  | _ =>
      let text :=
        fold_left
          (fun text l =>
             (if String.eqb text "" then text else text ++ ", ") ++ l)
          labels "" in
      bindC (get_processing this) (fun processing =>
      Normal (Some (if processing then text ++ "..." else text)))
  end).

End Services.

(** The calls whose events are of targets with ids of their own: the unique
    id is no member of [Object.prototype] (as the ids a service gives, which
    are numbers). *)
Definition regular (c : Call) : bool :=
  match c with
  | ApplyEvent event => negb (JS.inherited (Event.target event))
  | _ => true
  end.

(** The events applied by a list of calls, and the last of them that is of a
    given target. *)
Definition applied (cs : list Call) : list RikeEvent :=
  flat_map (fun c => match c with ApplyEvent e => [e] | _ => [] end) cs.

Definition last_for (uniqueId : string) (events : list RikeEvent)
  : option RikeEvent :=
  find (fun e => String.eqb (Event.target e) uniqueId) (rev events).

(** The start event of a target after a list of events: the last start
    event of the target or, when it has none, its first event; and the
    status of the target: that start event, with the last event of the
    target as end event when it is a complete event. *)
Definition start_for (uniqueId : string) (events : list RikeEvent)
  : option RikeEvent :=
  match
    find (fun e => String.eqb (Event.target e) uniqueId
                   && negb (Event.complete e)) (rev events)
  with
  | Some e => Some e
  | None => find (fun e => String.eqb (Event.target e) uniqueId) events
  end.

Definition status_for (uniqueId : string) (events : list RikeEvent)
  : option TargetStatus :=
  match last_for uniqueId events, start_for uniqueId events with
  | Some e, Some e0 =>
      Some (mkStatus e0 (if Event.complete e then Some e else None))
  | _, _ => None
  end.

(** What a status holds of its targets after a list of events: the keys are
    distinct, the prototypes are untouched, and the entry of a target is its
    status after the events. *)
Definition follows (events : list RikeEvent) (s : RikeStatus) : Prop :=
  NoDup (map fst (_targetStatuses s))
  /\ _targetStatuses_proto s = None
  /\ Object_prototype_end s = None
  /\ forall id, get id (_targetStatuses s) = status_for id events.

End Status.

(* ================================================================== *)
(** * Theorems *)
(* ================================================================== *)

(** ** [relativeUrl] *)

Section RelativeUrl.
Import Options.

Lemma append_split_empty (s1 s2 : string) : s1 ++ s2 = "" -> s1 = "" /\ s2 = "".
Proof. destruct s1; simpl; [auto | discriminate]. Qed.

Lemma append_assoc (s1 s2 s3 : string) : (s1 ++ s2) ++ s3 = s1 ++ (s2 ++ s3).
Proof. induction s1 as [|c s1 IH]; simpl; [reflexivity | now rewrite IH]. Qed.

Lemma nullable_Matches (r : regex) : nullable r = true -> Matches r "".
Proof.
  induction r; simpl; intro E; try discriminate.
  - constructor.
  - apply andb_true_iff in E as [E1 E2].
    change "" with ("" ++ ""). constructor; auto.
  - apply orb_true_iff in E as [E|E]; [apply MAltL | apply MAltR]; auto.
  - constructor.
Qed.

Lemma Matches_nullable (r : regex) (s : string) :
  Matches r s -> s = "" -> nullable r = true.
Proof.
  induction 1; simpl; intro E; try discriminate; auto.
  - apply append_split_empty in E as [E1 E2].
    rewrite IHMatches1, IHMatches2; auto.
  - rewrite IHMatches; auto.
  - rewrite IHMatches, orb_true_r; auto.
Qed.

Lemma deriv_sound (a : ascii) (r : regex) :
  forall s, Matches (deriv a r) s -> Matches r (String a s).
Proof.
  induction r; simpl; intros s M.
  - inversion M.
  - inversion M.
  - destruct (Ascii.eqb_spec a c) as [->|N]; inversion M; subst. constructor.
  - destruct (p a) eqn:E; inversion M; subst. now constructor.
  - assert (S1 : forall s, Matches (Seq (deriv a r1) r2) s ->
                           Matches (Seq r1 r2) (String a s)).
    { intros s' M'. inversion M'; subst.
      change (String a (s1 ++ s2)) with (String a s1 ++ s2).
      constructor; auto. }
    destruct (nullable r1) eqn:E; [|auto].
    inversion M; subst; [auto|].
    change (String a s) with ("" ++ String a s).
    constructor; [apply nullable_Matches; auto | auto].
  - inversion M; subst; [apply MAltL | apply MAltR]; auto.
  - inversion M; subst.
    change (String a (s1 ++ s2)) with (String a s1 ++ s2).
    constructor; auto.
Qed.

Lemma deriv_complete (r : regex) (s' : string) :
  Matches r s' ->
  forall a t, s' = String a t -> Matches (deriv a r) t.
Proof.
  induction 1; intros a t E; simpl.
  - discriminate.
  - injection E as -> <-. rewrite Ascii.eqb_refl. constructor.
  - injection E as -> <-. rewrite H. constructor.
  - destruct s1 as [|c s1]; simpl in E.
    + subst s2. rewrite (Matches_nullable _ _ H eq_refl).
      apply MAltR. eapply IHMatches2; reflexivity.
    + injection E as -> <-.
      assert (M : Matches (Seq (deriv a r1) r2) (s1 ++ s2)).
      { constructor; [eapply IHMatches1; reflexivity | auto]. }
      destruct (nullable r1); [apply MAltL|]; exact M.
  - apply MAltL. eauto.
  - apply MAltR. eauto.
  - discriminate.
  - destruct s1 as [|c s1]; simpl in E.
    + subst s2. apply (IHMatches2 a t eq_refl).
    + injection E as -> <-.
      constructor; [eapply IHMatches1; reflexivity | auto].
Qed.

Lemma match_prefix_spec (s : string) :
  forall r, match_prefix r s = true <-> exists p q, s = p ++ q /\ Matches r p.
Proof.
  induction s as [|c s IH]; intro r; simpl.
  - rewrite orb_false_r. split.
    + intro N. exists "", "". split; [reflexivity | now apply nullable_Matches].
    + intros (p & q & E & M). symmetry in E.
      apply append_split_empty in E as [-> _].
      eapply Matches_nullable; eauto.
  - rewrite orb_true_iff, IH. split.
    + intros [N | (p & q & -> & M)].
      * exists "", (String c s). split; [reflexivity | now apply nullable_Matches].
      * exists (String c p), q. split; [reflexivity | now apply deriv_sound].
    + intros (p & q & E & M). destruct p as [|c' p]; simpl in E.
      * left. eapply Matches_nullable; eauto.
      * injection E as <- ->. right. exists p, q. split; [reflexivity|].
        eapply deriv_complete; eauto.
Qed.

Lemma Matches_word_star (w : string) :
  Matches (Star (Cls is_word)) w <-> all_word w = true.
Proof.
  split.
  - intro M. remember (Star (Cls is_word)) as r eqn:R.
    induction M; try discriminate; [reflexivity|].
    injection R as ->. specialize (IHM2 eq_refl).
    inversion M1; subst. simpl. now rewrite H0, IHM2.
  - induction w as [|c w IH]; simpl; intro A; [constructor|].
    apply andb_true_iff in A as [A1 A2].
    change (String c w) with (String c "" ++ w).
    constructor; [now constructor | auto].
Qed.

Lemma FULL_URL_words (p : string) :
  Matches FULL_URL p <->
  p = "//" \/ exists scheme, all_word scheme = true /\ p = scheme ++ "://".
Proof.
  unfold FULL_URL, Opt. split.
  - intro M. inversion M as [| | |? ? s1 s2 M1 M2| | | |]; subst.
    assert (E2 : s2 = "//").
    { inversion M2 as [| | |? ? a b Ma Mb| | | |]; subst.
      inversion Ma; inversion Mb; subst. reflexivity. }
    subst s2. inversion M1 as [| | | |? ? ? ML|? ? ? MR| |]; subst.
    + right. inversion ML as [| | |? ? w c Mw Mc| | | |]; subst.
      inversion Mc; subst. exists w. split.
      * now apply Matches_word_star.
      * now rewrite append_assoc.
    + left. inversion MR; subst. reflexivity.
  - intros [-> | (w & A & ->)].
    + change "//" with ("" ++ "//"). constructor.
      * apply MAltR. constructor.
      * change "//" with ("/" ++ "/"). constructor; constructor.
    + change (w ++ "://") with (w ++ (":" ++ "//")). rewrite <- append_assoc.
      constructor.
      * apply MAltL. constructor; [now apply Matches_word_star | constructor].
      * change "//" with ("/" ++ "/"). constructor; constructor.
Qed.

(** The literal of the source accepts exactly the URLs the specification
    calls scheme-prefixed or protocol-relative. *)
Lemma full_url_spec (url : string) :
  match_prefix FULL_URL url = true <-> scheme_prefixed url \/ protocol_relative url.
Proof.
  rewrite match_prefix_spec. unfold scheme_prefixed, protocol_relative. split.
  - intros (p & q & -> & M). apply FULL_URL_words in M as [-> | (w & A & ->)].
    + right. exists q. reflexivity.
    + left. exists w, q. split; [auto|]. now rewrite append_assoc.
  - intros [(w & rest & A & ->) | (rest & ->)].
    + exists (w ++ "://"), rest. split; [now rewrite append_assoc|].
      apply FULL_URL_words. right. eauto.
    + exists "//", rest. split; [reflexivity|].
      apply FULL_URL_words. now left.
Qed.

End RelativeUrl.

(** C9.  For every base URL and URL, [relativeUrl] returns the URL unchanged
    when the base is undefined or empty, when the URL begins with a slash, or
    when the URL is scheme-prefixed ([scheme://...]) or protocol-relative
    ([//...]); in every other case it returns [base + "/" + url].  The four
    examples of the specification are instances. *)
Theorem relativeUrl_rule (baseUrl : option string) (url : string) :
  (((Options.not_baseUrl baseUrl = true
     \/ Options.starts_with_slash url = true
     \/ Options.scheme_prefixed url
     \/ Options.protocol_relative url)
    /\ Options.relativeUrl baseUrl url = url)
   \/
   (exists b,
      baseUrl = Some b /\ b <> ""
      /\ Options.starts_with_slash url = false
      /\ ~ Options.scheme_prefixed url
      /\ ~ Options.protocol_relative url
      /\ Options.relativeUrl baseUrl url = b ++ "/" ++ url))
  /\ Options.relativeUrl (Some "/api") "users" = "/api/users"
  /\ Options.relativeUrl (Some "/api") "/users" = "/users"
  /\ Options.relativeUrl (Some "/api") "http://x/y" = "http://x/y"
  /\ Options.relativeUrl None "users" = "users".
Proof.
  split; [|repeat split; reflexivity].
  unfold Options.relativeUrl, Options.not_baseUrl.
  destruct baseUrl as [b|]; [|left; auto].
  destruct (String.eqb_spec b "") as [->|Nb]; [left; auto|].
  destruct (Options.starts_with_slash url) eqn:S; [left; auto|].
  destruct (Options.match_prefix Options.FULL_URL url) eqn:F.
  - left. split; [|reflexivity].
    apply full_url_spec in F. tauto.
  - right. exists b. repeat split; auto.
    + intro P. assert (T : Options.match_prefix Options.FULL_URL url = true)
        by (apply full_url_spec; auto).
      congruence.
    + intro P. assert (T : Options.match_prefix Options.FULL_URL url = true)
        by (apply full_url_spec; auto).
      congruence.
Qed.

(** ** [toErrorResponse] *)

Section ErrorResponses.
Import JS Error.

Lemma bindC_Normal {E A B} (c : Completion E A) (k : A -> Completion E B)
    (b : B) :
  bindC c k = Normal b -> exists a, c = Normal a /\ k a = Normal b.
Proof. destruct c as [a|e]; cbn; [eauto | discriminate]. Qed.

(** Whatever [toErrorResponse] returns is an instance of [ErrorResponse]. *)
Lemma toErrorResponse_instance (x r : JSValue) :
  toErrorResponse x = Normal r -> instanceof_ErrorResponse r = true.
Proof.
  unfold toErrorResponse, syntheticResponse.
  destruct (instanceof_ErrorResponse x) eqn:I.
  - intro E. injection E as <-. exact I.
  - destruct x; cbn [nullish negb]; try discriminate;
      try (destruct (headers r0); [|discriminate]); intro E;
      repeat first
        [ apply bindC_Normal in E; destruct E as (? & _ & E); cbv beta in E
        | match type of E with
          | (if ?c then _ else _) = _ => destruct c
          end ];
      injection E as <-; reflexivity.
Qed.

Lemma toErrorResponse_of_instance (r : JSValue) :
  instanceof_ErrorResponse r = true -> toErrorResponse r = Normal r.
Proof. unfold toErrorResponse. now intros ->. Qed.

(** C6.  [toErrorResponse] is idempotent: applying it to its own result gives
    that result again (and where the first call throws, so does the
    composition); an instance of [ErrorResponse] passes through unchanged. *)
Theorem toErrorResponse_idempotent (x : JSValue) :
  bindC (toErrorResponse x) toErrorResponse = toErrorResponse x
  /\ (forall response errors,
        toErrorResponse (JErrorResponse response errors)
        = Normal (JErrorResponse response errors)).
Proof.
  split; [|reflexivity].
  destruct (toErrorResponse x) as [r|e] eqn:E; simpl; [|reflexivity].
  apply toErrorResponse_of_instance. eapply toErrorResponse_instance; eauto.
Qed.







Lemma number_toString_nonempty (n : Z) : number_toString n <> "".
Proof.
  unfold number_toString.
  destruct (Z.to_int n) as [d|d]; [destruct d|]; simpl; discriminate.
Qed.

(** The scalars print as their string form. *)
Lemma toString_scalar (v : JSValue) :
  scalar v = true -> toString v = Normal (scalar_text v).
Proof. destruct v as [| |[|]|n|s| | | |]; try discriminate; reflexivity. Qed.

(** Among the scalars a number holds exactly only the empty string has an
    empty string form. *)
Lemma nonempty_scalar_spec (v : JSValue) :
  scalar v = true ->
  match v with JNumber n => safe_integer n = true | _ => True end ->
  (nonempty_scalar v = true <-> v <> JString "").
Proof.
  unfold nonempty_scalar. intros S N.
  destruct v as [| |[|]|n|s| | | |]; try discriminate S;
    cbn [scalar scalar_text andb].
  - split; [discriminate | reflexivity].
  - split; [discriminate | reflexivity].
  - rewrite N. split; [discriminate|]. intros _.
    rewrite andb_true_r. apply negb_true_iff, String.eqb_neq.
    apply number_toString_nonempty.
  - rewrite andb_true_r, negb_true_iff, String.eqb_neq. split; congruence.
Qed.

Lemma toFieldErrorArray_scalar (v : JSValue) :
  nonempty_scalar v = true ->
  toFieldErrorArray v
  = Normal [JObject [("message", JString (scalar_text v))]].
Proof.
  unfold nonempty_scalar. intro S.
  apply andb_true_iff in S as [S _]. apply andb_true_iff in S as [S N].
  assert (E : toFieldErrorArray v
              = Normal
                  (filter notEmptyError
                     [JObject [("message", JString (scalar_text v))]]))
    by (destruct v as [| |[|]|n|s| | | |]; try discriminate; reflexivity).
  rewrite E. unfold filter, notEmptyError.
  change (prop (JObject [("message", JString (scalar_text v))]) "message")
    with (JString (scalar_text v)).
  change (truthy (JString (scalar_text v)))
    with (negb (String.eqb (scalar_text v) "")).
  now rewrite N.
Qed.

Lemma assign_fresh (k : string) (v : JSValue) (props : list (string * JSValue)) :
  ~ In k (map fst props) -> assign k v props = (props ++ [(k, v)])%list.
Proof.
  induction props as [|[k' w] props IH]; simpl; intro N; [reflexivity|].
  destruct (String.eqb_spec k' k) as [->|Ne]; [tauto|].
  rewrite IH; tauto.
Qed.

Lemma collect_scalars (errors fields : list (string * JSValue)) :
  has_own "hasOwnProperty" errors = false ->
  forall acc b,
    NoDup (map fst acc ++ map fst fields)%list ->
    Forall (fun kv => nonempty_scalar (snd kv) = true) fields ->
    Forall (fun kv => field_name (fst kv) = true) fields ->
    collect errors fields (acc, b)
    = Normal
        ((acc ++ singleton_errors fields)%list,
         match fields with [] => b | _ => true end).
Proof.
  intro H.
  induction fields as [|[k v] fields IH]; intros acc b D S F; simpl.
  - now rewrite app_nil_r.
  - inversion S as [|? ? Sv Sf]; subst. simpl in Sv.
    inversion F as [|? ? Fk Ff]; subst. simpl in Fk.
    rewrite H, (toFieldErrorArray_scalar v Sv). cbn [bindC fst].
    assert (Nk : ~ In k (map fst acc)).
    { intro I. apply NoDup_remove_2 in D. apply D, in_or_app. now left. }
    unfold file_under, field_name in *.
    apply andb_true_iff in Fk as [_ Fp]. apply negb_true_iff in Fp.
    rewrite Fp, (assign_fresh _ _ _ Nk), IH; auto.
    + rewrite <- app_assoc. simpl. unfold singleton_error.
      destruct fields; reflexivity.
    + rewrite map_app, <- app_assoc. exact D.
Qed.

Lemma has_own_field_name (name : string) (fields : list (string * JSValue)) :
  Forall (fun kv => field_name (fst kv) = true) fields ->
  name = "hasOwnProperty" \/ name = "__proto__" ->
  has_own name fields = false.
Proof.
  intros F N. induction F as [|[k v] fields Fk Ff IH]; [reflexivity|].
  cbn [has_own]. rewrite IH, orb_false_r. unfold field_name in Fk.
  cbn [fst] in Fk. apply andb_true_iff in Fk as [A B].
  apply negb_true_iff in A, B. destruct N as [-> | ->]; assumption.
Qed.

Lemma lookup_scalar (name : string) (fields : list (string * JSValue)) :
  Forall (fun kv => nonempty_scalar (snd kv) = true) fields ->
  instanceof_Response (lookup name fields) = false.
Proof.
  induction 1 as [|[k v] fields Sv Sf IH]; simpl; [reflexivity|].
  destruct (String.eqb k name); [|exact IH].
  simpl in Sv. destruct v; try discriminate; reflexivity.
Qed.

(** C8, as the code has it.  For every plain object that maps distinct field
    names, none of them [hasOwnProperty] or [__proto__], to scalar error
    values with a non-empty string form (the numbers among them integers a
    number holds exactly), field-error extraction gives each field the
    singleton list [[{message: <the scalar as a string>}]], with no [code]
    property, and [toErrorResponse] wraps these field errors with the
    synthetic response. *)
Theorem toFieldErrors_scalar_fields (fields : list (string * JSValue)) :
  fields <> [] ->
  NoDup (map fst fields) ->
  Forall (fun kv => nonempty_scalar (snd kv) = true) fields ->
  Forall (fun kv => field_name (fst kv) = true) fields ->
  toFieldErrors (JObject fields) = Normal (JObject (singleton_errors fields))
  /\ toErrorResponse (JObject fields)
     = Normal
         (JErrorResponse (JResponse (synthetic None))
            (JObject (singleton_errors fields)))
  /\ (forall v, prop (JObject [("message", JString (scalar_text v))]) "code"
                = JUndefined).
Proof.
  intros Ne D S N.
  assert (F : toFieldErrors (JObject fields)
              = Normal (JObject (singleton_errors fields))).
  { unfold toFieldErrors. cbn [nullish typeof_object negb own_props].
    rewrite (collect_scalars fields fields
               (has_own_field_name _ fields N (or_introl eq_refl))
               [] false D S N).
    cbn [bindC fst snd app]. destruct fields; [congruence | reflexivity]. }
  split; [exact F|]. split; [|reflexivity].
  unfold toErrorResponse.
  cbn [instanceof_ErrorResponse nullish prop].
  rewrite (lookup_scalar "response" fields S). cbn [andb].
  rewrite F. cbn [bindC truthy]. reflexivity.
Qed.

(** The example of the specification: [{"email": "required"}]. *)
Lemma toFieldErrors_scalar_fields_witness :
  toErrorResponse (JObject [("email", JString "required")])
  = Normal
      (JErrorResponse (JResponse (synthetic None))
         (JObject [("email", JArray [JObject [("message", JString "required")]])]))
  /\ prop (JObject [("message", JString "required")]) "code" = JUndefined.
Proof.
  assert (Ne : [("email", JString "required")] <> @nil (string * JSValue))
    by discriminate.
  assert (D : NoDup (map fst [("email", JString "required")])).
  { constructor; [intros [] | constructor]. }
  assert (S : Forall (fun kv : string * JSValue => nonempty_scalar (snd kv) = true)
                [("email", JString "required")]).
  { constructor; [reflexivity | constructor]. }
  assert (N : Forall (fun kv : string * JSValue => field_name (fst kv) = true)
                [("email", JString "required")]).
  { constructor; [reflexivity | constructor]. }
  destruct (toFieldErrors_scalar_fields _ Ne D S N) as (_ & E & C).
  split; [exact E | exact (C (JString "required"))].
Defined.

(** C8 as it is written fails on the empty string: a field whose value is
    [""] yields no error, its field is left out, and the object as a whole
    gets the default response of status 500. *)
Lemma toFieldErrors_empty_string_counterexample :
  ~ (forall fields : list (string * JSValue),
       fields <> [] ->
       NoDup (map fst fields) ->
       Forall (fun kv => scalar (snd kv) = true) fields ->
       toFieldErrors (JObject fields)
       = Normal (JObject (singleton_errors fields)))
  /\ toFieldErrors (JObject [("email", JString "")]) = Normal JUndefined
  /\ toErrorResponse (JObject [("email", JString "")])
     = Normal
         (JErrorResponse
            (JResponse (synthetic (Some "[object Object]")))
            (JObject
               [("*",
                 JArray
                   [JObject
                      [("code", JString "HTTP500");
                       ("message",
                        JString "ERROR 500: [object Object]")]])])).
Proof.
  split; [|split; reflexivity].
  intro C.
  assert (D : NoDup (map fst [("email", JString "")])).
  { constructor; [intros [] | constructor]. }
  specialize (C [("email", JString "")]).
  discriminate C; [discriminate | exact D |].
  constructor; [reflexivity | constructor].
Qed.

End ErrorResponses.

(** ** The protocol chain *)

Section ProtocolChain.
Import JS Protocol.
Context `{Angular}.

Lemma eqb_length_lt (q n : nat) : q < n -> Nat.eqb q n = false.
Proof. intro L. apply Nat.eqb_neq. lia. Qed.

(** Building an object leaves the objects of the store as they were: their
    fields and what their methods do. *)
Lemma deref_alloc (st : Store) (o : Obj) (q : ref) :
  q < List.length st -> deref (fst (alloc st o)) q = deref st q.
Proof. intro L. simpl. now rewrite eqb_length_lt. Qed.

Lemma handleError_alloc (st : Store) (o : Obj) (q : ref) :
  q < List.length st -> handleError (fst (alloc st o)) q = handleError st q.
Proof. intro L. unfold handleError. now rewrite deref_alloc. Qed.

Lemma prepareRequest_alloc (st : Store) (o : Obj) (q : ref) (options : JSValue) :
  q < List.length st ->
  prepareRequest (fst (alloc st o)) q options = prepareRequest st q options.
Proof. intro L. simpl. now rewrite eqb_length_lt. Qed.

Lemma writeRequest_alloc (st : Store) (o : Obj) (q : ref) (request options : JSValue) :
  q < List.length st ->
  writeRequest (fst (alloc st o)) q request options
  = writeRequest st q request options.
Proof. intro L. simpl. now rewrite eqb_length_lt. Qed.

Lemma readResponse_alloc (st : Store) (o : Obj) (q : ref) (response : JSValue) :
  q < List.length st ->
  readResponse (fst (alloc st o)) q response = readResponse st q response.
Proof. intro L. simpl. now rewrite eqb_length_lt. Qed.

(** In every store grown from the initial one, [HTTP_PROTOCOL] is the
    pass-through leaf and [JSON_PROTOCOL] the JSON leaf. *)
Lemma leaves_stay (ext : Store) :
  deref (ext ++ initial_store)%list HTTP_PROTOCOL = Some HttpProtocol
  /\ deref (ext ++ initial_store)%list JSON_PROTOCOL = Some JsonProtocol.
Proof.
  induction ext as [|o ext [IH1 IH2]]; [split; reflexivity|].
  assert (L : 2 <= List.length (ext ++ initial_store)%list)
    by (rewrite length_app; simpl; lia).
  unfold HTTP_PROTOCOL, JSON_PROTOCOL in *. cbn [app deref].
  rewrite !eqb_length_lt by lia. auto.
Qed.

(** C5.  For every protocol [base] of the store and functions [f] and [g],
    [base.writeRequestWith(f).readResponseWith(g)] writes requests with [f],
    reads responses with [g], prepares requests as [base] does and has the
    [handleError] of [base]; the two combinators change no object of the
    store, so [base] keeps its fields and its behaviour. *)
Theorem writeRequestWith_readResponseWith (st : Store) (base : ref)
    (f : Hook2) (g : Hook1) :
  base < List.length st ->
  let w := writeRequestWith st base f in
  let p := readResponseWith (fst w) (snd w) g in
  (forall request options,
     writeRequest (fst p) (snd p) request options = f request options)
  /\ (forall response, readResponse (fst p) (snd p) response = g response)
  /\ (forall options,
        prepareRequest (fst p) (snd p) options = prepareRequest st base options)
  /\ handleError (fst p) (snd p) = handleError st base
  /\ (forall q, q < List.length st -> deref (fst p) q = deref st q)
  /\ (forall options,
        prepareRequest (fst p) base options = prepareRequest st base options)
  /\ (forall request options,
        writeRequest (fst p) base request options
        = writeRequest st base request options)
  /\ (forall response,
        readResponse (fst p) base response = readResponse st base response)
  /\ handleError (fst p) base = handleError st base.
Proof.
  intros L w p. subst w p.
  unfold writeRequestWith, readResponseWith, alloc, handleError.
  cbn [fst snd deref List.length].
  rewrite Nat.eqb_refl. cbn [fst snd deref List.length].
  repeat split; intros;
    cbn [writeRequest readResponse prepareRequest deref List.length];
    rewrite ?Nat.eqb_refl;
    rewrite ?(eqb_length_lt base (S (List.length st))) by lia;
    rewrite ?(eqb_length_lt base (List.length st)) by lia;
    rewrite ?(eqb_length_lt q (S (List.length st))) by lia;
    rewrite ?(eqb_length_lt q (List.length st)) by lia;
    try reflexivity.
Qed.

(** C4.  An operation derived from a target without a protocol of its own
    uses the target's protocol.  With a protocol of its own it uses that very
    protocol when the target's protocol is [HTTP_PROTOCOL], the pass-through
    leaf; otherwise it uses a new protocol whose [prepareRequest] runs the
    [prepareRequest] of the target's protocol and then, on the result, the one
    of the operation's protocol, and which writes, reads and handles errors as
    the operation's protocol does. *)
Theorem operation_protocol (st : Store) (t : Target.RikeTargetImpl)
    (name : string) (p : ref) :
  Target.operation st t name None
  = (st, Event.mkOperation (Target._uniqueId t) name (Target._protocol t))
  /\
  let r := Target.operation st t name (Some p) in
  Event.op_target (snd r) = Target._uniqueId t
  /\ Event.op_name (snd r) = name
  /\ if Nat.eqb (Target._protocol t) HTTP_PROTOCOL
     then fst r = st /\ Event.op_protocol (snd r) = p
     else
       let q := Event.op_protocol (snd r) in
       (forall options,
          prepareRequest (fst r) q options
          = bindC (prepareRequest st (Target._protocol t) options)
              (prepareRequest st p))
       /\ (forall request options,
             writeRequest (fst r) q request options
             = writeRequest st p request options)
       /\ (forall response,
             readResponse (fst r) q response = readResponse st p response)
       /\ handleError (fst r) q = handleError st p
       /\ (forall q', q' < List.length st -> deref (fst r) q' = deref st q').
Proof.
  split; [reflexivity|].
  unfold Target.operation.
  destruct (Nat.eqb (Target._protocol t) HTTP_PROTOCOL) eqn:E.
  - cbn. auto.
  - cbn [alloc fst snd Event.op_target Event.op_name Event.op_protocol].
    repeat split; intros; unfold handleError;
      cbn [writeRequest readResponse prepareRequest deref List.length];
      rewrite ?Nat.eqb_refl;
      rewrite ?(eqb_length_lt q' (List.length st)) by lia;
      reflexivity.
Qed.

End ProtocolChain.

(** An instance of C5: the chain built on [HTTP_PROTOCOL] in the initial
    store. *)
Lemma writeRequestWith_readResponseWith_witness :
  let f := fun request options : JS.JSValue =>
             Normal (JS.JObject [("body", request); ("options", options)]) in
  let g := fun response : JS.JSValue => Normal (JS.JArray [response]) in
  let w := Protocol.writeRequestWith Protocol.initial_store
             Protocol.HTTP_PROTOCOL f in
  let p := Protocol.readResponseWith (fst w) (snd w) g in
  @Protocol.writeRequest Protocol.plain_angular (fst p) (snd p)
    (JS.JString "x") JS.JNull
  = Normal (JS.JObject [("body", JS.JString "x"); ("options", JS.JNull)])
  /\ Protocol.readResponse (fst p) (snd p) (JS.JNumber 1)
     = Normal (JS.JArray [JS.JNumber 1])
  /\ Protocol.prepareRequest (fst p) (snd p) (JS.JString "o")
     = Normal (JS.JString "o")
  /\ Protocol.handleError (fst p) (snd p) = None
  /\ Protocol.deref (fst p) Protocol.HTTP_PROTOCOL = Some Protocol.HttpProtocol.
Proof.
  intros f g w p.
  assert (L : Protocol.HTTP_PROTOCOL < List.length Protocol.initial_store)
    by (simpl; unfold Protocol.HTTP_PROTOCOL; lia).
  destruct (@writeRequestWith_readResponseWith Protocol.plain_angular
              Protocol.initial_store Protocol.HTTP_PROTOCOL f g L)
    as (W & R & P & HE & D & _).
  fold w in W, R, P, HE, D. fold p in W, R, P, HE, D.
  rewrite W, R, P, HE, (D Protocol.HTTP_PROTOCOL L).
  repeat split.
Defined.

(** An instance of C4: a target on [JSON_PROTOCOL], an operation asking for
    [HTTP_PROTOCOL]. *)
Lemma operation_protocol_witness :
  let t := Target.new_RikeTargetImpl "1" Protocol.JSON_PROTOCOL in
  let r := Target.operation Protocol.initial_store t "load"
             (Some Protocol.HTTP_PROTOCOL) in
  Protocol.prepareRequest (fst r) (Event.op_protocol (snd r)) (JS.JString "o")
  = Normal (JS.JString "o")
  /\ Protocol.deref (fst r) Protocol.JSON_PROTOCOL = Some Protocol.JsonProtocol.
Proof.
  intros t r.
  destruct (@operation_protocol Protocol.plain_angular Protocol.initial_store
              t "load" Protocol.HTTP_PROTOCOL) as (_ & _ & _ & X).
  cbn [t Target.new_RikeTargetImpl Target._protocol Nat.eqb
       Protocol.JSON_PROTOCOL Protocol.HTTP_PROTOCOL] in X.
  destruct X as (P & _ & _ & _ & D).
  split.
  - fold r in P. rewrite P. reflexivity.
  - apply D. simpl. unfold Protocol.JSON_PROTOCOL. lia.
Defined.

(** ** The target and its operations *)

Section TargetLifecycle.
Import JS Event Target.

Ltac target_fields t :=
  unfold closed in *;
  destruct t as [uid proto base signals op resp obs subscr dels];
  cbn [_uniqueId _protocol _baseUrl _rikeEvents _operation _response _observer
       _subscr delivered] in *;
  subst.

Ltac target_cbn :=
  unfold closed;
  cbn [fst snd _uniqueId _protocol _baseUrl _rikeEvents _operation _response
       _observer _subscr delivered Event.truthy JS.truthy Event.operation].

Create HintDb target_methods.
#[local] Hint Unfold cancel startOperation verb wrapResponse _cancel cleanup
  on_next on_error on_complete subscribe_wrapped this_operation this_observer
  observer_error observer_complete observer_next unsubscribe rikeEvents_error
  rikeEvents_emit raise_if try_finally try_catch bind gets ret throw lift
  signal deliver set_operation set_response set_observer set_subscr
  currentOperation new_RikeCancelEvent undefined : target_methods.

Ltac run_method := repeat autounfold with target_methods; target_cbn.

(** Whether the emitter is closed after it took more calls. *)
Ltac closed_step :=
  match goal with
  | |- context [existsb is_Error (?l ++ ?m)%list] =>
      rewrite (existsb_app is_Error l m); cbn [existsb is_Error orb];
      rewrite ?orb_true_r, ?orb_false_r
  | H : existsb is_Error ?l = _ |- context [existsb is_Error ?l] => rewrite H
  end;
  target_cbn.

(** One case distinction on what the method reads next: a field of the
    target, the state of the emitter or the outcome of a callback. *)
Ltac case_step :=
  first
    [ closed_step
    | match goal with
      | |- context [match ?x with _ => _ end] => is_var x; destruct x
      | |- context [existsb is_Error ?l] =>
          is_var l; destruct (existsb is_Error l) eqn:?
      | |- context [error_throws ?o ?x] => destruct (error_throws o x) eqn:?
      | |- context [complete_throws ?o] => destruct (complete_throws o) eqn:?
      | |- context [next_throws ?o ?x] => destruct (next_throws o x) eqn:?
      | |- context [Protocol.readResponse ?st ?p ?r] =>
          destruct (Protocol.readResponse st p r) eqn:?
      end;
      target_cbn ].

Lemma skipn_added {A} (l added : list A) :
  skipn (List.length l) (l ++ added)%list = added.
Proof. induction l; simpl; auto. Qed.

Lemma skipn_nothing {A} (l : list A) : skipn (List.length l) l = [].
Proof. induction l; simpl; auto. Qed.

(** [_cancel] on a target with an operation record and no observer: the
    record stays, nothing reaches the emitter, and the call returns [true]. *)
Lemma _cancel_without_observer (cause : Any) (t : RikeTargetImpl) (ev : RikeEvent) :
  _operation t = Some ev ->
  _observer t = None ->
  exists t',
    _cancel cause t = (Normal true, t')
    /\ _rikeEvents t' = _rikeEvents t
    /\ _operation t' = Some ev
    /\ _observer t' = None
    /\ _response t' = None
    /\ _subscr t' = None.
Proof.
  intros Ho Hb. target_fields t. run_method.
  destruct subscr; eexists; repeat split; reflexivity.
Qed.

(** [_cancel] on a target with an operation record, an open emitter and an
    observer whose [error] and [complete] return. *)
Lemma _cancel_with_observer (cause : Any) (t : RikeTargetImpl) (ev : RikeEvent)
    (o : Observer) :
  _operation t = Some ev ->
  _observer t = Some o ->
  error_throws o (Ev (new_RikeCancelEvent (Event.operation ev) cause)) = None ->
  complete_throws o = None ->
  closed t = false ->
  exists t',
    _cancel cause t = (Normal true, t')
    /\ _rikeEvents t'
       = (_rikeEvents t
          ++ [Error (new_RikeCancelEvent (Event.operation ev) cause)])%list
    /\ _operation t' = None
    /\ _observer t' = None
    /\ _response t' = None
    /\ _subscr t' = None.
Proof.
  intros Ho Hb He Hc Hop. target_fields t. revert He. run_method. intro He.
  rewrite He. target_cbn. rewrite Hop. target_cbn. rewrite Hc.
  destruct subscr; eexists; repeat split; reflexivity.
Qed.

(** [_cancel] on an idle target. *)
Lemma _cancel_idle (cause : Any) (t : RikeTargetImpl) :
  _operation t = None -> _cancel cause t = (Normal false, t).
Proof. intro Ho. target_fields t. reflexivity. Qed.

(** What [_cancel] sends to the emitter, whatever the state of the target: a
    cancel event can only be the one built from [cause]. *)
Lemma _cancel_emits (cause : Any) (t : RikeTargetImpl) :
  Forall (fun s => Event.cancel (event_of s) = true ->
                   cancelledBy (event_of s) = cause)
    (emitted_by (_cancel cause) t).
Proof.
  unfold emitted_by. target_fields t. run_method.
  repeat case_step;
    rewrite <- ?app_assoc; rewrite ?skipn_added, ?skipn_nothing;
    repeat constructor; cbn; try discriminate.
Qed.




(** C2, as the code has it.  On an idle target [cancel()] returns [false],
    sends nothing to the emitter and changes nothing.  On a target with an
    operation record, an open emitter and an attached observer that takes the
    cancellation without throwing, it returns [true], sends exactly one event
    to the emitter, a cancel event for the current operation, and leaves the
    target idle: [currentOperation] is undefined afterwards. *)
Theorem cancel_idle_or_observed (t : RikeTargetImpl) :
  match _operation t with
  | None =>
      cancel t = (Normal false, t) /\ emitted_by cancel t = []
  | Some ev =>
      forall o,
        _observer t = Some o ->
        error_throws o (Ev (new_RikeCancelEvent (Event.operation ev) undefined))
        = None ->
        complete_throws o = None ->
        closed t = false ->
        fst (cancel t) = Normal true
        /\ emitted_by cancel t
           = [Error (new_RikeCancelEvent (Event.operation ev) undefined)]
        /\ count_cancel (emitted_by cancel t) = 1
        /\ _operation (snd (cancel t)) = None
        /\ currentOperation (snd (cancel t)) = None
  end.
Proof.
  destruct (_operation t) as [ev|] eqn:Ho.
  - intros o Hb He Hc Hop.
    destruct (_cancel_with_observer undefined t ev o Ho Hb He Hc Hop)
      as (t' & E & Hs & Hop' & _).
    unfold emitted_by, count_cancel, cancel, currentOperation.
    rewrite E. cbn [fst snd]. rewrite Hs, Hop', skipn_added.
    repeat split.
  - unfold emitted_by, cancel. rewrite (_cancel_idle undefined t Ho).
    cbn [snd]. now rewrite skipn_nothing.
Qed.

(** C2 on the target after [load], subscribed by an observer that returns. *)
Lemma cancel_idle_or_observed_witness :
  fst (cancel loading_subscribed) = Normal true
  /\ emitted_by cancel loading_subscribed
     = [Error (new_RikeCancelEvent load_operation undefined)]
  /\ count_cancel (emitted_by cancel loading_subscribed) = 1
  /\ _operation (snd (cancel loading_subscribed)) = None
  /\ currentOperation (snd (cancel loading_subscribed)) = None.
Proof.
  exact (cancel_idle_or_observed loading_subscribed quiet_observer
           eq_refl eq_refl eq_refl eq_refl).
Defined.

(** C2 as it is written fails on a target whose operation record is in place
    while no observer is attached: [cancel()] returns [true], yet no event is
    sent and [currentOperation] stays defined. *)
Lemma cancel_active_counterexample :
  ~ (forall t : RikeTargetImpl,
       currentOperation t <> None ->
       fst (cancel t) = Normal true
       /\ count_cancel (emitted_by cancel t) = 1
       /\ currentOperation (snd (cancel t)) = None)
  /\ currentOperation loading_unsubscribed = Some load_operation
  /\ fst (cancel loading_unsubscribed) = Normal true
  /\ emitted_by cancel loading_unsubscribed = []
  /\ currentOperation (snd (cancel loading_unsubscribed)) = Some load_operation.
Proof.
  split; [|repeat split; reflexivity].
  intro C.
  destruct (C loading_unsubscribed) as (_ & N & _); discriminate.
Qed.

(** C3, as the code has it.  Every cancel event has [complete] and [cancel]
    true and an [error] equal to its [cancelledBy], and its [cancelledBy] is
    the value its constructor was given.  The cancel events a verb method of
    an operation sends have the start event of that operation for
    [cancelledBy]; the ones [cancel()] sends have [undefined]. *)
Theorem cancel_event_fields :
  (forall operation _error _cancelledBy,
     let e := RikeCancelEvent operation _error _cancelledBy in
     Event.complete e = true /\ Event.cancel e = true
     /\ Event.error e = Event.cancelledBy e)
  /\ (forall operation cause,
        Event.cancelledBy (new_RikeCancelEvent operation cause) = cause)
  /\ (forall t B setup,
        Forall (fun s => Event.cancel (event_of s) = true ->
                         Event.cancelledBy (event_of s)
                         = Ev (RikeOperationEvent B))
          (emitted_by (verb B setup) t))
  /\ (forall t,
        Forall (fun s => Event.cancel (event_of s) = true ->
                         Event.cancelledBy (event_of s) = undefined)
          (emitted_by cancel t)).
Proof.
  split; [intros; repeat split|].
  split; [reflexivity|].
  split; [|intro t; apply _cancel_emits].
  intros t B setup. unfold emitted_by. target_fields t. run_method.
  repeat case_step;
    rewrite <- ?app_assoc; rewrite ?skipn_added, ?skipn_nothing;
    repeat constructor; cbn; try discriminate.
Qed.

(** C3 on the target after [load], subscribed: the cancel event of [save]
    names the start event of [save], the one of [cancel()] names nothing. *)
Lemma cancel_event_fields_witness :
  Forall (fun s => Event.cancel (event_of s) = true ->
                   Event.cancelledBy (event_of s)
                   = Ev (RikeOperationEvent save_operation))
    [Error
       (new_RikeCancelEvent load_operation
          (Ev (RikeOperationEvent save_operation)))]
  /\ Forall (fun s => Event.cancel (event_of s) = true ->
                      Event.cancelledBy (event_of s) = undefined)
       [Error (new_RikeCancelEvent load_operation undefined)].
Proof.
  destruct cancel_event_fields as (_ & _ & V & C).
  split.
  - exact (V loading_subscribed save_operation (Normal 2)).
  - exact (C loading_subscribed).
Defined.

(** C3 as it is written fails for [cancel()]: the event it sends has
    [cancelledBy] (and so [error]) undefined; the string "cancel" is held by
    the error slot inherited from [RikeErrorEvent], which no getter of a
    cancel event reads. *)
Lemma user_cancel_counterexample :
  exists e,
    emitted_by cancel loading_subscribed = [Error e]
    /\ Event.cancel e = true
    /\ Event.cancelledBy e = undefined
    /\ Event.cancelledBy e <> Val (JString "cancel")
    /\ Event.error e <> Val (JString "cancel").
Proof.
  eexists. split; [reflexivity|].
  repeat split; cbn; discriminate.
Qed.

(** Only subscribing to a wrapped response attaches an observer. *)
Lemma step_keeps_no_observer (st : Protocol.Store) (a : Action) (t : RikeTargetImpl) :
  is_Subscribe a = false ->
  _observer t = None ->
  _observer (step st a t) = None.
Proof.
  intros Ha Hb. destruct a; try discriminate; unfold step;
    target_fields t; run_method; repeat case_step; reflexivity.
Qed.

Lemma run_keeps_no_observer (st : Protocol.Store) (actions : list Action) :
  forall t,
    forallb (fun a => negb (is_Subscribe a)) actions = true ->
    _observer t = None ->
    _observer (run st actions t) = None.
Proof.
  induction actions as [|a actions IH]; intros t Ha Hb; [exact Hb|].
  simpl in Ha. apply andb_true_iff in Ha as [Ha Hs].
  apply negb_true_iff in Ha.
  unfold run. simpl. apply IH; [exact Hs|].
  now apply step_keeps_no_observer.
Qed.

(** C10, as the code has it.  On a target that holds an operation record
    while no observer is attached, as it is when no wrapped response was
    subscribed on the target since it was made, [cancel()] returns [true],
    sends nothing to the emitter and leaves the record in place:
    [currentOperation] is still defined afterwards. *)
Theorem cancel_never_subscribed (t : RikeTargetImpl) (ev : RikeEvent) :
  _operation t = Some ev ->
  _observer t = None ->
  fst (cancel t) = Normal true
  /\ emitted_by cancel t = []
  /\ _operation (snd (cancel t)) = Some ev
  /\ currentOperation (snd (cancel t)) = Some (Event.operation ev).
Proof.
  intros Ho Hb.
  destruct (_cancel_without_observer undefined t ev Ho Hb)
    as (t' & E & Hs & Hop & _).
  unfold emitted_by, cancel, currentOperation.
  rewrite E. cbn [fst snd]. rewrite Hs, Hop, skipn_nothing.
  repeat split.
Qed.

(** C10 on the target after [load], never subscribed. *)
Lemma cancel_never_subscribed_witness :
  fst (cancel loading_unsubscribed) = Normal true
  /\ emitted_by cancel loading_unsubscribed = []
  /\ _operation (snd (cancel loading_unsubscribed))
     = Some (RikeOperationEvent load_operation)
  /\ currentOperation (snd (cancel loading_unsubscribed)) = Some load_operation.
Proof.
  exact (cancel_never_subscribed loading_unsubscribed
           (RikeOperationEvent load_operation) eq_refl eq_refl).
Defined.

(** C10 as it is written fails on a target that keeps the observer of an
    earlier operation: [load] is invoked, subscribed and completes, then
    [save] is invoked and its wrapped response is never subscribed.  The
    record of [save] is held, yet [cancel()] sends a cancel event, hands it to
    the observer of [load], and clears the record. *)
Lemma cancel_stale_observer_counterexample :
  let t :=
    run Protocol.initial_store
      [Invoke load_operation (Normal 1);
       Subscribe (mkWrapped load_operation 1) quiet_observer;
       Complete (mkSubscription 1 load_operation quiet_observer);
       Invoke save_operation (Normal 2)]
      fresh_target in
  currentOperation t = Some save_operation
  /\ _response t = Some 2
  /\ _subscr t = None
  /\ fst (cancel t) = Normal true
  /\ emitted_by cancel t = [Error (new_RikeCancelEvent save_operation undefined)]
  /\ currentOperation (snd (cancel t)) = None.
Proof. repeat split. Qed.

End TargetLifecycle.

(* ================================================================== *)
(** * Further properties *)
(* ================================================================== *)

(** ** The handlers of a wrapped response and what cancellation leaves *)

Section TargetHandlers.
Import JS Event Target.

Ltac fields_of t :=
  unfold closed in *;
  destruct t as [uid proto base signals op resp obs subscr dels];
  cbn [_uniqueId _protocol _baseUrl _rikeEvents _operation _response _observer
       _subscr delivered] in *;
  subst.

Ltac method_cbn :=
  unfold closed;
  cbn [fst snd _uniqueId _protocol _baseUrl _rikeEvents _operation _response
       _observer _subscr delivered Event.truthy JS.truthy Event.operation
       sub_response sub_operation sub_observer wrapped_response
       wrapped_operation same_response observer_id next_throws error_throws
       complete_throws negb].

Create HintDb target_handlers.
#[local] Hint Unfold cancel startOperation verb wrapResponse _cancel cleanup
  on_next on_error on_complete subscribe_wrapped this_operation this_observer
  observer_error observer_complete observer_next unsubscribe rikeEvents_error
  rikeEvents_emit raise_if try_finally try_catch bind gets ret throw lift
  signal deliver set_operation set_response set_observer set_subscr
  currentOperation new_RikeCancelEvent undefined step : target_handlers.

Ltac unfold_methods := repeat autounfold with target_handlers; method_cbn.

(** Whether the emitter is closed after it took more calls. *)
Ltac emitter_step :=
  match goal with
  | |- context [existsb is_Error (?l ++ ?m)%list] =>
      rewrite (existsb_app is_Error l m); cbn [existsb is_Error orb];
      rewrite ?orb_true_r, ?orb_false_r
  | H : existsb is_Error ?l = _ |- context [existsb is_Error ?l] => rewrite H
  end;
  method_cbn.

Ltac split_case :=
  first
    [ emitter_step
    | match goal with
      | |- context [match ?x with _ => _ end] => is_var x; destruct x
      | |- context [existsb is_Error ?l] =>
          is_var l; destruct (existsb is_Error l) eqn:?
      | |- context [error_throws ?o ?x] => destruct (error_throws o x) eqn:?
      | |- context [complete_throws ?o] => destruct (complete_throws o) eqn:?
      | |- context [next_throws ?o ?x] => destruct (next_throws o x) eqn:?
      | |- context [Protocol.readResponse ?st ?p ?r] =>
          destruct (Protocol.readResponse st p r) eqn:?
      end;
      method_cbn ].

Lemma skipn_suffix {A} (l added : list A) :
  skipn (List.length l) (l ++ added)%list = added.
Proof. induction l; simpl; auto. Qed.

Lemma skipn_all_of {A} (l : list A) : skipn (List.length l) l = [].
Proof. induction l; simpl; auto. Qed.

(** X1.  Whether the callbacks of the observer return or throw, cancelling a
    target that has an operation record, an observer and a live subscription
    calls [error] with the cancel event and then [complete] on the observer,
    unsubscribes the subscription, and leaves the target with no record, no
    observer, no response and no subscription.  An open emitter takes one
    event, the cancel event, or an error event with what [error] threw; a
    closed one takes none.  The call returns [true] when both callbacks
    return and the emitter was open; an exception of [complete] takes
    precedence over the one of the closed emitter, and that one over an
    exception of [error]. *)
Theorem _cancel_always_cleans_up (cause : Any) (t : RikeTargetImpl)
    (ev : RikeEvent) (o : Observer) (s : Subscription) :
  _operation t = Some ev ->
  _observer t = Some o ->
  _subscr t = Some s ->
  let cancelEv := new_RikeCancelEvent (Event.operation ev) cause in
  let t' := snd (_cancel cause t) in
  delivered t'
  = (delivered t
     ++ [ObserverError (observer_id o) (Ev cancelEv);
         ObserverComplete (observer_id o);
         Unsubscribe (sub_response s)])%list
  /\ _operation t' = None /\ _observer t' = None
  /\ _response t' = None /\ _subscr t' = None
  /\ emitted_by (_cancel cause) t
     = (if closed t then []
        else [match error_throws o (Ev cancelEv) with
              | None => Error cancelEv
              | Some e1 => Error (RikeErrorEvent (Event.operation ev) e1)
              end])
  /\ fst (_cancel cause t)
     = match complete_throws o with
       | Some e2 => Throw e2
       | None =>
           if closed t then Throw ObjectUnsubscribedError
           else
             match error_throws o (Ev cancelEv) with
             | Some e1 => Throw e1
             | None => Normal true
             end
       end.
Proof.
  intros Ho Hb Hs cancelEv t'. subst cancelEv t'. unfold emitted_by.
  fields_of t. destruct o as [oid nx er co]. unfold_methods.
  cbn [error_throws complete_throws observer_id].
  destruct (existsb is_Error signals) eqn:C, (er _), co; method_cbn;
    repeat first [emitter_step | rewrite C; method_cbn]; rewrite <- ?app_assoc;
    rewrite ?skipn_suffix, ?skipn_all_of; repeat split.
Qed.

Lemma _cancel_always_cleans_up_witness :
  delivered (snd (cancel loading_subscribed))
  = [ObserverError 0 (Ev (new_RikeCancelEvent load_operation undefined));
     ObserverComplete 0; Unsubscribe 1]
  /\ _subscr (snd (cancel loading_subscribed)) = None.
Proof.
  destruct (_cancel_always_cleans_up undefined loading_subscribed
              (RikeOperationEvent load_operation) quiet_observer
              (mkSubscription 1 load_operation quiet_observer)
              eq_refl eq_refl eq_refl) as (D & _ & _ & _ & S & _).
  split; [exact D | exact S].
Defined.

(** X2.  The error handler of a wrapped response first writes the error to
    the console; when the target value does not convert to a string for that
    message, the handler throws there and nothing else happens.  Otherwise it
    hands the error to the observer and sends one event to an open emitter:
    the error event through [emit] when the observer took the error, an error
    event with the value the observer threw through [error] otherwise; it
    then returns.  On a closed emitter it sends nothing and throws.  In both
    cases the operation record, the response and the subscription are cleared
    (a live subscription is unsubscribed); the observer stays attached. *)
Theorem on_error_reports_and_cleans (s : Subscription) (error : Any)
    (target : Completion Any string) (t : RikeTargetImpl) :
  match target with
  | Throw e => on_error s error target t = (Throw e, t)
  | Normal text =>
      let t' := snd (on_error s error target t) in
      fst (on_error s error target t)
      = (if closed t then Throw ObjectUnsubscribedError else Normal tt)
      /\ emitted_by (on_error s error target) t
         = (if closed t then []
            else [match error_throws (sub_observer s) error with
                  | None => Emit (RikeErrorEvent (sub_operation s) error)
                  | Some e => Error (RikeErrorEvent (sub_operation s) e)
                  end])
      /\ delivered t'
         = (delivered t
            ++ ConsoleError
                 ("[" ++ text ++ "] " ++ op_name (sub_operation s) ++ " failed")
                 error
               :: ObserverError (observer_id (sub_observer s)) error
               :: match _subscr t with
                  | Some live => [Unsubscribe (sub_response live)]
                  | None => []
                  end)%list
      /\ _operation t' = None /\ _response t' = None /\ _subscr t' = None
      /\ _observer t' = _observer t
  end.
Proof.
  destruct target as [text|e]; [|reflexivity].
  intro t'. subst t'. unfold emitted_by. fields_of t.
  destruct s as [r operation [oid nx er co]]. unfold_methods.
  destruct (existsb is_Error signals) eqn:C, (er error), subscr; method_cbn;
    repeat first [emitter_step | rewrite C; method_cbn];
    rewrite <- ?app_assoc; cbn [app];
    rewrite ?skipn_suffix, ?skipn_all_of; repeat split.
Qed.

(** X3.  The completion handler of a wrapped response completes the
    observer and sends nothing to the emitter, unless [complete] throws: then
    an open emitter gets an error event with the thrown value, and on a
    closed emitter the handler throws.  The operation record, the response
    and the subscription are cleared; the observer stays attached. *)
Theorem on_complete_cleans (s : Subscription) (t : RikeTargetImpl) :
  let t' := snd (on_complete s t) in
  fst (on_complete s t)
  = match complete_throws (sub_observer s) with
    | None => Normal tt
    | Some _ => if closed t then Throw ObjectUnsubscribedError else Normal tt
    end
  /\ emitted_by (on_complete s) t
     = match complete_throws (sub_observer s) with
       | None => []
       | Some e =>
           if closed t then []
           else [Error (RikeErrorEvent (sub_operation s) e)]
       end
  /\ delivered t'
     = (delivered t
        ++ ObserverComplete (observer_id (sub_observer s))
           :: match _subscr t with
              | Some live => [Unsubscribe (sub_response live)]
              | None => []
              end)%list
  /\ _operation t' = None /\ _response t' = None /\ _subscr t' = None
  /\ _observer t' = _observer t.
Proof.
  intro t'. subst t'. unfold emitted_by. fields_of t.
  destruct s as [r operation [oid nx er co]]. unfold_methods.
  destruct (existsb is_Error signals) eqn:C, co, subscr; method_cbn;
    repeat first [emitter_step | rewrite C; method_cbn];
    rewrite <- ?app_assoc, ?skipn_suffix, ?skipn_all_of; repeat split.
Qed.

(** X4.  The value handler of a wrapped response leaves the operation
    record, the response, the observer and the subscription as they are.
    When the protocol fails to read the response the observer is not called;
    when it reads a value the observer gets it.  An open emitter then takes
    one event and the handler returns: an error event with what the protocol
    threw; a success event with the value read; or an error event with what
    the observer threw.  On a closed emitter the handler sends nothing and
    throws. *)
Theorem on_next_decodes (st : Protocol.Store) (s : Subscription)
    (httpResponse : JSValue) (t : RikeTargetImpl) :
  let t' := snd (on_next st s httpResponse t) in
  let operation := sub_operation s in
  fst (on_next st s httpResponse t)
  = (if closed t then Throw ObjectUnsubscribedError else Normal tt)
  /\ _operation t' = _operation t /\ _response t' = _response t
  /\ _observer t' = _observer t /\ _subscr t' = _subscr t
  /\ match Protocol.readResponse st (op_protocol operation) httpResponse with
     | Throw e =>
         delivered t' = delivered t
         /\ emitted_by (on_next st s httpResponse) t
            = (if closed t then []
               else [Error (RikeErrorEvent operation (Val e))])
     | Normal v =>
         delivered t'
         = (delivered t
            ++ [ObserverNext (observer_id (sub_observer s)) (Val v)])%list
         /\ emitted_by (on_next st s httpResponse) t
            = (if closed t then []
               else [match next_throws (sub_observer s) (Val v) with
                     | None => Emit (RikeSuccessEvent operation (Val v))
                     | Some e => Error (RikeErrorEvent operation e)
                     end])
     end.
Proof.
  intros t' operation. subst t' operation. unfold emitted_by. fields_of t.
  destruct s as [r operation [oid nx er co]]. unfold_methods.
  destruct (existsb is_Error signals) eqn:C,
    (Protocol.readResponse st (op_protocol operation) httpResponse)
    as [v|e]; method_cbn; repeat first [emitter_step | rewrite C; method_cbn];
    try (destruct (nx (Val v)); method_cbn; repeat first [emitter_step | rewrite C; method_cbn]);
    rewrite ?skipn_suffix, ?skipn_all_of; repeat split.
Qed.

(** X5.  When [startOperation] returns and the preparation of the request
    then throws, the verb method throws the same value, the emitter has the
    start event of the operation directly followed by an error event with
    that value, and the operation record stays in place:
    [currentOperation] is still the operation. *)
Theorem verb_setup_failure (t : RikeTargetImpl) (B : RikeOperation) (e : Any) :
  fst (startOperation B t) = Normal tt ->
  let t' := snd (verb B (Throw e) t) in
  fst (verb B (Throw e) t) = Throw e
  /\ (exists before,
        _rikeEvents t'
        = (before ++ [Emit (RikeOperationEvent B);
                      Error (RikeErrorEvent B e)])%list)
  /\ currentOperation t' = Some B.
Proof.
  intros H t'. subst t'. revert H. fields_of t. unfold_methods.
  repeat split_case; intro H; try discriminate H;
    (split; [reflexivity|]); (split; [|reflexivity]);
    rewrite <- app_assoc; eexists; reflexivity.
Qed.

Lemma verb_setup_failure_witness :
  fst (verb load_operation (Throw (Val (JString "no url"))) fresh_target)
  = Throw (Val (JString "no url"))
  /\ currentOperation
       (snd (verb load_operation (Throw (Val (JString "no url"))) fresh_target))
     = Some load_operation.
Proof.
  destruct (verb_setup_failure fresh_target load_operation
              (Val (JString "no url")) eq_refl) as (T & _ & C).
  split; [exact T | exact C].
Defined.

(** X6.  A verb method invoked on a target that has an operation record and
    an attached observer never starts its operation.  The observer is handed
    the cancel event; an open emitter takes one event, the cancel event (or
    an error event with what the observer's [error] threw), and is closed by
    it, so that the start event is never sent; the verb method throws what a
    closed emitter throws, and the target is left idle. *)
Theorem superseding_observed_never_starts (t : RikeTargetImpl) (ev : RikeEvent)
    (o : Observer) (B : RikeOperation) (setup : Completion Any Observable) :
  _operation t = Some ev ->
  _observer t = Some o ->
  let cancelEv :=
    new_RikeCancelEvent (Event.operation ev) (Ev (RikeOperationEvent B)) in
  let t' := snd (verb B setup t) in
  fst (verb B setup t) = Throw ObjectUnsubscribedError
  /\ emitted_by (verb B setup) t
     = (if closed t then []
        else [match error_throws o (Ev cancelEv) with
              | None => Error cancelEv
              | Some e => Error (RikeErrorEvent (Event.operation ev) e)
              end])
  /\ _operation t' = None /\ currentOperation t' = None.
Proof.
  intros Ho Hb cancelEv t'. subst cancelEv t'. unfold emitted_by. fields_of t.
  destruct o as [oid nx er co]. unfold_methods.
  destruct (existsb is_Error signals) eqn:C, (er _), co, subscr; method_cbn;
    repeat first [emitter_step | rewrite C; method_cbn];
    rewrite <- ?app_assoc, ?skipn_suffix, ?skipn_all_of; repeat split.
Qed.

Lemma superseding_observed_never_starts_witness :
  fst (verb save_operation (Normal 2) loading_subscribed)
  = Throw ObjectUnsubscribedError
  /\ emitted_by (verb save_operation (Normal 2)) loading_subscribed
     = [Error
          (new_RikeCancelEvent load_operation
             (Ev (RikeOperationEvent save_operation)))]
  /\ currentOperation (snd (verb save_operation (Normal 2) loading_subscribed))
     = None.
Proof.
  destruct (superseding_observed_never_starts loading_subscribed
              (RikeOperationEvent load_operation) quiet_observer
              save_operation (Normal 2) eq_refl eq_refl)
    as (T & E & _ & C).
  split; [exact T | split; [exact E | exact C]].
Defined.

(** X7.  A wrapped response that is subscribed late does nothing.  After
    [cancel()] on a target with an operation record, and after another verb
    method was invoked, subscribing the observable of the earlier operation
    attaches no observer and opens no subscription; subscribing the
    observable the last verb method returned attaches the observer and opens
    the subscription. *)
Theorem late_subscription_is_ignored (t : RikeTargetImpl) (w : Wrapped)
    (o : Observer) :
  (_operation t <> None ->
   subscribe_wrapped w o (snd (cancel t)) = (Normal tt, snd (cancel t)))
  /\ (forall B r,
        fst (startOperation B t) = Normal tt ->
        let t1 := snd (verb B (Normal r) t) in
        fst (verb B (Normal r) t) = Normal (mkWrapped B r)
        /\ (wrapped_response w <> r ->
            subscribe_wrapped w o t1 = (Normal tt, t1))
        /\ _observer (snd (subscribe_wrapped (mkWrapped B r) o t1)) = Some o
        /\ _subscr (snd (subscribe_wrapped (mkWrapped B r) o t1))
           = Some (mkSubscription r B o)).
Proof.
  split.
  - intro Ho. fields_of t. unfold_methods.
    destruct op as [ev|]; [|congruence]. method_cbn.
    repeat split_case; reflexivity.
  - intros B r H t1. subst t1. revert H. fields_of t. unfold_methods.
    repeat split_case; intro H; try discriminate H;
      rewrite ?Nat.eqb_refl; method_cbn;
      (split; [reflexivity|]); (split; [|split; reflexivity]);
      intro N; apply Nat.eqb_neq in N; rewrite Nat.eqb_sym in N;
      rewrite N; reflexivity.
Qed.

Lemma late_subscription_is_ignored_witness :
  subscribe_wrapped (mkWrapped load_operation 1) quiet_observer
    (snd (cancel loading_unsubscribed))
  = (Normal tt, snd (cancel loading_unsubscribed))
  /\ subscribe_wrapped (mkWrapped load_operation 1) quiet_observer
       (snd (verb save_operation (Normal 2) loading_unsubscribed))
     = (Normal tt, snd (verb save_operation (Normal 2) loading_unsubscribed)).
Proof.
  destruct (late_subscription_is_ignored loading_unsubscribed
              (mkWrapped load_operation 1) quiet_observer) as (C & V).
  split.
  - apply C. discriminate.
  - destruct (V save_operation 2 eq_refl) as (_ & L & _).
    apply L. discriminate.
Defined.

(** Each call keeps the target consistent. *)
Lemma step_consistent (st : Protocol.Store) (a : Action) (t : RikeTargetImpl) :
  Lifecycle.consistent t -> Lifecycle.consistent (step st a t).
Proof.
  unfold Lifecycle.consistent. intros [H1 H2]. fields_of t.
  destruct a as [operation setup|w o|s r|s e target|s|]; unfold_methods.
  - destruct op as [ev|], obs as [o|], subscr as [live|],
      setup as [r|e]; method_cbn;
      repeat split_case; method_cbn; try (split; [tauto | congruence]);
      try (split; congruence); try tauto;
      destruct H1 as [E _]; rewrite E in H2; now destruct H2.
  - destruct resp as [r|]; method_cbn; [|tauto].
    destruct (Nat.eqb r (wrapped_response w)) eqn:E; method_cbn; [|tauto].
    apply Nat.eqb_eq in E. subst r. tauto.
  - repeat split_case; tauto.
  - repeat split_case; tauto.
  - repeat split_case; tauto.
  - destruct op as [ev|], obs as [o|], subscr as [live|];
      method_cbn; repeat split_case; try tauto; try (split; congruence).
Qed.

Lemma run_consistent (st : Protocol.Store) (actions : list Action) :
  forall t, Lifecycle.consistent t -> Lifecycle.consistent (run st actions t).
Proof.
  induction actions as [|a actions IH]; intros t C; [exact C|].
  unfold run. simpl. apply IH. now apply step_consistent.
Qed.

(** X8.  On every target reached from a new one by verb methods,
    subscriptions to wrapped responses whose transport delivers after
    [subscribe] returned, calls of the three handlers and [cancel()] (with
    observers that do not call the target from their callbacks), a live
    subscription is the subscription of the response the target currently
    holds, its observer is the observer the target has attached, and an
    operation record is in place: what [cancel()] and a superseding verb
    method act on is always the subscription that is live. *)
Theorem reachable_targets_are_consistent (st : Protocol.Store)
    (actions : list Action) (uniqueId : string) (protocol : ref) :
  let t := run st actions (new_RikeTargetImpl uniqueId protocol) in
  Lifecycle.consistent t
  /\ (forall s,
        _subscr t = Some s ->
        _response t = Some (sub_response s)
        /\ _observer t = Some (sub_observer s)
        /\ currentOperation t <> None).
Proof.
  intro t.
  assert (C : Lifecycle.consistent t)
    by (apply run_consistent; split; exact I).
  split; [exact C|].
  intros s Hs. destruct C as [C1 C2]. rewrite Hs in C1. destruct C1 as [R O].
  rewrite R in C2. unfold currentOperation.
  destruct (_operation t); [repeat split; auto; discriminate | congruence].
Qed.

Lemma reachable_targets_are_consistent_witness :
  _response loading_subscribed = Some 1
  /\ _observer loading_subscribed = Some quiet_observer
  /\ currentOperation loading_subscribed <> None.
Proof.
  destruct (reachable_targets_are_consistent Protocol.initial_store
              [Invoke load_operation (Normal 1);
               Subscribe (mkWrapped load_operation 1) quiet_observer]
              "1" Protocol.HTTP_PROTOCOL) as (_ & L).
  exact (L (mkSubscription 1 load_operation quiet_observer) eq_refl).
Defined.

(** X9.  The observer of an operation that ended through the transport stays
    attached.  So when the next operation is invoked and its observable is
    not subscribed, [cancel()] still finds an observer: it hands that old
    observer the cancel event of the new operation, sends the cancel event to
    the emitter and clears the record. *)
Theorem finished_observer_takes_next_cancel (st : Protocol.Store)
    (uniqueId : string) (protocol : ref) (A B : RikeOperation) (o : Observer)
    (r1 r2 : Observable) :
  complete_throws o = None ->
  error_throws o (Ev (new_RikeCancelEvent B undefined)) = None ->
  let t :=
    run st
      [Invoke A (Normal r1); Subscribe (mkWrapped A r1) o;
       Complete (mkSubscription r1 A o); Invoke B (Normal r2)]
      (new_RikeTargetImpl uniqueId protocol) in
  currentOperation t = Some B
  /\ _subscr t = None
  /\ fst (cancel t) = Normal true
  /\ emitted_by cancel t = [Error (new_RikeCancelEvent B undefined)]
  /\ delivered (snd (cancel t))
     = (delivered t
        ++ [ObserverError (observer_id o) (Ev (new_RikeCancelEvent B undefined));
            ObserverComplete (observer_id o)])%list
  /\ currentOperation (snd (cancel t)) = None.
Proof.
  intros Hc He t. subst t. unfold emitted_by, run. cbn [fold_left].
  destruct o as [oid nx er co]. cbn [complete_throws error_throws] in Hc, He.
  subst co. revert He. unfold new_RikeTargetImpl. unfold_methods.
  repeat (progress (method_cbn; cbn [existsb is_Error orb app];
                    rewrite ?Nat.eqb_refl)).
  intro He. rewrite ?He.
  repeat (progress (method_cbn; cbn [existsb is_Error orb app])).
  rewrite <- ?app_assoc, ?skipn_suffix. repeat split.
Qed.

Lemma finished_observer_takes_next_cancel_witness :
  let t :=
    run Protocol.initial_store
      [Invoke load_operation (Normal 1);
       Subscribe (mkWrapped load_operation 1) quiet_observer;
       Complete (mkSubscription 1 load_operation quiet_observer);
       Invoke save_operation (Normal 2)]
      fresh_target in
  emitted_by cancel t = [Error (new_RikeCancelEvent save_operation undefined)]
  /\ currentOperation (snd (cancel t)) = None.
Proof.
  intro t.
  destruct (finished_observer_takes_next_cancel Protocol.initial_store "1"
              Protocol.HTTP_PROTOCOL load_operation save_operation
              quiet_observer 1 2 eq_refl eq_refl) as (_ & _ & _ & E & _ & C).
  split; [exact E | exact C].
Defined.

End TargetHandlers.

(** ** Composing protocols *)

Section ProtocolComposition.
Import JS Protocol.
Context `{Angular}.

Lemma ref_below (q n : nat) : q < n -> Nat.eqb q n = false.
Proof. intro L. apply Nat.eqb_neq. lia. Qed.

(** X10.  [prepareRequestWith(f)] runs [f] and then the [prepareRequest] of
    the protocol it decorates; with [after] set it runs them the other way
    round; when the first of the two throws, the second is not run.  Stacked
    decorators run from the outside in: the function of the last
    [prepareRequestWith] runs first (last, with [after] set).  Writing,
    reading and [handleError] are those of the decorated protocol. *)
Theorem prepareRequestWith_order (st : Store) (base : ref) (f g : Hook1)
    (after : bool) :
  let a := prepareRequestWith st base f after in
  let b := prepareRequestWith (fst a) (snd a) g after in
  (forall options,
     prepareRequest (fst a) (snd a) options
     = if after
       then bindC (prepareRequest st base options) f
       else bindC (f options) (prepareRequest st base))
  /\ (forall options,
        prepareRequest (fst b) (snd b) options
        = if after
          then bindC (bindC (prepareRequest st base options) f) g
          else bindC (g options)
                 (fun x => bindC (f x) (prepareRequest st base)))
  /\ (forall request options,
        writeRequest (fst b) (snd b) request options
        = writeRequest st base request options)
  /\ (forall response,
        readResponse (fst b) (snd b) response = readResponse st base response)
  /\ handleError (fst b) (snd b) = handleError st base.
Proof.
  intros a b. subst a b.
  unfold prepareRequestWith, alloc, handleError.
  cbn [fst snd deref List.length]. rewrite !Nat.eqb_refl.
  repeat split; intros;
    cbn [writeRequest readResponse prepareRequest deref List.length];
    rewrite ?Nat.eqb_refl; destruct after; reflexivity.
Qed.

(** X11.  [updateRequestWith(update)] writes a request with the [writeRequest]
    of the protocol it decorates, applied to the options [update] returns;
    with [after] set, [update] is applied to the options [writeRequest]
    returns.  When the first of the two throws, the second is not run.
    Preparing, reading and [handleError] are those of the decorated
    protocol. *)
Theorem updateRequestWith_order (st : Store) (base : ref) (update : Hook2)
    (after : bool) :
  let a := updateRequestWith st base update after in
  (forall request options,
     writeRequest (fst a) (snd a) request options
     = if after
       then bindC (writeRequest st base request options) (update request)
       else bindC (update request options) (writeRequest st base request))
  /\ (forall options,
        prepareRequest (fst a) (snd a) options = prepareRequest st base options)
  /\ (forall response,
        readResponse (fst a) (snd a) response = readResponse st base response)
  /\ handleError (fst a) (snd a) = handleError st base.
Proof.
  intro a. subst a. unfold updateRequestWith, alloc, handleError.
  cbn [fst snd deref List.length]. rewrite !Nat.eqb_refl.
  repeat split; intros;
    cbn [writeRequest readResponse prepareRequest deref List.length negb];
    rewrite ?Nat.eqb_refl; destruct after; reflexivity.
Qed.

(** What a well-formed store gives: the methods of a reader or of an error
    handler that are not overridden are the methods of what it wraps. *)
Lemma deref_below (st : Store) :
  forall p o, deref st p = Some o -> p < List.length st.
Proof.
  induction st as [|o' older IH]; intros p o D; [discriminate|].
  cbn [deref] in D. cbn [List.length].
  destruct (Nat.eqb_spec p (List.length older)) as [->|N]; [lia|].
  apply IH in D. lia.
Qed.

Lemma deref_below_none (st : Store) :
  forall p, p < List.length st -> deref st p = None -> False.
Proof.
  induction st as [|o older IH]; intros p L D; [cbn in L; lia|].
  cbn [deref List.length] in *.
  destruct (Nat.eqb_spec p (List.length older)) as [->|N]; [discriminate|].
  apply (IH p); [lia | exact D].
Qed.

Lemma delegates (st : Store) :
  Chain.well_formed st ->
  forall p o parent,
    deref st p = Some o ->
    (exists g h, o = ReadResponseProtocol parent g h)
    \/ (exists h, o = HandleErrorProtocol parent h) ->
    parent < List.length st
    /\ (forall options,
          prepareRequest st p options = prepareRequest st parent options)
    /\ (forall request options,
          writeRequest st p request options
          = writeRequest st parent request options)
    /\ ((exists h, o = HandleErrorProtocol parent h) ->
        forall response,
          readResponse st p response = readResponse st parent response)
    /\ ((exists g h, o = ReadResponseProtocol parent g h) ->
        handleError st p = handleError st parent).
Proof.
  induction st as [|o' older IH]; intros W p o parent D K; [discriminate|].
  destruct W as [[R Hc] W]. cbn [deref] in D. unfold handleError.
  cbn [prepareRequest writeRequest readResponse deref List.length].
  destruct (Nat.eqb_spec p (List.length older)) as [->|N].
  - injection D as ->.
    assert (L : parent < List.length older).
    { destruct K as [(g & h & ->) | (h & ->)]; cbn [Chain.refs] in R;
        now inversion R. }
    rewrite (ref_below _ _ L).
    destruct K as [(g & h & ->) | (h & ->)]; (split; [lia|]);
      (split; [reflexivity|]); (split; [reflexivity|]); split;
      try (intros (? & ?); discriminate);
      try (intros (? & ? & ?); discriminate);
      intros _; try reflexivity.
    exact Hc.
  - destruct (IH W p o parent D K) as (L & P & Wr & Rd & He).
    rewrite (ref_below parent (List.length older) L).
    split; [lia|]. repeat split; auto.
Qed.

(** The initial store is well formed and every combinator keeps a store well
    formed. *)
Lemma initial_store_well_formed : Chain.well_formed initial_store.
Proof. repeat split; constructor. Qed.

Lemma combinators_keep_well_formed (st : Store) (this : ref) :
  Chain.well_formed st ->
  this < List.length st ->
  (forall f after, Chain.well_formed (fst (prepareRequestWith st this f after)))
  /\ (forall f, Chain.well_formed (fst (writeRequestWith st this f)))
  /\ (forall f after, Chain.well_formed (fst (updateRequestWith st this f after)))
  /\ (forall g, Chain.well_formed (fst (readResponseWith st this g)))
  /\ (forall h, Chain.well_formed (fst (handleErrorWith st this h))).
Proof.
  intros W L.
  repeat split; intros; try exact W;
    unfold readResponseWith, handleErrorWith in *;
    try (repeat constructor; assumption).
  - destruct (deref st this) as [[]|] eqn:D; cbn; repeat split;
      try (repeat constructor; assumption); try exact W.
    repeat constructor.
    eapply (delegates st W this); [exact D | left; eauto].
  - destruct (deref st this) as [[]|] eqn:D; cbn; repeat split;
      try (repeat constructor; assumption); try exact W.
    repeat constructor.
    eapply (delegates st W this); [exact D | right; eauto].
Qed.

(** X12.  Replacing the reader twice does not stack readers: in a store the
    combinators built, [base.readResponseWith(g1).readResponseWith(g2)] is a
    reader over the very object the first reader wraps, an object of the
    original store; it reads with [g2] and prepares, writes and handles
    errors as [base] does. *)
Theorem readResponseWith_replaces (st : Store) (base : ref) (g1 g2 : Hook1) :
  Chain.well_formed st ->
  base < List.length st ->
  let a := readResponseWith st base g1 in
  let b := readResponseWith (fst a) (snd a) g2 in
  (exists parent,
     parent < List.length st
     /\ deref (fst a) (snd a)
        = Some (ReadResponseProtocol parent g1 (handleError st base))
     /\ deref (fst b) (snd b)
        = Some (ReadResponseProtocol parent g2 (handleError st base)))
  /\ (forall response, readResponse (fst b) (snd b) response = g2 response)
  /\ (forall options,
        prepareRequest (fst b) (snd b) options = prepareRequest st base options)
  /\ (forall request options,
        writeRequest (fst b) (snd b) request options
        = writeRequest st base request options)
  /\ handleError (fst b) (snd b) = handleError st base.
Proof.
  intros W L a b. subst a b. unfold readResponseWith.
  destruct (deref st base) as [o|] eqn:D.
  - assert (K : forall parent g h,
               o = ReadResponseProtocol parent g h ->
               parent < List.length st
               /\ (forall options,
                     prepareRequest st base options
                     = prepareRequest st parent options)
               /\ (forall request options,
                     writeRequest st base request options
                     = writeRequest st parent request options)
               /\ handleError st base = handleError st parent).
    { intros parent g h ->.
      destruct (delegates st W base _ parent D) as (Lp & P & Wr & _ & He);
        [left; eauto|].
      repeat split; auto. apply He. eauto. }
    destruct o;
      try (cbn [alloc fst snd deref List.length]; rewrite !Nat.eqb_refl;
           cbn [alloc fst snd deref List.length]; unfold handleError;
           cbn [deref List.length]; rewrite !Nat.eqb_refl;
           rewrite ?(ref_below base (List.length st) L);
           split; [exists base; repeat split; auto|];
           repeat split; intros;
           cbn [writeRequest readResponse prepareRequest deref List.length];
           rewrite ?Nat.eqb_refl;
           rewrite ?(ref_below base (List.length st) L); reflexivity).
    destruct (K _ _ _ eq_refl) as (Lp & P & Wr & He).
    cbn [alloc fst snd deref List.length]. rewrite !Nat.eqb_refl.
    cbn [alloc fst snd deref List.length]. unfold handleError in *.
    cbn [deref List.length]. rewrite !Nat.eqb_refl.
    rewrite ?(ref_below _requestProtocol (List.length st) Lp).
    rewrite <- He.
    split; [exists _requestProtocol; repeat split; auto|].
    repeat split; intros;
      cbn [writeRequest readResponse prepareRequest deref List.length];
      rewrite ?Nat.eqb_refl;
      rewrite ?(ref_below _requestProtocol (List.length st) Lp);
      rewrite ?P, ?Wr; reflexivity.
  - apply deref_below_none in D; [lia | exact L].
Qed.

Lemma handleErrorWith_result (st : Store) (base : ref) (h : option Hook1) :
  Chain.well_formed st ->
  base < List.length st ->
  exists parent,
    parent < List.length st
    /\ handleErrorWith st base h
       = (HandleErrorProtocol parent h :: st, List.length st)
    /\ (forall options,
          prepareRequest st parent options = prepareRequest st base options)
    /\ (forall request options,
          writeRequest st parent request options
          = writeRequest st base request options)
    /\ (forall response,
          readResponse st parent response = readResponse st base response).
Proof.
  intros W L. unfold handleErrorWith, alloc.
  destruct (deref st base) as [o|] eqn:D;
    [|apply deref_below_none in D; [lia | exact L]].
  destruct o; try solve [exists base; repeat split; auto].
  destruct (delegates st W base _ _protocol D) as (Lp & P & Wr & Rd & _);
    [right; eauto|].
  exists _protocol. split; [exact Lp|]. split; [reflexivity|].
  split; [intro; symmetry; apply P|].
  split; [intros; symmetry; apply Wr|].
  intro r. symmetry. apply Rd. eauto.
Qed.

(** X13.  [handleErrorWith(h)] gives a protocol whose [handleError] is [h]
    and whose other hooks are those of the decorated protocol.  Replacing the
    handler again does not stack handlers: the new object wraps what the first
    one wraps and has the last handler.  A handler set this way is kept by
    the decorators applied afterwards. *)
Theorem handleErrorWith_replaces (st : Store) (base : ref)
    (h1 h2 : option Hook1) (f : Hook1) (w : Hook2) (g : Hook1) :
  Chain.well_formed st ->
  base < List.length st ->
  let a := handleErrorWith st base h1 in
  let b := handleErrorWith (fst a) (snd a) h2 in
  let c := prepareRequestWith (fst a) (snd a) f false in
  let d := writeRequestWith (fst c) (snd c) w in
  let e := readResponseWith (fst d) (snd d) g in
  handleError (fst a) (snd a) = h1
  /\ handleError (fst b) (snd b) = h2
  /\ (exists parent,
        parent < List.length st
        /\ deref (fst a) (snd a) = Some (HandleErrorProtocol parent h1)
        /\ deref (fst b) (snd b) = Some (HandleErrorProtocol parent h2))
  /\ (forall options,
        prepareRequest (fst b) (snd b) options = prepareRequest st base options)
  /\ (forall request options,
        writeRequest (fst b) (snd b) request options
        = writeRequest st base request options)
  /\ (forall response,
        readResponse (fst b) (snd b) response = readResponse st base response)
  /\ handleError (fst e) (snd e) = h1.
Proof.
  intros W L a b c d e. subst b c d e.
  destruct (handleErrorWith_result st base h1 W L)
    as (parent & Lp & Ea & P & Wr & Rd).
  subst a. rewrite Ea. cbn [fst snd].
  unfold handleErrorWith, readResponseWith, writeRequestWith,
    prepareRequestWith, alloc, handleError.
  cbn [fst snd deref List.length]. rewrite ?Nat.eqb_refl.
  cbn [fst snd deref List.length]. rewrite ?Nat.eqb_refl.
  cbn [fst snd deref List.length]. rewrite ?Nat.eqb_refl.
  cbn [fst snd deref List.length]. rewrite ?Nat.eqb_refl.
  (split; [reflexivity|]); (split; [reflexivity|]);
    (split; [exists parent; repeat split; auto|]).
  repeat split; intros;
    cbn [writeRequest readResponse prepareRequest deref List.length];
    rewrite ?Nat.eqb_refl;
    rewrite ?(ref_below parent (List.length st) Lp);
    rewrite ?P, ?Wr, ?Rd; reflexivity.
Qed.

End ProtocolComposition.

Lemma readResponseWith_replaces_witness :
  let g1 := fun _ : JS.JSValue => Normal (JS.JString "first") in
  let g2 := fun _ : JS.JSValue => Normal (JS.JString "second") in
  let a := Protocol.readResponseWith Protocol.initial_store
             Protocol.JSON_PROTOCOL g1 in
  let b := Protocol.readResponseWith (fst a) (snd a) g2 in
  Protocol.deref (fst b) (snd b)
  = Some (Protocol.ReadResponseProtocol Protocol.JSON_PROTOCOL g2 None).
Proof.
  intros g1 g2 a b.
  assert (L : Protocol.JSON_PROTOCOL < List.length Protocol.initial_store)
    by (unfold Protocol.JSON_PROTOCOL; simpl; lia).
  destruct (@readResponseWith_replaces Protocol.plain_angular
              Protocol.initial_store Protocol.JSON_PROTOCOL g1 g2
              initial_store_well_formed L) as ((parent & _ & _ & D) & _).
  reflexivity.
Defined.

Lemma handleErrorWith_replaces_witness :
  let h := Some (fun e : JS.JSValue => Normal (JS.JArray [e])) in
  let a := Protocol.handleErrorWith Protocol.initial_store
             Protocol.HTTP_PROTOCOL h in
  let c := Protocol.prepareRequestWith (fst a) (snd a)
             (fun o => Normal o) false in
  let d := Protocol.writeRequestWith (fst c) (snd c)
             (fun _ o => Normal o) in
  let e := Protocol.readResponseWith (fst d) (snd d) (fun r => Normal r) in
  Protocol.handleError (fst e) (snd e) = h.
Proof.
  intros h a c d e.
  assert (L : Protocol.HTTP_PROTOCOL < List.length Protocol.initial_store)
    by (unfold Protocol.HTTP_PROTOCOL; simpl; lia).
  destruct (@handleErrorWith_replaces Protocol.plain_angular
              Protocol.initial_store Protocol.HTTP_PROTOCOL h None
              (fun o => Normal o) (fun _ o => Normal o) (fun r => Normal r)
              initial_store_well_formed L) as (_ & _ & _ & _ & _ & _ & E).
  exact E.
Defined.

(** ** The shape of what the error normalizer returns *)

Section ErrorShapes.
Import JS Error Shape.

(** Induction on a value through the elements of arrays. *)
Lemma JSValue_arrays_ind (P : JSValue -> Prop) :
  (forall v,
      match v with
      | JArray elems => Forall P elems
      | _ => True
      end -> P v) ->
  forall v, P v.
Proof.
  intro H.
  exact
    (fix IH (v : JSValue) : P v :=
       H v
         (match v
                return match v with
                       | JArray elems => Forall P elems
                       | _ => True
                       end
          with
          | JArray elems =>
              (fix all (l : list JSValue) : Forall P l :=
                 match l with
                 | [] => Forall_nil P
                 | x :: rest => Forall_cons x (IH x) (all rest)
                 end) elems
          | _ => I
          end)).
Qed.

Lemma plain_has_own (name : string) (props : list (string * JSValue)) :
  plain (JObject props) = true -> inherited name = true ->
  has_own name props = false.
Proof.
  intros P I. cbn [plain] in P.
  induction props as [|[k x] props IH]; [reflexivity|].
  apply andb_true_iff in P as [P1 P2]. apply andb_true_iff in P1 as [Pk _].
  cbn [has_own]. rewrite (IH P2), orb_false_r.
  apply negb_true_iff in Pk. destruct (String.eqb_spec k name);
    [subst; congruence | reflexivity].
Qed.

(** Plain data prints. *)
Lemma plain_toString (v : JSValue) :
  plain v = true -> nullish v = false -> exists s, toString v = Normal s.
Proof.
  induction v as [v IH] using JSValue_arrays_ind. intros P N.
  destruct v as [| |[|]|n|s|elems|props|r|a b]; try discriminate N;
    try (eexists; reflexivity).
  - cbn [toString]. cbn [plain] in P. clear N.
    assert (A : exists parts,
               (fix each (l : list JSValue) : Result (list string) :=
                  match l with
                  | [] => Normal []
                  | x :: rest =>
                      bindC
                        (match x with
                         | JUndefined | JNull => Normal ""
                         | JObject props =>
                             if has_own "toString" props
                             then Throw
                                    (TypeError
                                       "Cannot convert object to primitive value")
                             else toString x
                         | _ => toString x
                         end)
                        (fun s => bindC (each rest) (fun ss => Normal (s :: ss)))
                  end) elems = Normal parts).
    { induction IH as [|x rest Hx Hr IHl]; [eexists; reflexivity|].
      apply andb_true_iff in P as [Px Pr].
      destruct (IHl Pr) as [ss Es]. rewrite Es.
      destruct x as [| |b|n|s|elems'|props|r|a b];
        try (eexists; reflexivity).
      + destruct b; eexists; reflexivity.
      + destruct (Hx Px eq_refl) as [s0 E0]. rewrite E0.
        eexists; reflexivity.
      + pose proof (plain_has_own "toString" props Px eq_refl) as H.
        rewrite H. cbn [toString]. rewrite H. eexists; reflexivity. }
    destruct A as [parts ->]. eexists; reflexivity.
  - pose proof (plain_has_own "toString" props P eq_refl) as H.
    cbn [toString]. rewrite H. eexists; reflexivity.
Qed.

Lemma plain_lookup (name : string) (props : list (string * JSValue)) :
  plain (JObject props) = true -> plain (lookup name props) = true.
Proof.
  cbn [plain]. induction props as [|[k x] props IH]; intro P; [reflexivity|].
  apply andb_true_iff in P as [P1 P2]. apply andb_true_iff in P1 as [_ Px].
  cbn [lookup]. destruct (String.eqb k name); auto.
Qed.

Lemma plain_prop (v : JSValue) (name : string) :
  plain v = true -> plain (prop v name) = true.
Proof.
  destruct v as [| |b|n|s|elems|props|r|a b]; try reflexivity;
    try discriminate.
  apply plain_lookup.
Qed.

Lemma plain_values (props : list (string * JSValue)) :
  plain (JObject props) = true ->
  Forall (fun kv => plain (snd kv) = true) props.
Proof.
  cbn [plain]. induction props as [|[k x] props IH]; intro P; constructor.
  - apply andb_true_iff in P as [P1 _]. now apply andb_true_iff in P1 as [_ Px].
  - apply IH. now apply andb_true_iff in P as [_ P2].
Qed.

Lemma plain_elements (elems : list JSValue) :
  plain (JArray elems) = true -> Forall (fun x => plain x = true) elems.
Proof.
  cbn [plain]. induction elems as [|x elems IH]; intro P; constructor.
  - now apply andb_true_iff in P as [Px _].
  - apply IH. now apply andb_true_iff in P as [_ P2].
Qed.

(** On plain data none of the conversions throws. *)
Lemma plain_toFieldError (v : JSValue) :
  plain v = true -> exists e, toFieldError v = Normal e.
Proof.
  intro P. unfold toFieldError.
  destruct (nullish v) eqn:N; [eauto|].
  destruct (typeof_string (prop v "message")
            && (nullish (prop v "code")
                || is_string "string" (prop v "code"))); [eauto|].
  destruct (nullish (prop v "message")) eqn:M; cbn [negb].
  - destruct (plain_toString v P N) as [s ->]. cbn. eauto.
  - destruct (plain_toString _ (plain_prop v "message" P) M) as [m Em].
    destruct (nullish (prop v "code")) eqn:C; cbn [negb].
    + cbn [bindC]. rewrite Em. cbn. eauto.
    + destruct (plain_toString _ (plain_prop v "code" P) C) as [c ->].
      cbn [bindC]. rewrite Em. cbn. eauto.
Qed.

Lemma plain_map_toFieldError (elems : list JSValue) :
  Forall (fun x => plain x = true) elems ->
  exists es, map_toFieldError elems = Normal es.
Proof.
  induction 1 as [|x elems Px Pr [es IH]]; [now exists []|].
  cbn [map_toFieldError]. destruct (plain_toFieldError x Px) as [e ->].
  rewrite IH. cbn. eauto.
Qed.

Lemma plain_toFieldErrorArray (v : JSValue) :
  plain v = true -> exists l, toFieldErrorArray v = Normal l.
Proof.
  intro P. unfold toFieldErrorArray. destruct (nullish v); [eauto|].
  destruct v as [| |b|n|s|elems|props|r|a b];
    try (destruct (plain_toFieldError _ P) as [e ->]; cbn; eauto).
  destruct (plain_map_toFieldError elems (plain_elements elems P)) as [es ->].
  cbn. eauto.
Qed.

Lemma plain_collect (errors fields : list (string * JSValue)) :
  has_own "hasOwnProperty" errors = false ->
  Forall (fun kv => plain (snd kv) = true) fields ->
  forall acc, exists r, collect errors fields acc = Normal r.
Proof.
  intros H F. induction F as [|[k x] fields Px Pf IH]; intro acc; [cbn; eauto|].
  cbn [collect]. rewrite H. cbn [snd] in Px.
  destruct (plain_toFieldErrorArray x Px) as [l ->]. cbn [bindC].
  destruct l; apply IH.
Qed.

Lemma plain_toFieldErrors (data : JSValue) :
  plain data = true -> exists v, toFieldErrors data = Normal v.
Proof.
  intro P. unfold toFieldErrors. destruct (nullish data) eqn:N; [eauto|].
  destruct data as [| |b|n|s|elems|props|r|a b]; try discriminate N;
    try discriminate P; cbn [typeof_object negb];
    try (destruct (plain_toString _ P N) as [m ->]; cbn; eauto).
  - destruct (plain_map_toFieldError elems (plain_elements elems P)) as [es ->].
    cbn. eauto.
  - cbn [own_props].
    destruct (plain_collect props props
                (plain_has_own "hasOwnProperty" props P eq_refl)
                (plain_values props P) ([], false)) as [res ->].
    cbn. eauto.
Qed.

Lemma forallb_filter_same {A} (p : A -> bool) (l : list A) :
  forallb p (filter p l) = true.
Proof.
  induction l as [|x l IH]; simpl; [reflexivity|].
  destruct (p x) eqn:E; simpl; [rewrite E|]; exact IH.
Qed.

Lemma error_list_filter (l : list JSValue) :
  filter notEmptyError l <> [] ->
  error_list (JArray (filter notEmptyError l)) = true.
Proof.
  intro N. unfold error_list.
  destruct (filter notEmptyError l) as [|e rest] eqn:E; [congruence|].
  rewrite <- E. apply forallb_filter_same.
Qed.

Lemma toFieldErrorArray_list (v : JSValue) (l : list JSValue) :
  toFieldErrorArray v = Normal l -> l <> [] -> error_list (JArray l) = true.
Proof.
  unfold toFieldErrorArray.
  destruct (nullish v); [intros [= <-]; congruence|].
  destruct v; intro E; apply bindC_Normal in E as (x & _ & E);
    injection E as <-;
    first [apply error_list_filter | apply (error_list_filter [x])].
Qed.

Lemma under_star_shape (l : list JSValue) :
  under_star (filter notEmptyError l) = JUndefined
  \/ (field_errors (under_star (filter notEmptyError l)) = true
      /\ NoDup (map fst (own_props (under_star (filter notEmptyError l))))).
Proof.
  unfold under_star.
  destruct (filter notEmptyError l) as [|e rest] eqn:E; [now left|].
  right. split.
  - unfold field_errors. cbn [forallb snd]. rewrite <- E.
    rewrite error_list_filter; [reflexivity | congruence].
  - cbn. constructor; [intros [] | constructor].
Qed.

Lemma assign_keeps (k : string) (v : JSValue) (props : list (string * JSValue)) :
  error_list v = true ->
  forallb (fun kv => error_list (snd kv)) props = true ->
  NoDup (map fst props) ->
  forallb (fun kv => error_list (snd kv)) (assign k v props) = true
  /\ NoDup (map fst (assign k v props))
  /\ assign k v props <> []
  /\ (forall x, In x (map fst (assign k v props)) <-> x = k \/ In x (map fst props)).
Proof.
  intro Hv. induction props as [|[k' w] props IH]; intros Hp D.
  - cbn. rewrite Hv. split; [reflexivity|]. split.
    + constructor; [intros [] | constructor].
    + split; [discriminate|]. intro x. intuition congruence.
  - cbn [assign]. cbn [forallb snd] in Hp.
    apply andb_true_iff in Hp as [Hw Hp]. inversion D as [|? ? Nk D']; subst.
    destruct (String.eqb_spec k' k) as [->|Ne].
    + cbn [forallb snd map fst]. rewrite Hv, Hp.
      split; [reflexivity|]. split; [exact D|]. split; [discriminate|].
      intro x. cbn. intuition congruence.
    + destruct (IH Hp D') as (F & Dn & _ & I).
      cbn [forallb snd map fst]. rewrite Hw, F.
      split; [reflexivity|]. split.
      * constructor; [|exact Dn]. rewrite I. intros [E|J]; [congruence|tauto].
      * split; [discriminate|]. intro x. cbn. rewrite I. intuition congruence.
Qed.

(** What the loop builds from fields none of which is named [__proto__]. *)
Lemma collect_shape (errors fields : list (string * JSValue)) :
  forallb (fun kv => negb (String.eqb (fst kv) "__proto__")) fields = true ->
  forall acc b r,
    forallb (fun kv => error_list (snd kv)) acc = true ->
    NoDup (map fst acc) ->
    (b = true <-> acc <> []) ->
    collect errors fields (acc, b) = Normal r ->
    forallb (fun kv => error_list (snd kv)) (fst r) = true
    /\ NoDup (map fst (fst r))
    /\ (snd r = true <-> fst r <> []).
Proof.
  induction fields as [|[k v] fields IH]; intros K acc b r Ha D Hb E.
  - cbn in E. injection E as <-. now cbn.
  - cbn [collect] in E. cbn [forallb fst] in K.
    apply andb_true_iff in K as [Kk K]. apply negb_true_iff in Kk.
    destruct (has_own "hasOwnProperty" errors); [discriminate E|].
    apply bindC_Normal in E as (l & El & E).
    destruct l as [|e rest].
    + eapply IH; eauto.
    + assert (Hv : error_list (JArray (e :: rest)) = true)
        by (eapply toFieldErrorArray_list; [exact El | discriminate]).
      destruct (assign_keeps k (JArray (e :: rest)) acc Hv Ha D)
        as (F & Dn & Ne & _).
      unfold file_under in E. rewrite Kk in E. cbn [fst] in E.
      eapply IH; [exact K | exact F | exact Dn | | exact E]. tauto.
Qed.

Lemma ordinary_own_props (data : JSValue) :
  ordinary_fields data = true ->
  forallb (fun kv => negb (String.eqb (fst kv) "__proto__")) (own_props data)
  = true.
Proof. destruct data; try reflexivity. exact (fun H => H). Qed.

(** What field-error extraction returns when it returns. *)
Lemma toFieldErrors_form (data v : JSValue) :
  ordinary_fields data = true ->
  toFieldErrors data = Normal v ->
  v = JUndefined
  \/ (field_errors v = true /\ NoDup (map fst (own_props v))).
Proof.
  intros O. unfold toFieldErrors.
  destruct (nullish data); [intros [= <-]; now left|].
  assert (A : forall c : Result (list JSValue),
             bindC c (fun es => Normal (under_star (filter notEmptyError es)))
             = Normal v ->
             v = JUndefined
             \/ (field_errors v = true /\ NoDup (map fst (own_props v)))).
  { intros c E. apply bindC_Normal in E as (es & _ & [= <-]).
    apply under_star_shape. }
  assert (B : forall c : Result string,
             bindC c
               (fun message =>
                  Normal
                    (under_star
                       (filter notEmptyError
                          [JObject [("message", JString message)]])))
             = Normal v ->
             v = JUndefined
             \/ (field_errors v = true /\ NoDup (map fst (own_props v)))).
  { intros c E. apply bindC_Normal in E as (m & _ & E). injection E as <-.
    apply (under_star_shape [JObject [("message", JString m)]]). }
  pose proof (ordinary_own_props data O) as K.
  assert (C : bindC (collect (own_props data) (own_props data) ([], false))
                (fun r => Normal (if snd r then JObject (fst r) else JUndefined))
              = Normal v ->
              v = JUndefined
              \/ (field_errors v = true /\ NoDup (map fst (own_props v)))).
  { intro E. apply bindC_Normal in E as ([result hasErrors] & Ec & [= <-]).
    destruct (collect_shape _ _ K [] false _ eq_refl (NoDup_nil _)
                (conj (fun H => False_ind _ (Bool.diff_false_true H))
                      (fun H => False_ind _ (H eq_refl))) Ec)
      as (F & D & Bq).
    cbn [fst snd] in *. destruct hasErrors; [|now left].
    right. split; [|exact D]. unfold field_errors.
    destruct result as [|f rest]; [now destruct (proj1 Bq eq_refl)|exact F]. }
  destruct data; cbn [typeof_object negb];
    first [exact C | apply A | apply B].
Qed.

Lemma plain_ordinary (data : JSValue) :
  plain data = true -> ordinary_fields data = true.
Proof.
  destruct data as [| |b|n|s|elems|props|r|a b]; try reflexivity.
  cbn [ordinary_fields plain].
  induction props as [|[k x] props IH]; intro P; [reflexivity|].
  apply andb_true_iff in P as [P1 P2]. apply andb_true_iff in P1 as [Pk _].
  cbn [forallb fst]. rewrite (IH P2), andb_true_r.
  apply negb_true_iff in Pk. apply negb_true_iff.
  destruct (String.eqb_spec k "__proto__"); [subst; discriminate Pk|reflexivity].
Qed.

(** X14.  On plain data (no object in it has a property named like a member
    of [Object.prototype]) field-error extraction returns, and what it
    returns is [undefined] or an object with at least one field, every field
    holds an array of at least one error, every error has a non-empty message
    or code, and no field name occurs twice: an empty field or an empty error
    never comes out. *)
Theorem toFieldErrors_shape (data : JSValue) :
  plain data = true ->
  exists v,
    toFieldErrors data = Normal v
    /\ (v = JUndefined
        \/ (field_errors v = true /\ NoDup (map fst (own_props v)))).
Proof.
  intro P. destruct (plain_toFieldErrors data P) as [v E].
  exists v. split; [exact E|].
  apply (toFieldErrors_form data v); [now apply plain_ordinary | exact E].
Qed.

Lemma toFieldErrors_shape_witness :
  let data :=
    JObject [("email", JString "required"); ("name", JString "");
             ("age", JArray [JNumber 7; JNull])] in
  exists v,
    toFieldErrors data = Normal v
    /\ field_errors v = true /\ NoDup (map fst (own_props v)).
Proof.
  intro data.
  destruct (toFieldErrors_shape data eq_refl) as (v & E & S).
  exists v. split; [exact E|].
  destruct S as [U|S]; [|exact S].
  rewrite U in E. discriminate E.
Defined.





(** X16.  When single-error coercion returns, what it returns is an error
    in normal form, an object whose message is a string and whose code is a
    string, [null] or [undefined], and coercing it again changes nothing.
    It throws only on data that is not plain; it does throw on an object
    without message that has a property [toString] of its own. *)
Theorem toFieldError_normal_form (data : JSValue) :
  match toFieldError data with
  | Normal v => normal_error v = true /\ toFieldError v = Normal v
  | Throw _ => plain data = false
  end
  /\ (forall props,
        has_own "toString" props = true ->
        nullish (prop (JObject props) "message") = true ->
        exists e, toFieldError (JObject props) = Throw e).
Proof.
  split.
  - destruct (toFieldError data) as [v|e] eqn:E.
    + unfold toFieldError in E.
      destruct (nullish data) eqn:N.
      { injection E as <-. split; reflexivity. }
      destruct (typeof_string (prop data "message")
                && (nullish (prop data "code")
                    || is_string "string" (prop data "code"))) eqn:P.
      { injection E as <-. split; [|unfold toFieldError; now rewrite N, P].
        unfold normal_error. apply andb_true_iff in P as [M C]. rewrite M.
        apply orb_true_iff in C as [C|C]; [now rewrite C|].
        destruct (prop data "code"); try discriminate. now rewrite orb_true_r. }
      destruct (nullish (prop data "message")) eqn:M; cbn [negb] in E.
      { apply bindC_Normal in E as (m & _ & [= <-]). split; reflexivity. }
      apply bindC_Normal in E as (c & Ec & E).
      apply bindC_Normal in E as (m & _ & [= <-]).
      destruct (nullish (prop data "code")) eqn:C; cbn [negb] in Ec.
      { injection Ec as <-. split; reflexivity. }
      apply bindC_Normal in Ec as (c' & _ & [= <-]).
      split; [reflexivity|].
      unfold toFieldError.
      cbn [nullish prop lookup String.eqb Ascii.eqb Bool.eqb typeof_string
           andb orb negb toString is_string bindC].
      destruct (String.eqb c' "string"); reflexivity.
    + destruct (plain data) eqn:P; [|reflexivity].
      destruct (plain_toFieldError data P) as [v Ev]. congruence.
  - intros props H M. unfold toFieldError.
    cbn [nullish]. destruct (prop (JObject props) "message");
      try discriminate M; cbn [typeof_string andb nullish negb toString];
      rewrite H; cbn; eauto.
Qed.

End ErrorShapes.

(** ** The service: URLs, methods and targets *)

Section Service.
Import JS.
Context `{Angular}.

Lemma match_prefix_extends (r : Options.regex) (s t : string) :
  Options.match_prefix r s = true -> Options.match_prefix r (s ++ t) = true.
Proof.
  rewrite !match_prefix_spec. intros (p & q & -> & M).
  exists p, (q ++ t). split; [apply append_assoc | exact M].
Qed.

Lemma absolute_unchanged (base : option string) (url : string) :
  Rike.absolute url = true -> Options.relativeUrl base url = url.
Proof.
  unfold Rike.absolute, Options.relativeUrl. intro A.
  destruct base as [b|]; [|reflexivity].
  destruct (String.eqb b ""); [reflexivity|].
  destruct (Options.starts_with_slash url); [reflexivity|].
  cbn [orb] in A. now rewrite A.
Qed.

Lemma absolute_result (base url : string) :
  Rike.absolute base = true ->
  Rike.absolute (Options.relativeUrl (Some base) url) = true.
Proof.
  unfold Rike.absolute at 1. intro A. unfold Options.relativeUrl.
  destruct (String.eqb_spec base "") as [->|Ne]; [discriminate|].
  destruct (Options.starts_with_slash url) eqn:S;
    [unfold Rike.absolute; now rewrite S|].
  destruct (Options.match_prefix Options.FULL_URL url) eqn:F;
    [unfold Rike.absolute; now rewrite F, orb_true_r|].
  unfold Rike.absolute. apply orb_true_iff in A as [A|A].
  - destruct base; [discriminate|]. cbn in *. now rewrite A.
  - rewrite (match_prefix_extends _ base ("/" ++ url) A). apply orb_true_r.
Qed.

(** X17.  Resolving against an absolute base URL (one that begins with a
    slash, with [scheme://] or with [//]) gives an absolute URL, so a second
    resolution, against any base, leaves it as it is: the global base URL
    never applies to a URL already resolved against such a base of a target,
    and resolving twice against the same such base is resolving once. *)
Theorem relativeUrl_absolute_base_wins (global : option string)
    (base url : string) :
  Rike.absolute base = true ->
  Options.relativeUrl global (Options.relativeUrl (Some base) url)
  = Options.relativeUrl (Some base) url
  /\ Options.relativeUrl (Some base) (Options.relativeUrl (Some base) url)
     = Options.relativeUrl (Some base) url.
Proof.
  intro A. split; apply absolute_unchanged, absolute_result, A.
Qed.

Lemma relativeUrl_absolute_base_wins_witness :
  Options.relativeUrl (Some "http://host/api")
    (Options.relativeUrl (Some "/users") "42")
  = "/users/42".
Proof.
  destruct (relativeUrl_absolute_base_wins (Some "http://host/api")
              "/users" "42" eq_refl) as (E & _).
  rewrite E. reflexivity.
Defined.

(** X18.  [updateRequestOptions] returns its argument when there are no
    options, no URL, or a URL the base does not change.  Otherwise it returns
    new options with the resolved URL and the method, search, headers, body
    and credentials flag of the argument, and with none of its other
    properties.  With an absolute base URL, updating twice is updating
    once. *)
Theorem updateRequestOptions_resolves (rike : Rike.Rike)
    (options : option Rike.RequestOptionsArgs) :
  (match options with
   | Some o =>
       match Rike.url o with
       | Some u =>
           if String.eqb (Options.relativeUrl (Rike.baseUrl rike) u) u
           then Rike.updateRequestOptions rike options = options
           else
             exists o',
               Rike.updateRequestOptions rike options = Some o'
               /\ Rike.url o'
                  = Some (Options.relativeUrl (Rike.baseUrl rike) u)
               /\ Rike.method o' = Rike.method o
               /\ Rike.search o' = Rike.search o
               /\ Rike.headers o' = Rike.headers o
               /\ Rike.body o' = Rike.body o
               /\ Rike.withCredentials o' = Rike.withCredentials o
               /\ Rike.others o' = []
       | None => Rike.updateRequestOptions rike options = options
       end
   | None => Rike.updateRequestOptions rike options = None
   end)
  /\ (match Rike.baseUrl rike with
      | Some b => Rike.absolute b = true
      | None => True
      end ->
      Rike.updateRequestOptions rike (Rike.updateRequestOptions rike options)
      = Rike.updateRequestOptions rike options).
Proof.
  split.
  - destruct options as [o|]; [|reflexivity].
    unfold Rike.updateRequestOptions.
    destruct (Rike.url o) as [u|]; [|reflexivity].
    destruct (String.eqb (Options.relativeUrl (Rike.baseUrl rike) u) u);
      cbn [negb]; [reflexivity|].
    eexists. repeat split.
  - intro A. destruct options as [o|]; [|reflexivity].
    destruct (Rike.url o) as [u|] eqn:U.
    + destruct (String.eqb (Options.relativeUrl (Rike.baseUrl rike) u) u) eqn:E.
      * assert (S : Rike.updateRequestOptions rike (Some o) = Some o)
          by (unfold Rike.updateRequestOptions; now rewrite U, E).
        now rewrite !S.
      * assert (S : Rike.updateRequestOptions rike (Some o)
                    = Some (Rike.mkOptions
                              (Some (Options.relativeUrl (Rike.baseUrl rike) u))
                              (Rike.method o) (Rike.search o) (Rike.headers o)
                              (Rike.body o) (Rike.withCredentials o) []))
          by (unfold Rike.updateRequestOptions; now rewrite U, E).
        rewrite S. unfold Rike.updateRequestOptions. cbn [Rike.url].
        assert (I : Options.relativeUrl (Rike.baseUrl rike)
                      (Options.relativeUrl (Rike.baseUrl rike) u)
                    = Options.relativeUrl (Rike.baseUrl rike) u).
        { destruct (Rike.baseUrl rike) as [b|]; [|reflexivity].
          apply absolute_unchanged, absolute_result, A. }
        rewrite I, String.eqb_refl. reflexivity.
    + assert (S : Rike.updateRequestOptions rike (Some o) = Some o)
        by (unfold Rike.updateRequestOptions; now rewrite U).
      now rewrite !S.
Qed.

Lemma updateRequestOptions_resolves_witness :
  let rike := Rike.mkRike 0 (Some "/api") None in
  let o := Rike.mkOptions (Some "users") None JUndefined JUndefined JUndefined
             JUndefined [("timeout", JNumber 5)] in
  Rike.updateRequestOptions rike (Rike.updateRequestOptions rike (Some o))
  = Some (Rike.mkOptions (Some "/api/users") None JUndefined JUndefined
            JUndefined JUndefined []).
Proof.
  intros rike o.
  destruct (updateRequestOptions_resolves rike (Some o)) as (_ & I).
  rewrite (I eq_refl). reflexivity.
Defined.

(** X19.  [requestMethod] returns a [RequestMethod] value unchanged.  A name
    of ASCII characters is looked up whatever the case of its letters: the
    call returns the method whose upper-case name it is, and throws
    "Unsupported HTTP request method: <name>" when it is the name of none of
    the seven methods. *)
Theorem requestMethod_by_name (name : string) :
  Rike.is_ascii name = true ->
  (forall m, Rike.requestMethod (Rike.ByValue m) = Normal m)
  /\ (forall m, Rike.requestMethod (Rike.ByName (Rike.name_of m)) = Normal m)
  /\ match Rike.requestMethod (Rike.ByName name) with
     | Normal m => Rike.toUpperCase name = Rike.name_of m
     | Throw e =>
         e = Rike.new_Error ("Unsupported HTTP request method: " ++ name)
         /\ forall m, Rike.toUpperCase name <> Rike.name_of m
     end.
Proof.
  intros _. split; [reflexivity|]. split; [intros []; reflexivity|].
  unfold Rike.requestMethod, Rike.REQUEST_METHODS, Rike.method_named.
  repeat match goal with
         | |- context [String.eqb ?k (Rike.toUpperCase name)] =>
             destruct (String.eqb_spec k (Rike.toUpperCase name)) as [<-|?]
         end; try reflexivity.
  split; [reflexivity|]. intros []; cbn [Rike.name_of]; congruence.
Qed.

Lemma requestMethod_by_name_witness :
  Rike.requestMethod (Rike.ByName "Delete") = Normal RequestMethod.Delete.
Proof.
  pose proof (requestMethod_by_name "Delete" eq_refl) as (_ & _ & M).
  destruct (Rike.requestMethod (Rike.ByName "Delete")) as [m|e] eqn:E.
  - destruct m; try discriminate M. reflexivity.
  - destruct M as (_ & N). now destruct (N RequestMethod.Delete).
Defined.

Lemma to_int_not_nil (z : Z) :
  Z.to_int z <> Decimal.Pos Decimal.Nil /\ Z.to_int z <> Decimal.Neg Decimal.Nil.
Proof.
  destruct z as [|p|p]; cbn; split; try discriminate;
    intro E; injection E as E;
    exact (DecimalPos.Unsigned.to_uint_nonnil p E).
Qed.

Lemma number_toString_injective (a b : Z) :
  number_toString a = number_toString b -> a = b.
Proof.
  unfold number_toString. intro E.
  apply DecimalZ.to_int_inj.
  destruct (to_int_not_nil a) as [A1 A2], (to_int_not_nil b) as [B1 B2].
  pose proof (NilZero.isi _ A1 A2) as Ia.
  pose proof (NilZero.isi _ B1 B2) as Ib.
  rewrite E in Ia. rewrite Ia in Ib. now injection Ib.
Qed.

Lemma increment_below (n : nat) :
  (Z.of_nat n < 9007199254740992)%Z -> Rike.increment n = S n.
Proof.
  intro L. unfold Rike.increment.
  now destruct (Z.ltb_spec (Z.of_nat n) 9007199254740992); [|lia].
Qed.

Lemma targets_ids (protocols : list (option Protocol.ref)) :
  forall st rike t,
    (Z.of_nat (Rike._uniqueIdSeq rike) + Z.of_nat (List.length protocols)
     <= 9007199254740992)%Z ->
    In t (Rike.targets st rike protocols) ->
    exists n,
      Rike._uniqueIdSeq rike < n
      /\ Target._uniqueId t = number_toString (Z.of_nat n).
Proof.
  induction protocols as [|p protocols IH]; intros st rike t B I;
    [destruct I|].
  cbn [Rike.targets] in I. unfold Rike.target, Rike.generateUniqueId in I.
  cbn [List.length] in B.
  rewrite increment_below in I by lia.
  destruct (match Protocol.handleError st _ with Some _ => _ | None => _ end)
    as [st' proto'].
  destruct I as [<-|I].
  - exists (S (Rike._uniqueIdSeq rike)). split; [lia | reflexivity].
  - apply IH in I; [|cbn [Rike._uniqueIdSeq]; lia].
    destruct I as (n & L & E). cbn [Rike._uniqueIdSeq] in L.
    exists n. split; [lia | exact E].
Qed.

(** X20.  The targets one service creates have pairwise distinct unique ids,
    each the decimal form of the counter after it was incremented, as long as
    the counter stays within the integers a number holds exactly (up to
    [2^53]). *)
Theorem targets_have_distinct_ids (st : Protocol.Store) (rike : Rike.Rike)
    (protocols : list (option Protocol.ref)) :
  (Z.of_nat (Rike._uniqueIdSeq rike) + Z.of_nat (List.length protocols)
   <= 9007199254740992)%Z ->
  NoDup (map Target._uniqueId (Rike.targets st rike protocols)).
Proof.
  revert st rike.
  induction protocols as [|p protocols IH]; intros st rike B; [constructor|].
  cbn [Rike.targets].
  pose proof (targets_ids protocols) as Ids.
  unfold Rike.target, Rike.generateUniqueId.
  cbn [List.length] in B.
  rewrite increment_below by lia.
  destruct (match Protocol.handleError st _ with Some _ => _ | None => _ end)
    as [st' proto'].
  cbn [map Target._uniqueId Target.new_RikeTargetImpl].
  constructor; [|apply IH; cbn [Rike._uniqueIdSeq]; lia].
  intro I. apply in_map_iff in I as (t & E & I).
  apply Ids in I; [|cbn [Rike._uniqueIdSeq]; lia].
  destruct I as (n & L & En). cbn [Rike._uniqueIdSeq] in L.
  rewrite En in E. apply number_toString_injective in E. lia.
Qed.

(** X21.  A target is created idle, with no event sent.  Its protocol is the
    one given, or [HTTP_PROTOCOL] when none is given; when that protocol has
    no error handler and the service has a default one, the target's
    protocol is that protocol decorated with the default handler: it
    prepares, writes and reads as the given protocol does.  A protocol with
    a handler of its own keeps it. *)
Theorem new_target_protocol (st : Protocol.Store) (rike : Rike.Rike)
    (protocol : option Protocol.ref) :
  let proto :=
    match protocol with Some p => p | None => Protocol.HTTP_PROTOCOL end in
  Chain.well_formed st ->
  proto < List.length st ->
  let r := Rike.target st rike protocol in
  let st' := fst (fst r) in
  let t := snd r in
  Protocol.handleError st' (Target._protocol t)
  = match Protocol.handleError st proto with
    | Some h => Some h
    | None => Rike.defaultErrorHandler rike
    end
  /\ (forall options,
        Protocol.prepareRequest st' (Target._protocol t) options
        = Protocol.prepareRequest st proto options)
  /\ (forall request options,
        Protocol.writeRequest st' (Target._protocol t) request options
        = Protocol.writeRequest st proto request options)
  /\ (forall response,
        Protocol.readResponse st' (Target._protocol t) response
        = Protocol.readResponse st proto response)
  /\ Target.currentOperation t = None
  /\ Target._rikeEvents t = []
  /\ Target._observer t = None /\ Target._subscr t = None
  /\ Chain.well_formed st'.
Proof.
  intros proto W L r st' t. subst r st' t. unfold Rike.target.
  fold proto.
  destruct (Protocol.handleError st proto) as [h|] eqn:Hh.
  - cbn. rewrite Hh. repeat split; auto.
  - destruct (Rike.defaultErrorHandler rike) as [h|] eqn:Hd.
    + destruct (handleErrorWith_result st proto (Some h) W L)
        as (parent & Lp & E & P & Wr & Rd).
      rewrite E. cbn [fst snd Rike.generateUniqueId Target._protocol
                      Target.new_RikeTargetImpl].
      unfold Protocol.handleError.
      cbn [Protocol.deref Protocol.prepareRequest Protocol.writeRequest
           Protocol.readResponse List.length].
      rewrite !Nat.eqb_refl.
      rewrite ?(ref_below parent (List.length st) Lp).
      repeat split; auto.
      * repeat constructor. exact Lp.
    + cbn. rewrite Hh. repeat split; auto.
Qed.

End Service.

Lemma targets_have_distinct_ids_witness :
  NoDup
    (map Target._uniqueId
       (Rike.targets Protocol.initial_store (Rike.mkRike 0 None None)
          [None; Some Protocol.JSON_PROTOCOL; None])).
Proof.
  apply targets_have_distinct_ids. vm_compute. discriminate.
Defined.

Lemma new_target_protocol_witness :
  let h := fun e : JS.JSValue => Normal (JS.JArray [e]) in
  let rike := Rike.mkRike 0 None (Some h) in
  let r := Rike.target Protocol.initial_store rike None in
  Protocol.handleError (fst (fst r)) (Target._protocol (snd r)) = Some h
  /\ Target._uniqueId (snd r) = "1".
Proof.
  intros h rike r.
  assert (L : Protocol.HTTP_PROTOCOL < List.length Protocol.initial_store)
    by (unfold Protocol.HTTP_PROTOCOL; simpl; lia).
  destruct (@new_target_protocol Protocol.plain_angular Protocol.initial_store
              rike None initial_store_well_formed L) as (E & _).
  split; [exact E | reflexivity].
Defined.

(** ** The status of targets *)

Section StatusOfTargets.
Import JS Event Status.

(** Objects used as maps: what an assignment changes. *)
Section MapFacts.
Context {V : Type}.

Lemma get_In (props : list (string * V)) :
  NoDup (map fst props) ->
  forall k v, In (k, v) props <-> get k props = Some v.
Proof.
  induction props as [|[k' v'] props IH]; intros D k v.
  - cbn. split; [tauto | discriminate].
  - inversion D as [|? ? N D']; subst. cbn [get In].
    destruct (String.eqb_spec k' k) as [->|Ne].
    + split.
      * intros [E|I]; [congruence|].
        destruct N. apply in_map_iff. exists (k, v). auto.
      * intros E. left. congruence.
    + rewrite <- (IH D'). split; [intros [E|I]; [congruence | exact I] | auto].
Qed.

Lemma get_None (props : list (string * V)) (k : string) :
  get k props = None <-> ~ In k (map fst props).
Proof.
  induction props as [|[k' v'] props IH]; cbn [get map fst In]; [tauto|].
  destruct (String.eqb_spec k' k) as [->|Ne].
  - split; [discriminate | tauto].
  - rewrite IH. tauto.
Qed.

Lemma replace_facts (k : string) (v : V) (props : list (string * V)) :
  map fst (replace k v props) = map fst props
  /\ (In k (map fst props) -> get k (replace k v props) = Some v)
  /\ (forall k', k' <> k -> get k' (replace k v props) = get k' props).
Proof.
  induction props as [|[k0 v0] props (IH1 & IH2 & IH3)]; cbn [replace map fst].
  - repeat split; auto. intros [].
  - destruct (String.eqb_spec k0 k) as [->|Ne]; cbn [map fst get].
    + rewrite String.eqb_refl. repeat split; auto.
      intros k' N. destruct (String.eqb_spec k k'); [congruence | reflexivity].
    + rewrite IH1. repeat split; auto.
      * intros [E|I]; [congruence|].
        destruct (String.eqb_spec k0 k); [congruence | auto].
      * intros k' N. destruct (String.eqb k0 k'); auto.
Qed.

Lemma insert_index_facts (n : N) (k : string) (v : V)
    (props : list (string * V)) :
  ~ In k (map fst props) ->
  (forall x, In x (map fst (insert_index n k v props))
             <-> x = k \/ In x (map fst props))
  /\ (NoDup (map fst props) -> NoDup (map fst (insert_index n k v props)))
  /\ get k (insert_index n k v props) = Some v
  /\ (forall k', k' <> k -> get k' (insert_index n k v props) = get k' props).
Proof.
  induction props as [|[k0 v0] props IH]; intro N.
  - cbn. rewrite String.eqb_refl. repeat split; auto.
    + intros [E|[]]. now left.
    + intros [E|[]]. now left.
    + intros _. constructor; [intros [] | constructor].
    + intros k' Ne. destruct (String.eqb_spec k k'); congruence.
  - assert (N0 : k0 <> k) by (intro E; apply N; left; exact E).
    assert (N' : ~ In k (map fst props)) by (intro I; apply N; right; exact I).
    destruct (IH N') as (I1 & I2 & I3 & I4).
    assert (Head :
              (forall x, In x (map fst ((k, v) :: (k0, v0) :: props))
                         <-> x = k \/ In x (map fst ((k0, v0) :: props)))
              /\ (NoDup (map fst ((k0, v0) :: props)) ->
                  NoDup (map fst ((k, v) :: (k0, v0) :: props)))
              /\ get k ((k, v) :: (k0, v0) :: props) = Some v
              /\ (forall k', k' <> k ->
                             get k' ((k, v) :: (k0, v0) :: props)
                             = get k' ((k0, v0) :: props))).
    { repeat split.
      - intros [E|I]; [left; now symmetry | now right].
      - intros [E|I]; [left; now symmetry | now right].
      - intro D. constructor; [exact N | exact D].
      - cbn [get]. now rewrite String.eqb_refl.
      - intros k' Ne. cbn [get].
        destruct (String.eqb_spec k k'); [congruence | reflexivity]. }
    cbn [insert_index]. destruct (array_index k0) as [m|]; [|exact Head].
    destruct (N.ltb n m); [exact Head|].
    cbn [map fst get In]. repeat split.
    + intros [E|I]; [right; now left | apply I1 in I; tauto].
    + intros [E|[E|I]]; [right; apply I1; now left | now left |
                         right; apply I1; now right].
    + intro D. inversion D as [|? ? Nk D']; subst.
      constructor; [|auto]. rewrite I1. intros [E|I]; [congruence | tauto].
    + destruct (String.eqb_spec k0 k); [congruence | exact I3].
    + intros k' Ne. destruct (String.eqb k0 k'); auto.
Qed.

Lemma append_facts (k : string) (v : V) (props : list (string * V)) :
  ~ In k (map fst props) ->
  get k (props ++ [(k, v)])%list = Some v
  /\ (forall k', k' <> k -> get k' (props ++ [(k, v)])%list = get k' props).
Proof.
  induction props as [|[k0 v0] props IH]; intro N; cbn [app get].
  - rewrite String.eqb_refl. split; [reflexivity|].
    intros k' Ne. destruct (String.eqb_spec k k'); congruence.
  - assert (N0 : k0 <> k) by (intro E; apply N; left; exact E).
    assert (N' : ~ In k (map fst props)) by (intro I; apply N; right; exact I).
    destruct (IH N') as (I1 & I2).
    destruct (String.eqb_spec k0 k); [congruence|]. split; [exact I1|].
    intros k' Ne. destruct (String.eqb k0 k'); auto.
Qed.

(** An assignment sets the value of its key, leaves the other keys as they
    are, and keeps the keys distinct. *)
Lemma put_facts (k : string) (v : V) (props : list (string * V)) :
  get k (put k v props) = Some v
  /\ (forall k', k' <> k -> get k' (put k v props) = get k' props)
  /\ (NoDup (map fst props) -> NoDup (map fst (put k v props))).
Proof.
  unfold put. destruct (get k props) as [old|] eqn:G.
  - assert (I : In k (map fst props)).
    { destruct (in_dec string_dec k (map fst props)) as [I|N]; [exact I|].
      apply get_None in N. congruence. }
    destruct (replace_facts k v props) as (R1 & R2 & R3).
    repeat split; auto. now rewrite R1.
  - apply get_None in G. destruct (array_index k) as [n|].
    + destruct (insert_index_facts n k v props G) as (_ & I2 & I3 & I4).
      repeat split; auto.
    + destruct (append_facts k v props G) as (A1 & A2).
      repeat split; auto.
      intro D. rewrite map_app. cbn.
      apply NoDup_app; [exact D | constructor; [intros [] | constructor] |].
      intros x I [E|[]]. subst. tauto.
Qed.

End MapFacts.

Lemma applied_snoc (cs : list Call) (c : Call) :
  applied (cs ++ [c])
  = (applied cs ++ match c with ApplyEvent e => [e] | _ => [] end)%list.
Proof. unfold applied. rewrite flat_map_app. cbn. now rewrite app_nil_r. Qed.

Lemma find_app_first {A} (p : A -> bool) (l m : list A) :
  find p (l ++ m)%list
  = match find p l with Some x => Some x | None => find p m end.
Proof.
  induction l as [|x l IH]; cbn; [reflexivity|]. now destruct (p x).
Qed.

Lemma find_none_rev {A} (p : A -> bool) (l : list A) :
  find p (rev l) = None <-> find p l = None.
Proof.
  assert (N : forall m, find p m = None <-> forall x, In x m -> p x = false).
  { intro m. split; [apply find_none|].
    induction m as [|y m IH]; intro Hm; cbn; [reflexivity|].
    rewrite (Hm y) by now left. apply IH. intros x I. apply Hm. now right. }
  rewrite !N. split; intros Hm x I; apply Hm; [rewrite <- in_rev | rewrite in_rev];
    exact I.
Qed.

Lemma find_weaker_none {A} (p q : A -> bool) (l : list A) :
  find p l = None -> find (fun x => p x && q x) l = None.
Proof.
  induction l as [|x l IH]; cbn; [reflexivity|].
  destruct (p x); [discriminate|]. exact IH.
Qed.

Lemma last_for_snoc (id : string) (events : list RikeEvent) (e : RikeEvent) :
  last_for id (events ++ [e])
  = if String.eqb (Event.target e) id then Some e else last_for id events.
Proof. unfold last_for. rewrite rev_app_distr. reflexivity. Qed.

Lemma status_for_snoc (id : string) (events : list RikeEvent)
    (e : RikeEvent) :
  status_for id (events ++ [e])
  = if String.eqb (Event.target e) id then
      if negb (Event.complete e) then Some (mkStatus e None)
      else
        match status_for id events with
        | None => Some (mkStatus e (Some e))
        | Some ts => Some (mkStatus (start ts) (Some e))
        end
    else status_for id events.
Proof.
  unfold status_for, start_for. rewrite last_for_snoc.
  rewrite rev_app_distr. cbn [rev app find].
  rewrite (find_app_first _ events [e]). cbn [find].
  destruct (String.eqb (Event.target e) id) eqn:T; cbn [andb].
  - destruct (Event.complete e) eqn:C; cbn [negb]; [|reflexivity].
    unfold last_for.
    destruct (find (fun e0 => String.eqb (Event.target e0) id) (rev events))
      as [l|] eqn:L.
    + destruct (find (fun e0 => String.eqb (Event.target e0) id) events)
        as [f|] eqn:F; [|apply (proj2 (find_none_rev _ _)) in F; congruence].
      now destruct (find (fun e0 => String.eqb (Event.target e0) id
                                    && negb (Event.complete e0)) (rev events)).
    + rewrite (find_weaker_none _ (fun e0 => negb (Event.complete e0)) _ L).
      apply (proj1 (find_none_rev _ _)) in L. now rewrite L.
  - now destruct (find (fun e0 => String.eqb (Event.target e0) id) events).
Qed.

Lemma find_none_iff {A} (p : A -> bool) (l : list A) :
  find p l = None <-> forall x, In x l -> p x = false.
Proof.
  split; [apply find_none|].
  induction l as [|y l IH]; intro Hl; cbn; [reflexivity|].
  rewrite (Hl y) by now left. apply IH. intros x I. apply Hl. now right.
Qed.

(** A target none of the events is of has no status. *)
Lemma status_for_none (id : string) (events : list RikeEvent) :
  (forall e, In e events -> Event.target e <> id) ->
  status_for id events = None.
Proof.
  intro N. unfold status_for, last_for.
  replace (find (fun e => String.eqb (Event.target e) id) (rev events))
    with (@None RikeEvent); [reflexivity|].
  symmetry. apply find_none_iff. intros e I. apply in_rev in I.
  apply String.eqb_neq. now apply N.
Qed.

Lemma applyEvent_resets (e : RikeEvent) (s : RikeStatus) :
  _combined (applyEvent e s) = None.
Proof.
  unfold applyEvent, store, set_end, read.
  cbn [_targetStatuses _targetStatuses_proto _labels _combined
       Object_prototype_end].
  repeat match goal with
         | |- context [if ?c then _ else _] => destruct c
         | |- context [match ?x with _ => _ end] => destruct x
         end; reflexivity.
Qed.

Lemma applyEvent_follows (events : list RikeEvent) (e : RikeEvent)
    (s : RikeStatus) :
  JS.inherited (Event.target e) = false ->
  follows events s -> follows (events ++ [e]) (applyEvent e s).
Proof.
  intros Hi (D & P & O & F).
  assert (Np : String.eqb (Event.target e) "__proto__" = false).
  { destruct (String.eqb_spec (Event.target e) "__proto__") as [E|]; [|reflexivity].
    rewrite E in Hi. discriminate Hi. }
  assert (A : exists ts,
             applyEvent e s
             = mkRikeStatus (put (Event.target e) ts (_targetStatuses s))
                 None (_labels s) None None
             /\ status_for (Event.target e) (events ++ [e]) = Some ts).
  { rewrite status_for_snoc, String.eqb_refl, <- F.
    unfold applyEvent, store, set_end, read, up_the_chain.
    cbn [_targetStatuses _targetStatuses_proto _labels _combined
         Object_prototype_end].
    rewrite P, O, Hi, Np. cbn [orb andb]. rewrite andb_false_r.
    destruct (negb (Event.complete e)); [eauto|].
    destruct (get (Event.target e) (_targetStatuses s)) as [old|];
      cbn [orb]; eexists; split; reflexivity. }
  destruct A as (ts & -> & St).
  destruct (put_facts (Event.target e) ts (_targetStatuses s)) as (G & K & N).
  split; [cbn; auto|]. split; [reflexivity|]. split; [reflexivity|].
  intro id. cbn [_targetStatuses].
  destruct (String.eqb_spec (Event.target e) id) as [<-|Ne].
  - congruence.
  - rewrite (K id) by congruence. rewrite status_for_snoc.
    destruct (String.eqb_spec (Event.target e) id); [contradiction | apply F].
Qed.

Section Defaults.

Variable defaults : string -> option StatusLabelMap.

Lemma calls_snoc (cs : list Call) (c : Call) (s : RikeStatus) :
  calls defaults (cs ++ [c]) s = call defaults c (calls defaults cs s).
Proof. unfold calls. now rewrite fold_left_app. Qed.

(** Reading the combined status changes what is remembered, nothing else. *)
Lemma combined_keeps (s : RikeStatus) :
  let s' := snd (combined defaults s) in
  _targetStatuses s' = _targetStatuses s
  /\ _targetStatuses_proto s' = _targetStatuses_proto s
  /\ _labels s' = _labels s
  /\ Object_prototype_end s' = Object_prototype_end s.
Proof.
  unfold combined. destruct (_combined s); [repeat split|].
  destruct (combine_all defaults s); repeat split.
Qed.

Lemma calls_follow (cs : list Call) :
  forallb regular cs = true ->
  follows (applied cs) (calls defaults cs new_RikeStatus).
Proof.
  induction cs as [|c cs IH] using rev_ind; intro R.
  - split; [constructor | repeat split].
  - rewrite forallb_app in R. apply andb_prop in R. destruct R as [R Rc].
    specialize (IH R). rewrite calls_snoc, applied_snoc.
    destruct c as [e|op ls|]; cbn [call].
    + apply applyEvent_follows; [|exact IH].
      cbn in Rc. rewrite andb_true_r in Rc. now apply negb_true_iff in Rc.
    + rewrite app_nil_r. exact IH.
    + rewrite app_nil_r. destruct IH as (D & P & O & F).
      destruct (combined_keeps (calls defaults cs new_RikeStatus))
        as (K1 & K2 & K3 & K4).
      unfold follows. rewrite K1, K2, K4. auto.
Qed.

Lemma regular_applied (cs : list Call) :
  forallb regular cs = true ->
  forall e, In e (applied cs) -> JS.inherited (Event.target e) = false.
Proof.
  intros R e I. unfold applied in I. apply in_flat_map in I.
  destruct I as (c & Ic & Ie). rewrite forallb_forall in R.
  specialize (R c Ic). destruct c as [e'|op ls|]; try destruct Ie.
  - subst e'. cbn in R. now apply negb_true_iff in R.
  - destruct H.
Qed.

(** X22.  After calls on a new status whose events are of targets with ids of
    their own (no unique id is the name of a member of [Object.prototype]),
    what the status holds of a target is determined by the events applied
    for that target alone: nothing when there was none; otherwise an entry
    whose start event is the last start event of the target (its first
    event, when it had no start event) and whose end event is the last event
    of the target when that is a complete event, and is absent when it is a
    start event. *)
Theorem status_of_own_events (cs : list Call) (uniqueId : string) :
  forallb regular cs = true ->
  get uniqueId (_targetStatuses (calls defaults cs new_RikeStatus))
  = status_for uniqueId (applied cs).
Proof. intro R. now destruct (calls_follow cs R) as (_ & _ & _ & F). Qed.

(** The combined status does not depend on the remembered one. *)
Lemma combine_all_cache (ts : list (string * TargetStatus))
    (p : option TargetStatus) (ls : StatusLabelMap)
    (c c' : option CombinedStatus) (o : option RikeEvent) :
  combine_all defaults (mkRikeStatus ts p ls c o)
  = combine_all defaults (mkRikeStatus ts p ls c' o).
Proof. reflexivity. Qed.

Lemma calls_cache (cs : list Call) :
  let s := calls defaults cs new_RikeStatus in
  match _combined s with
  | Some c => combine_all defaults s = Normal (Some c)
  | None => True
  end.
Proof.
  induction cs as [|c cs IH] using rev_ind; [exact I|].
  rewrite calls_snoc. cbv zeta in IH |- *.
  destruct c as [e|op ls|]; cbn [call].
  - now rewrite applyEvent_resets.
  - exact I.
  - unfold combined.
    destruct (calls defaults cs new_RikeStatus) as [ts p ls [c|] o];
      cbn [_combined snd _targetStatuses _targetStatuses_proto _labels
           Object_prototype_end] in *.
    + exact IH.
    + destruct (combine_all defaults (mkRikeStatus ts p ls None o))
        as [[c|]|err] eqn:E; cbn [snd _combined]; try exact I.
      rewrite <- E. apply combine_all_cache.
Qed.

Lemma combined_current (cs : list Call) :
  fst (combined defaults (calls defaults cs new_RikeStatus))
  = combine_all defaults (calls defaults cs new_RikeStatus).
Proof.
  pose proof (calls_cache cs) as C. cbv zeta in C. unfold combined.
  destruct (_combined (calls defaults cs new_RikeStatus)) as [c|];
    cbn [fst]; [now symmetry|].
  now destruct (combine_all defaults (calls defaults cs new_RikeStatus)).
Qed.

(** X23.  The remembered combined status is never stale: after any calls on
    a new status (events applied, labels set, the combined status read) the
    getter [combined] gives what its loop would give on the statuses and
    labels the status holds now, a combined status or the exception of the
    loop. *)
Theorem combined_is_current (cs : list Call) :
  let s := calls defaults cs new_RikeStatus in
  fst (combined defaults s) = combine_all defaults s.
Proof. intro s. apply combined_current. Qed.

(** With events of targets with ids of their own, the getter returns what
    the loop over the entries gives. *)
Lemma combined_loop (cs : list Call) :
  forallb regular cs = true ->
  let s := calls defaults cs new_RikeStatus in
  fst (combined defaults s) = Normal (combine_loop defaults s).
Proof.
  intros R s. unfold s. rewrite combined_current. fold s. unfold combine_all.
  destruct (calls_follow cs R) as (_ & _ & _ & F). fold s in F.
  rewrite F, status_for_none; [reflexivity|].
  intros e I E. apply (regular_applied cs R) in I. rewrite E in I.
  discriminate I.
Qed.

Lemma mem_In (l : string) (labels : list string) :
  mem l labels = true <-> In l labels.
Proof.
  induction labels as [|l' labels IH]; cbn [mem In].
  - split; [discriminate | tauto].
  - rewrite Bool.orb_true_iff, IH, String.eqb_eq. tauto.
Qed.

(** What the loop of [combined] gives: a flag is set when it was set or one
    of the labels sets it; the labels are the ones there were and the ones of
    the entries, each once. *)
Lemma combine_flags (this : RikeStatus) (f : CombinedStatus -> bool)
    (lf : RikeStatusLabel -> bool) :
  (forall acc l,
      flag_of f (combineLabels acc (Some l)) = flag_of f acc || lf l) ->
  forall entries acc,
    flag_of f
      (fold_left
         (fun combined (entry : string * TargetStatus) =>
            combineLabels combined (labelFor defaults this (snd entry)))
         entries acc) = true
    <-> flag_of f acc = true
        \/ exists entry l,
             In entry entries /\ labelFor defaults this (snd entry) = Some l
             /\ lf l = true.
Proof.
  intros Hf entries. induction entries as [|entry entries IH]; intro acc.
  - cbn. split; [tauto|]. intros [A|(e & l & [] & _)]. exact A.
  - cbn [fold_left]. rewrite IH.
    destruct (labelFor defaults this (snd entry)) as [l|] eqn:L.
    + rewrite Hf, Bool.orb_true_iff. split.
      * intros [[A|B]|(e & l' & I & L' & F)]; [now left | |].
        -- right. exists entry, l. split; [now left | auto].
        -- right. exists e, l'. split; [now right | auto].
      * intros [A|(e & l' & [<-|I] & L' & F)]; [tauto | |].
        -- left. right. congruence.
        -- right. exists e, l'. auto.
    + cbn [combineLabels]. split.
      * intros [A|(e & l' & I & L' & F)]; [now left|].
        right. exists e, l'. split; [now right | auto].
      * intros [A|(e & l' & [<-|I] & L' & F)]; [tauto | congruence |].
        right. exists e, l'. auto.
Qed.

Lemma combine_labels (this : RikeStatus) :
  forall entries acc,
    let r :=
      fold_left
        (fun combined (entry : string * TargetStatus) =>
           combineLabels combined (labelFor defaults this (snd entry)))
        entries acc in
    (NoDup (labels_of acc) -> NoDup (labels_of r))
    /\ (forall x,
           In x (labels_of r)
           <-> In x (labels_of acc)
               \/ exists entry l,
                    In entry entries
                    /\ labelFor defaults this (snd entry) = Some l
                    /\ label l = x).
Proof.
  assert (One : forall acc l,
             (NoDup (labels_of acc) ->
              NoDup (labels_of (combineLabels acc (Some l))))
             /\ forall x, In x (labels_of (combineLabels acc (Some l)))
                          <-> In x (labels_of acc) \/ label l = x).
  { intros [c|] l; cbn [combineLabels labels_of combined_labels].
    - destruct (mem (label l) (combined_labels c)) eqn:M.
      + apply mem_In in M. split; [auto|]. intro x. split; [tauto|].
        intros [I|<-]; assumption.
      + assert (N : ~ In (label l) (combined_labels c)).
        { rewrite <- mem_In. congruence. }
        split.
        * intro D. apply NoDup_app; [exact D | |].
          -- constructor; [intros [] | constructor].
          -- intros x I [E|[]]. subst. tauto.
        * intro x. rewrite in_app_iff. cbn. tauto.
    - split.
      + intros _. constructor; [intros [] | constructor].
      + intro x. cbn. tauto. }
  intro entries. induction entries as [|entry entries IH]; intro acc.
  - cbn. split; [auto|]. intro x. split; [tauto|].
    intros [A|(e & l & [] & _)]. exact A.
  - cbn [fold_left]. cbv zeta.
    destruct (IH (combineLabels acc (labelFor defaults this (snd entry))))
      as [D M].
    cbv zeta in D, M.
    destruct (labelFor defaults this (snd entry)) as [l|] eqn:L.
    + destruct (One acc l) as [D1 M1]. split; [auto|].
      intro x. rewrite M, M1. split.
      * intros [[A|B]|(e & l' & I & L' & F)]; [now left | |].
        -- right. exists entry, l. split; [now left | auto].
        -- right. exists e, l'. split; [now right | auto].
      * intros [A|(e & l' & [<-|I] & L' & F)]; [tauto | |].
        -- left. right. congruence.
        -- right. exists e, l'. auto.
    + cbn [combineLabels] in *. split; [exact D|].
      intro x. rewrite M. split.
      * intros [A|(e & l' & I & L' & F)]; [now left|].
        right. exists e, l'. split; [now right | auto].
      * intros [A|(e & l' & [<-|I] & L' & F)]; [tauto | congruence |].
        right. exists e, l'. auto.
Qed.

(** A label [labelOf] gives to a status that reads its own end event is not
    empty and sets the one flag of the state the target is in. *)
Lemma labelOf_flags (ts : TargetStatus) (ls : option StatusLabels)
    (l : RikeStatusLabel) :
  labelOf None ts ls = Some l ->
  label l <> ""
  /\ label_processing l
     = match end_ ts with None => true | Some _ => false end
  /\ label_cancelled l
     = match end_ ts with None => false | Some e => Event.cancel e end
  /\ label_failed l
     = match end_ ts with
       | None => false
       | Some e => negb (Event.cancel e) && Event.truthy (Event.error e)
       end
  /\ label_succeed l
     = match end_ ts with
       | None => false
       | Some e => negb (Event.cancel e) && negb (Event.truthy (Event.error e))
       end.
Proof.
  assert (Ev : forall lb text, evalLabel ts lb = Some text -> text <> "").
  { intros [[t|fn]|] text; cbn [evalLabel]; try discriminate.
    - destruct (String.eqb_spec t ""); [discriminate|]. congruence.
    - destruct (String.eqb_spec (fn (Event.target (start ts))) "");
        [discriminate|]. congruence. }
  unfold labelOf, or_else. destruct ls as [ls|]; [|discriminate].
  destruct (end_ ts) as [e|].
  - destruct (Event.cancel e).
    + destruct (evalLabel ts (cancelled ls)) as [text|] eqn:E;
        [|discriminate].
      intros [= <-]. cbn. repeat split. eauto.
    + destruct (Event.truthy (Event.error e)).
      * destruct (evalLabel ts (failed ls)) as [text|] eqn:E; [|discriminate].
        intros [= <-]. cbn. repeat split. eauto.
      * destruct (evalLabel ts (succeed ls)) as [text|] eqn:E;
          [|discriminate].
        intros [= <-]. cbn. repeat split. eauto.
  - destruct (evalLabel ts (processing ls)) as [text|] eqn:E; [|discriminate].
    intros [= <-]. cbn. repeat split. eauto.
Qed.

Lemma labelFor_source (s : RikeStatus) (ts : TargetStatus)
    (l : RikeStatusLabel) :
  labelFor defaults s ts = Some l ->
  exists ls, labelOf (Object_prototype_end s) ts ls = Some l.
Proof.
  unfold labelFor, or_else.
  repeat match goal with
         | |- context [match labelOf ?o ts ?x with _ => _ end] =>
             let E := fresh "E" in destruct (labelOf o ts x) eqn:E
         end; intros [= <-] || discriminate || eauto; eauto.
Qed.

(** With the default labels of the library as defaults, a target that is
    processing, cancelled or failed always has a label. *)
Lemma labelFor_resolves (s : RikeStatus) (ts : TargetStatus) :
  (forall id, defaults id = None \/ defaults id = Some DEFAULT_STATUS_LABELS) ->
  Object_prototype_end s = None ->
  match end_ ts with
  | None => True
  | Some e => Event.cancel e = true \/ Event.truthy (Event.error e) = true
  end ->
  exists l, labelFor defaults s ts = Some l.
Proof.
  intros D O C.
  assert (Star : exists l,
             labelOf None ts (get "*" DEFAULT_STATUS_LABELS) = Some l).
  { cbn [get DEFAULT_STATUS_LABELS String.eqb Ascii.eqb Bool.eqb].
    unfold labelOf, or_else. destruct (end_ ts) as [e|].
    - destruct (Event.cancel e); [cbn; eauto|].
      destruct C as [C|C]; [discriminate|]. rewrite C. cbn. eauto.
    - cbn. eauto. }
  destruct Star as [l0 Star].
  assert (Dl : match defaults (Event.target (start ts)) with
               | Some labels => labels
               | None => DEFAULT_STATUS_LABELS
               end = DEFAULT_STATUS_LABELS).
  { now destruct (D (Event.target (start ts))) as [-> | ->]. }
  unfold labelFor, or_else. rewrite Dl, O, Star.
  repeat match goal with
         | |- context [match labelOf None ts ?x with _ => _ end] =>
             destruct (labelOf None ts x)
         end; eauto.
Qed.

Lemma cancel_is_complete (e : RikeEvent) :
  Event.cancel e = true -> Event.complete e = true.
Proof. destruct e; cbn; congruence. Qed.

(** A flag of the loop over a status reached by calls is set when the label
    of one of the targets it holds sets it. *)
Lemma flag_entries (cs : list Call) (f : CombinedStatus -> bool)
    (lf : RikeStatusLabel -> bool) :
  (forall acc l,
      flag_of f (combineLabels acc (Some l)) = flag_of f acc || lf l) ->
  forallb regular cs = true ->
  let s := calls defaults cs new_RikeStatus in
  flag_of f (combine_loop defaults s) = true
  <-> exists id ts l,
        get id (_targetStatuses s) = Some ts
        /\ labelFor defaults s ts = Some l /\ lf l = true.
Proof.
  intros Hf R s. unfold combine_loop.
  rewrite (combine_flags s f lf Hf).
  destruct (calls_follow cs R) as (D & _). fold s in D.
  split.
  - intros [A|([id ts] & l & I & L & F)]; [discriminate|].
    exists id, ts, l. split; [|auto]. now apply get_In.
  - intros (id & ts & l & G & L & F). right.
    exists (id, ts), l. split; [|auto]. now apply get_In.
Qed.

Lemma flag_loop (cs : list Call) (f : CombinedStatus -> bool) :
  forallb regular cs = true ->
  let s := calls defaults cs new_RikeStatus in
  flag defaults f s = Normal (flag_of f (combine_loop defaults s)).
Proof. intros R s. unfold flag, s. now rewrite (combined_loop cs R). Qed.

Lemma entry_of_last (cs : list Call) (id : string) :
  forallb regular cs = true ->
  let s := calls defaults cs new_RikeStatus in
  (forall ts,
      get id (_targetStatuses s) = Some ts ->
      exists e,
        last_for id (applied cs) = Some e
        /\ end_ ts = (if Event.complete e then Some e else None))
  /\ (forall e,
         last_for id (applied cs) = Some e ->
         exists ts,
           get id (_targetStatuses s) = Some ts
           /\ end_ ts = (if Event.complete e then Some e else None)).
Proof.
  intros R s. destruct (calls_follow cs R) as (_ & _ & _ & F). fold s in F.
  specialize (F id). rewrite F. unfold status_for, start_for, last_for.
  destruct (find (fun e => String.eqb (Event.target e) id)
              (rev (applied cs))) as [l|] eqn:L.
  - assert (S : exists e0,
               match
                 find (fun e => String.eqb (Event.target e) id
                                && negb (Event.complete e)) (rev (applied cs))
               with
               | Some e => Some e
               | None =>
                   find (fun e => String.eqb (Event.target e) id) (applied cs)
               end = Some e0).
    { destruct (find (fun e => String.eqb (Event.target e) id
                                && negb (Event.complete e))
                  (rev (applied cs))); [eauto|].
      destruct (find (fun e => String.eqb (Event.target e) id) (applied cs))
        as [f|] eqn:Fi; [eauto|].
      apply (proj2 (find_none_rev _ _)) in Fi. congruence. }
    destruct S as [e0 ->]. split.
    + intros ts [= <-]. eauto.
    + intros e [= <-]. eauto.
  - split; [discriminate | discriminate].
Qed.

(** X24.  After calls on a new status whose events are of targets with ids
    of their own, when the services of the targets give the default labels
    of the library or none, and whatever labels were set on the status, the
    four flags are read without an exception: the status is processing
    exactly when the last event applied for some target is a start event,
    cancelled exactly when the last event of some target is a cancel event,
    and failed exactly when the last event of some target is a complete
    event that is no cancel event and has a truthy error (an error event
    whose error is falsy does not count).  It is succeeded only when the
    last event of some target is a complete event that is no cancel event
    and has no truthy error. *)
Theorem flags_follow_last_events (cs : list Call) :
  (forall id, defaults id = None \/ defaults id = Some DEFAULT_STATUS_LABELS) ->
  forallb regular cs = true ->
  let s := calls defaults cs new_RikeStatus in
  let last e := exists id, last_for id (applied cs) = Some e in
  exists is_processing is_cancelled is_failed is_succeed,
    get_processing defaults s = Normal is_processing
    /\ get_cancelled defaults s = Normal is_cancelled
    /\ get_failed defaults s = Normal is_failed
    /\ get_succeed defaults s = Normal is_succeed
    /\ (is_processing = true <-> exists e, last e /\ Event.complete e = false)
    /\ (is_cancelled = true <-> exists e, last e /\ Event.cancel e = true)
    /\ (is_failed = true
        <-> exists e,
              last e /\ Event.complete e = true /\ Event.cancel e = false
              /\ Event.truthy (Event.error e) = true)
    /\ (is_succeed = true ->
        exists e,
          last e /\ Event.complete e = true /\ Event.cancel e = false
          /\ Event.truthy (Event.error e) = false).
Proof.
  intros Dflt R s last.
  destruct (calls_follow cs R) as (_ & _ & Po & _). fold s in Po.
  assert (Back : forall id ts l,
             get id (_targetStatuses s) = Some ts ->
             labelFor defaults s ts = Some l ->
             exists e,
               last e
               /\ end_ ts = (if Event.complete e then Some e else None)
               /\ label_processing l
                  = match end_ ts with None => true | Some _ => false end
               /\ label_cancelled l
                  = match end_ ts with
                    | None => false
                    | Some e => Event.cancel e
                    end
               /\ label_failed l
                  = match end_ ts with
                    | None => false
                    | Some e =>
                        negb (Event.cancel e) && Event.truthy (Event.error e)
                    end
               /\ label_succeed l
                  = match end_ ts with
                    | None => false
                    | Some e =>
                        negb (Event.cancel e)
                        && negb (Event.truthy (Event.error e))
                    end).
  { intros id ts l G L.
    destruct (entry_of_last cs id R) as [E _].
    destruct (E ts G) as (e & La & En).
    destruct (labelFor_source s ts l L) as [ls Lo]. rewrite Po in Lo.
    destruct (labelOf_flags ts ls l Lo) as (_ & F).
    exists e. split; [now exists id | auto]. }
  assert (Forth : forall id e,
             last_for id (applied cs) = Some e ->
             (Event.complete e = false \/ Event.cancel e = true
              \/ Event.truthy (Event.error e) = true) ->
             exists ts l,
               get id (_targetStatuses s) = Some ts
               /\ labelFor defaults s ts = Some l
               /\ end_ ts = (if Event.complete e then Some e else None)
               /\ label_processing l
                  = match end_ ts with None => true | Some _ => false end
               /\ label_cancelled l
                  = match end_ ts with
                    | None => false
                    | Some e => Event.cancel e
                    end
               /\ label_failed l
                  = match end_ ts with
                    | None => false
                    | Some e =>
                        negb (Event.cancel e) && Event.truthy (Event.error e)
                    end).
  { intros id e La C.
    destruct (entry_of_last cs id R) as [_ E].
    destruct (E e La) as (ts & G & En).
    assert (X : exists l, labelFor defaults s ts = Some l).
    { apply labelFor_resolves; [exact Dflt | exact Po |]. rewrite En.
      destruct (Event.complete e); [|exact I].
      destruct C as [C|[C|C]]; [discriminate | now left | now right]. }
    destruct X as [l L].
    destruct (labelFor_source s ts l L) as [ls Lo]. rewrite Po in Lo.
    destruct (labelOf_flags ts ls l Lo) as (_ & F1 & F2 & F3 & _).
    exists ts, l. auto 10. }
  exists (flag_of combined_processing (combine_loop defaults s)),
    (flag_of combined_cancelled (combine_loop defaults s)),
    (flag_of combined_failed (combine_loop defaults s)),
    (flag_of combined_succeed (combine_loop defaults s)).
  split; [apply (flag_loop cs _ R)|]. split; [apply (flag_loop cs _ R)|].
  split; [apply (flag_loop cs _ R)|]. split; [apply (flag_loop cs _ R)|].
  unfold s at 1 2 3 4.
  rewrite (flag_entries cs combined_processing label_processing)
    by (exact R || (intros [c|] l; reflexivity)).
  rewrite (flag_entries cs combined_cancelled label_cancelled)
    by (exact R || (intros [c|] l; reflexivity)).
  rewrite (flag_entries cs combined_failed label_failed)
    by (exact R || (intros [c|] l; reflexivity)).
  rewrite (flag_entries cs combined_succeed label_succeed)
    by (exact R || (intros [c|] l; reflexivity)).
  cbv zeta. fold s.
  repeat split.
  - intros (id & ts & l & G & L & F).
    destruct (Back id ts l G L) as (e & La & En & F1 & _).
    exists e. split; [exact La|].
    rewrite F in F1. rewrite En in F1.
    destruct (Event.complete e); [discriminate | reflexivity].
  - intros (e & [id La] & C).
    destruct (Forth id e La (or_introl C)) as (ts & l & G & L & En & F1 & _).
    exists id, ts, l. repeat split; auto.
    rewrite F1, En, C. reflexivity.
  - intros (id & ts & l & G & L & F).
    destruct (Back id ts l G L) as (e & La & En & _ & F2 & _).
    exists e. split; [exact La|].
    rewrite F in F2. rewrite En in F2.
    destruct (Event.complete e); [now symmetry | discriminate].
  - intros (e & [id La] & C).
    destruct (Forth id e La (or_intror (or_introl C)))
      as (ts & l & G & L & En & _ & F2 & _).
    exists id, ts, l. repeat split; auto.
    rewrite F2, En, (cancel_is_complete e C). exact C.
  - intros (id & ts & l & G & L & F).
    destruct (Back id ts l G L) as (e & La & En & _ & _ & F3 & _).
    exists e. split; [exact La|].
    rewrite F in F3. rewrite En in F3.
    destruct (Event.complete e); [|discriminate].
    symmetry in F3. apply Bool.andb_true_iff in F3. destruct F3 as [N T].
    apply Bool.negb_true_iff in N. auto.
  - intros (e & [id La] & C & N & T).
    destruct (Forth id e La (or_intror (or_intror T)))
      as (ts & l & G & L & En & _ & _ & F3).
    exists id, ts, l. repeat split; auto.
    rewrite F3, En, C, N, T. reflexivity.
  - intros (id & ts & l & G & L & F).
    destruct (Back id ts l G L) as (e & La & En & _ & _ & _ & F4).
    exists e. split; [exact La|].
    rewrite F in F4. rewrite En in F4.
    destruct (Event.complete e); [|discriminate].
    symmetry in F4. apply Bool.andb_true_iff in F4. destruct F4 as [N T].
    apply Bool.negb_true_iff in N, T. auto.
Qed.

Lemma labels_entries (cs : list Call) :
  forallb regular cs = true ->
  let s := calls defaults cs new_RikeStatus in
  get_labels defaults s = Normal (labels_of (combine_loop defaults s))
  /\ NoDup (labels_of (combine_loop defaults s))
  /\ forall x,
       In x (labels_of (combine_loop defaults s))
       <-> exists id ts l,
             get id (_targetStatuses s) = Some ts
             /\ labelFor defaults s ts = Some l /\ label l = x.
Proof.
  intros R s.
  split; [unfold get_labels, s; now rewrite (combined_loop cs R)|].
  unfold combine_loop.
  destruct (combine_labels s (_targetStatuses s) None) as [D M].
  cbv zeta in D, M.
  destruct (calls_follow cs R) as (K & _). fold s in K.
  split; [apply D; constructor|].
  intro x. rewrite M. split.
  - intros [[]|([id ts] & l & I & L & F)].
    exists id, ts, l. split; [|auto]. now apply get_In.
  - intros (id & ts & l & G & L & F). right.
    exists (id, ts), l. split; [|auto]. now apply get_In.
Qed.

Lemma labels_nonempty (cs : list Call) :
  forallb regular cs = true ->
  ~ In "" (labels_of
             (combine_loop defaults (calls defaults cs new_RikeStatus))).
Proof.
  intro R. destruct (labels_entries cs R) as (_ & _ & M). cbv zeta in M.
  destruct (calls_follow cs R) as (_ & _ & Po & _).
  intro I. apply M in I. destruct I as (id & ts & l & G & L & E).
  destruct (labelFor_source _ ts l L) as [ls Lo]. rewrite Po in Lo.
  now destruct (labelOf_flags ts ls l Lo) as (N & _).
Qed.

(** X25.  The labels of a status reached by calls whose events are of
    targets with ids of their own are read without an exception; they are
    pairwise different and none of them is the empty string; a label is
    among them exactly when it is the label of one of the targets the status
    holds; and there is no label exactly when none of the four flags is
    set. *)
Theorem labels_distinct_nonempty (cs : list Call) :
  forallb regular cs = true ->
  let s := calls defaults cs new_RikeStatus in
  exists labels,
    get_labels defaults s = Normal labels
    /\ NoDup labels
    /\ ~ In "" labels
    /\ (forall x,
           In x labels
           <-> exists id ts l,
                 get id (_targetStatuses s) = Some ts
                 /\ labelFor defaults s ts = Some l /\ label l = x)
    /\ (labels = []
        <-> get_processing defaults s = Normal false
            /\ get_failed defaults s = Normal false
            /\ get_cancelled defaults s = Normal false
            /\ get_succeed defaults s = Normal false).
Proof.
  intros R s. destruct (labels_entries cs R) as (G & D & M).
  fold s in G, D, M.
  destruct (calls_follow cs R) as (_ & _ & Po & _). fold s in Po.
  exists (labels_of (combine_loop defaults s)).
  split; [exact G|]. split; [exact D|].
  split; [apply (labels_nonempty cs R)|]. split; [exact M|].
  pose proof (flag_entries cs combined_processing label_processing) as P.
  pose proof (flag_entries cs combined_failed label_failed) as F.
  pose proof (flag_entries cs combined_cancelled label_cancelled) as C.
  pose proof (flag_entries cs combined_succeed label_succeed) as S.
  cbv zeta in P, F, C, S. fold s in P, F, C, S.
  unfold get_processing, get_failed, get_cancelled, get_succeed.
  unfold s at 2 3 4 5. rewrite !(flag_loop cs _ R). fold s.
  split.
  - intro E.
    assert (No : forall id ts l,
               get id (_targetStatuses s) = Some ts ->
               labelFor defaults s ts = Some l -> False).
    { intros id ts l Gi L.
      assert (I : In (label l) (labels_of (combine_loop defaults s)))
        by (apply M; exists id, ts, l; auto).
      rewrite E in I. destruct I. }
    repeat split; f_equal; apply Bool.not_true_is_false; intro T.
    + apply P in T; [| intros [c|] l; reflexivity | exact R].
      destruct T as (id & ts & l & Gi & L & _). eauto.
    + apply F in T; [| intros [c|] l; reflexivity | exact R].
      destruct T as (id & ts & l & Gi & L & _). eauto.
    + apply C in T; [| intros [c|] l; reflexivity | exact R].
      destruct T as (id & ts & l & Gi & L & _). eauto.
    + apply S in T; [| intros [c|] l; reflexivity | exact R].
      destruct T as (id & ts & l & Gi & L & _). eauto.
  - intros (Pf & Ff & Cf & Sf).
    injection Pf as Pf. injection Ff as Ff. injection Cf as Cf.
    injection Sf as Sf.
    destruct (labels_of (combine_loop defaults s)) as [|x rest] eqn:E;
      [reflexivity|].
    assert (I : In x (x :: rest)) by now left.
    apply M in I. destruct I as (id & ts & l & Gi & L & _).
    destruct (labelFor_source s ts l L) as [ls Lo]. rewrite Po in Lo.
    destruct (labelOf_flags ts ls l Lo) as (_ & F1 & F2 & F3 & F4).
    assert (One : label_processing l = true \/ label_failed l = true
                  \/ label_cancelled l = true \/ label_succeed l = true).
    { rewrite F1, F2, F3, F4. destruct (end_ ts) as [e|]; [|now left].
      destruct (Event.cancel e), (Event.truthy (Event.error e)); cbn; auto. }
    destruct One as [T|[T|[T|T]]].
    + assert (X : flag_of combined_processing (combine_loop defaults s) = true).
      { apply P; [intros [c|] l'; reflexivity | exact R |].
        exists id, ts, l. auto. }
      congruence.
    + assert (X : flag_of combined_failed (combine_loop defaults s) = true).
      { apply F; [intros [c|] l'; reflexivity | exact R |].
        exists id, ts, l. auto. }
      congruence.
    + assert (X : flag_of combined_cancelled (combine_loop defaults s) = true).
      { apply C; [intros [c|] l'; reflexivity | exact R |].
        exists id, ts, l. auto. }
      congruence.
    + assert (X : flag_of combined_succeed (combine_loop defaults s) = true).
      { apply S; [intros [c|] l'; reflexivity | exact R |].
        exists id, ts, l. auto. }
      congruence.
Qed.

Lemma append_empty_r (s : string) : s ++ "" = s.
Proof. induction s as [|c s IH]; cbn; [reflexivity | now rewrite IH]. Qed.

(** The loop of [text] over labels none of which is empty, continued from a
    text that is not empty. *)
Lemma text_loop (labels : list string) (text : string) :
  text <> "" ->
  fold_left
    (fun text l => (if String.eqb text "" then text else text ++ ", ") ++ l)
    labels text
  = fold_left (fun acc q => acc ++ ", " ++ q) labels text.
Proof.
  revert text. induction labels as [|l labels IH]; intros text N;
    [reflexivity|].
  cbn [fold_left]. destruct (String.eqb_spec text ""); [contradiction|].
  rewrite append_assoc. apply IH.
  intro E. apply append_split_empty in E. tauto.
Qed.

(** A second read of the combined status gives what the first gave. *)
Lemma combined_again (s : RikeStatus) :
  fst (combined defaults (snd (combined defaults s)))
  = fst (combined defaults s).
Proof.
  destruct s as [ts p ls [c|] o]; [reflexivity|].
  unfold combined.
  cbn [_combined _targetStatuses _targetStatuses_proto _labels
       Object_prototype_end].
  destruct (combine_all defaults (mkRikeStatus ts p ls None o))
    as [[c|]|err] eqn:E;
    cbn [fst snd _combined _targetStatuses _targetStatuses_proto _labels
         Object_prototype_end];
    try reflexivity; now rewrite E.
Qed.

(** X26.  The text of a status component, with the label text it has by
    default, after calls on its status whose events are of targets with ids
    of their own: it is read without an exception, and is nothing when the
    status has no label; otherwise the labels joined by a comma and a space,
    followed by three dots when the status is processing. *)
Theorem text_joins_labels (cs : list Call) :
  forallb regular cs = true ->
  let s := calls defaults cs new_RikeStatus in
  exists labels is_processing,
    get_labels defaults s = Normal labels
    /\ get_processing defaults s = Normal is_processing
    /\ text defaults s
       = Normal
           match labels with
           | [] => None
           | _ =>
               Some (JS.join ", " labels
                     ++ (if is_processing then "..." else ""))
           end.
Proof.
  intros R s. pose proof (labels_nonempty cs R) as N. fold s in N.
  destruct (labels_entries cs R) as (G & _). fold s in G.
  pose proof (flag_loop cs combined_processing R) as P. fold s in P.
  exists (labels_of (combine_loop defaults s)),
    (flag_of combined_processing (combine_loop defaults s)).
  split; [exact G|]. split; [exact P|].
  unfold text. rewrite G. cbn [bindC].
  destruct (labels_of (combine_loop defaults s)) as [|l labels];
    [reflexivity|].
  unfold get_processing, flag in P |- *. rewrite combined_again.
  destruct (fst (combined defaults s)) as [c|err]; [|discriminate P].
  cbn [bindC] in P |- *. injection P as <-. do 2 f_equal.
  cbn [fold_left JS.join String.eqb append].
  assert (Nl : l <> "") by (intro E; apply N; left; exact E).
  rewrite (text_loop labels l Nl).
  destruct (flag_of combined_processing c);
    [reflexivity | now rewrite append_empty_r].
Qed.

End Defaults.

(** What the hypothesis on the unique ids leaves out.  The first complete
    event of a target whose id is the name of a member of [Object.prototype]
    stores no entry; once a start event has stored an entry under
    [hasOwnProperty], the getters throw. *)
Lemma inherited_ids_counterexamples :
  let o1 := mkOperation "constructor" "load" Protocol.HTTP_PROTOCOL in
  let o2 := mkOperation "hasOwnProperty" "load" Protocol.HTTP_PROTOCOL in
  _targetStatuses (applyEvent (RikeSuccessEvent o1 undefined) new_RikeStatus)
  = []
  /\ get_labels (fun _ => None)
       (applyEvent (RikeOperationEvent o2) new_RikeStatus)
     = Throw (TypeError "this._targetStatuses.hasOwnProperty is not a function").
Proof. split; reflexivity. Qed.

End StatusOfTargets.

Lemma status_of_own_events_witness :
  let o1 := Target.load_operation in
  let cs :=
    [Status.ApplyEvent (Event.RikeOperationEvent o1);
     Status.ApplyEvent (Event.RikeSuccessEvent o1 (Event.Val (JS.JString "a")));
     Status.ApplyEvent
       (Event.RikeErrorEvent o1 (Event.Val (JS.JString "late")))] in
  Status.get "1"
    (Status._targetStatuses
       (Status.calls (fun _ => None) cs Status.new_RikeStatus))
  = Some
      (Status.mkStatus (Event.RikeOperationEvent o1)
         (Some (Event.RikeErrorEvent o1 (Event.Val (JS.JString "late"))))).
Proof.
  intros o1 cs.
  rewrite (status_of_own_events (fun _ => None) cs "1" eq_refl).
  reflexivity.
Defined.

Lemma flags_follow_last_events_witness :
  let o1 := Target.load_operation in
  let o2 := Event.mkOperation "2" "save" Protocol.HTTP_PROTOCOL in
  let cs :=
    [Status.WithLabels (Some "load")
       (Status.mkLabels (Some (Status.LabelText "Fetching")) None None None);
     Status.ApplyEvent (Event.RikeOperationEvent o1);
     Status.ApplyEvent (Event.RikeOperationEvent o2);
     Status.ApplyEvent (Event.new_RikeCancelEvent o2 Event.undefined)] in
  let s := Status.calls (fun _ => None) cs Status.new_RikeStatus in
  Status.get_processing (fun _ => None) s = Normal true
  /\ Status.get_cancelled (fun _ => None) s = Normal true.
Proof.
  intros o1 o2 cs s.
  destruct (flags_follow_last_events (fun _ => None) cs
              (fun _ => or_introl eq_refl) eq_refl)
    as (p & c & f & u & Gp & Gc & _ & _ & P & C & _).
  fold s in Gp, Gc.
  assert (Tp : p = true).
  { apply P. exists (Event.RikeOperationEvent o1).
    split; [exists "1"; reflexivity | reflexivity]. }
  assert (Tc : c = true).
  { apply C. exists (Event.new_RikeCancelEvent o2 Event.undefined).
    split; [exists "2"; reflexivity | reflexivity]. }
  rewrite Gp, Gc, Tp, Tc. split; reflexivity.
Defined.

Lemma labels_distinct_nonempty_witness :
  let o1 := Target.load_operation in
  let o2 := Event.mkOperation "2" "load" Protocol.HTTP_PROTOCOL in
  let cs :=
    [Status.ApplyEvent (Event.RikeOperationEvent o2);
     Status.ApplyEvent (Event.RikeOperationEvent o1)] in
  let s := Status.calls (fun _ => None) cs Status.new_RikeStatus in
  exists labels,
    Status.get_labels (fun _ => None) s = Normal labels
    /\ NoDup labels /\ labels = ["Loading"].
Proof.
  intros o1 o2 cs s.
  destruct (labels_distinct_nonempty (fun _ => None) cs eq_refl)
    as (labels & G & D & _).
  exists labels. split; [exact G|]. split; [exact D|].
  fold s in G. cbv in G. now injection G as <-.
Defined.

Lemma text_joins_labels_witness :
  let o1 := Target.load_operation in
  let o2 := Event.mkOperation "2" "save" Protocol.HTTP_PROTOCOL in
  let cs :=
    [Status.ApplyEvent (Event.RikeOperationEvent o2);
     Status.ApplyEvent (Event.RikeOperationEvent o1);
     Status.ApplyEvent
       (Event.RikeErrorEvent o2 (Event.Val (JS.JString "refused")))] in
  Status.text (fun _ => None) (Status.calls (fun _ => None) cs Status.new_RikeStatus)
  = Normal (Some "Loading, Error...").
Proof.
  intros o1 o2 cs.
  destruct (text_joins_labels (fun _ => None) cs eq_refl)
    as (labels & p & G & P & T).
  rewrite T. cbv in G, P. injection G as <-. injection P as <-.
  reflexivity.
Defined.
